(** * The sink-manager worker of cdc/processor/sinkmanager

    A shallow embedding of [worker.go] and [worker_impl.go]: the task
    record, the worker's [run] loop, [emitEventsToTableSink],
    [updateTableSinkResolvedTs] and [close]; and, of the package [conn]
    that follows in [worker_impl.go], [GetAllServerID],
    [GetRandomServerID], [ExtractTiDBVersion] and
    [CreateTableSQLToOneRow].

    The worker talks to four collaborators whose code is elsewhere: the
    sort engine, the memory quota, the table sink and the task's shared
    barrier.  Every call the worker makes to one of them is appended to a
    history of calls, and what a collaborator answers is an arbitrary
    function of the history so far, so that a theorem quantified over the
    environment covers every behaviour of the collaborators, including
    state changed by other goroutines between two calls. *)

From Stdlib Require Import ZArith List Bool Lia String Ascii Sorted.
Import ListNotations.
Open Scope Z_scope.

(** ** Machine integers *)

(** Go's [uint64]: arithmetic modulo 2^64. *)
Definition wrapU64 (z : Z) : Z := z mod 2 ^ 64.

(** Go's [int] on a 64-bit platform: two's complement in 64 bits. *)
Definition wrapInt (z : Z) : Z := (z + 2 ^ 63) mod 2 ^ 64 - 2 ^ 63.

Definition maxUint64 : Z := 2 ^ 64 - 1.
Definition maxInt : Z := 2 ^ 63 - 1.
Definition minInt : Z := - 2 ^ 63.

Definition isUint64 (z : Z) : Prop := 0 <= z <= maxUint64.
Definition isInt (z : Z) : Prop := minInt <= z <= maxInt.

(** A Go [error] value. *)
Definition error : Type := string.

(** ** Data of the packages [model] and [sorter] the worker uses *)

Module model.

Definition Ts : Type := Z.        (* uint64 *)
Definition TableID : Type := Z.   (* int64 *)

(** [ApproximateBytes] is what [Row.ApproximateBytes()] returns, an [int]. *)
Record RowChangedEvent : Type := { ApproximateBytes : Z }.

Record PolymorphicEvent : Type := {
  StartTs : Ts;
  CRTs : Ts;
  Row : RowChangedEvent
}.

Inductive ResolvedMode : Type := NormalResolvedMode | BatchResolvedMode.

Record ResolvedTs : Type := {
  Mode : ResolvedMode;
  Ts_ : Ts;
  BatchID : Z
}.

(** Modelled from the spec: [model.NewResolvedTs] is declared outside
    src/.  The spec has a normal-mode resolved timestamp be "a bare commit
    timestamp"; the batch identifier such a value carries is not said, and
    is the parameter [normalBatchID]. *)
Definition NewResolvedTs (normalBatchID : Z) (t : Ts) : ResolvedTs :=
  {| Mode := NormalResolvedMode; Ts_ := t; BatchID := normalBatchID |}.

End model.

Module sorter.

Record Position : Type := { CommitTs : model.Ts; StartTs : model.Ts }.

(** The zero value of the struct, what [var lastPos sorter.Position] holds. *)
Definition zero : Position := {| CommitTs := 0; StartTs := 0 |}.

(** What [iter.Next()] returns: an event with its position, or an error.
    The end of the list of items is the [nil] event. *)
Inductive IterItem : Type :=
| ItEvent (e : model.PolymorphicEvent) (pos : Position)
| ItErr (err : error).

(** Modelled from the spec: the comparison of positions is declared
    outside src/.  "Positions are totally ordered by (CommitTs, StartTs)". *)
Definition lt (p q : Position) : Prop :=
  CommitTs p < CommitTs q \/ (CommitTs p = CommitTs q /\ StartTs p < StartTs q).

End sorter.

Definition bytesOf (e : model.PolymorphicEvent) : Z :=
  model.ApproximateBytes (model.Row e).

(** ** worker.go *)

(** Handles of the objects a task points to. *)
Definition handle : Type := nat.

Record tableSinkTask : Type := {
  tableID : model.TableID;
  lowerBound : sorter.Position;
  lastBarrierTs : handle;   (* *atomic.Uint64 *)
  tableSink : handle;       (* *tableSinkWrapper *)
  callback : handle         (* writeSuccessCallback *)
}.

(** ** The history of calls *)

Inductive Call : Type :=
| BarrierLoad (barrier : handle) (v : Z)
| FetchByTable (tid : model.TableID) (lower upper : sorter.Position)
| IterNext (r : option sorter.IterItem)
| IterClose (r : option error)
| ForceAcquire (n : Z)
| Refund (n : Z)
| Record_ (tid : model.TableID) (rts : model.ResolvedTs) (size : Z)
| IsExceed (r : bool)
| AllocateBatchID (tid : model.TableID) (r : Z)
| ResetBatchID (tid : model.TableID)
| VerifyAndTrySplitEvent (sink : handle) (e : model.PolymorphicEvent)
    (r : error + list model.RowChangedEvent)
| EmitRowChangedEvent (sink : handle) (batch : list model.PolymorphicEvent)
    (rows : list model.RowChangedEvent)
| SinkUpdateResolvedTs (sink : handle) (rts : model.ResolvedTs) (r : option error)
| Callback (cb : handle) (lastWrittenPos : sorter.Position).

(** A history lists the calls made so far, the latest first.  In
    [EmitRowChangedEvent] the rows are the argument of the call; [batch] is
    ghost information, the pending events the rows were split from. *)
Definition History : Type := list Call.

(** Everything of the program that is not under src/: two constants, the
    validity predicate of positions, and the answers of the collaborators. *)
Record Env : Type := {
  (** the constant [defaultMemoryUsage], one grant unit *)
  defaultMemoryUsage : Z;
  (** the batch identifier of a fresh normal-mode resolved timestamp *)
  normalBatchID : Z;
  (** [sorter.Position.Valid] *)
  Valid : sorter.Position -> bool;
  (** [t.lastBarrierTs.Load()] *)
  barrierLoad : History -> handle -> Z;
  (** the items the cursor of [sortEngine.FetchByTable] will yield *)
  fetchByTable : History -> model.TableID -> sorter.Position -> sorter.Position ->
                 list sorter.IterItem;
  (** [iter.Close()] *)
  iterClose : History -> option error;
  (** [memQuota.IsExceed()] *)
  isExceed : History -> bool;
  (** [memQuota.AllocateBatchID(tableID)] *)
  allocateBatchID : History -> model.TableID -> Z;
  (** [tableSink.verifyAndTrySplitEvent(e)] *)
  verifyAndTrySplitEvent : History -> handle -> model.PolymorphicEvent ->
                           error + list model.RowChangedEvent;
  (** [tableSink.updateTableSinkResolvedTs(resolvedTs)] *)
  sinkUpdateResolvedTs : History -> handle -> model.ResolvedTs -> option error;
  (** which ready case a [select] takes when both are ready *)
  selectClosed : History -> bool
}.

(** ** The monad of the worker: a history, and an error or a result *)

Inductive result (A : Type) : Type :=
| Ok (a : A)
| Err (e : error)
| Spin.   (* an inner loop that does not end *)
Arguments Ok {A} a.
Arguments Err {A} e.
Arguments Spin {A}.

Definition M (A : Type) : Type := History -> result A * History.

Definition ret {A} (a : A) : M A := fun h => (Ok a, h).

Definition fail {A} (e : error) : M A := fun h => (Err e, h).

Definition spin {A} : M A := fun h => (Spin, h).

Definition bind {A B} (m : M A) (k : A -> M B) : M B :=
  fun h =>
    match m h with
    | (Ok a, h') => k a h'
    | (Err e, h') => (Err e, h')
    | (Spin, h') => (Spin, h')
    end.

Notation "x <- m ;; k" := (bind m (fun x => k))
  (at level 61, m at next level, right associativity).
Notation "m ;;; k" := (bind m (fun _ => k))
  (at level 61, right associativity).

(** A call whose answer [ask] reads off the history, logged as [entry]. *)
Definition call {A} (ask : History -> A) (entry : A -> Call) : M A :=
  fun h => let a := ask h in (Ok a, entry a :: h).

(** A call without an answer. *)
Definition tell (entry : Call) : M unit := fun h => (Ok tt, entry :: h).

(** A call that answers an [error] or [nil]. *)
Definition tryCall (ask : History -> option error) (entry : option error -> Call) : M unit :=
  fun h =>
    match ask h with
    | Some e => (Err e, entry (Some e) :: h)
    | None => (Ok tt, entry None :: h)
    end.

(** ** worker_impl.go *)

Definition maxUpdateIntervalSize : Z := 256 * 1024 * 1024.

(** [sorter.Position{CommitTs: currentBarrierTs - 1, StartTs: currentBarrierTs}],
    in [uint64]. *)
Definition upperBoundOf (currentBarrierTs : Z) : sorter.Position :=
  {| sorter.CommitTs := wrapU64 (currentBarrierTs - 1);
     sorter.StartTs := currentBarrierTs |}.

Inductive chan : Type := ChanOpen | ChanClosed.

(** The fields of [workerImpl] the code reads.  [parentCtx], [redoManager],
    [sortEngine] and [memQuota] are the collaborators of [Env]. *)
Record workerImpl : Type := {
  splitTxn : bool;
  batchSize : Z;        (* uint64 *)
  closedChan : chan
}.

Section Worker.

Variable env : Env.
Variable w : workerImpl.

(** [emitEventsToTableSink], the loop over the pending events: the size
    is an [int], the rows are appended as they come. *)
Fixpoint verifyEvents (t : tableSinkTask) (events : list model.PolymorphicEvent)
    (size : Z) (rowChangeEvents : list model.RowChangedEvent)
    : M (Z * list model.RowChangedEvent) :=
  match events with
  | [] => ret (size, rowChangeEvents)
  | e :: rest =>
      let size := wrapInt (size + bytesOf e) in
      fun h =>
        let r := verifyAndTrySplitEvent env h (tableSink t) e in
        let h' := VerifyAndTrySplitEvent (tableSink t) e r :: h in
        match r with
        | inl err => (Err err, h')
        | inr rows => verifyEvents t rest size (rowChangeEvents ++ rows) h'
        end
  end.

Definition emitEventsToTableSink (t : tableSinkTask)
    (events : list model.PolymorphicEvent) : M Z :=
  sr <- verifyEvents t events 0 [] ;;
  tell (EmitRowChangedEvent (tableSink t) events (snd sr)) ;;;
  ret (wrapU64 (fst sr)).

Definition updateTableSinkResolvedTs (t : tableSinkTask) (commitTs : model.Ts)
    (size : Z) : M unit :=
  let resolvedTs := model.NewResolvedTs (normalBatchID env) commitTs in
  resolvedTs <-
    (if splitTxn w then
       id <- call (fun h => allocateBatchID env h (tableID t))
                  (AllocateBatchID (tableID t)) ;;
       ret {| model.Mode := model.BatchResolvedMode;
              model.Ts_ := model.Ts_ resolvedTs;
              model.BatchID := id |}
     else ret resolvedTs) ;;
  tell (Record_ (tableID t) resolvedTs size) ;;;
  tryCall (fun h => sinkUpdateResolvedTs env h (tableSink t) resolvedTs)
      (SinkUpdateResolvedTs (tableSink t) resolvedTs).

(** The local variables of one task in [run]. *)
Record locals : Type := {
  availableMem : Z;                        (* int *)
  events : list model.PolymorphicEvent;
  lastPos : sorter.Position;
  lastTotalSize : Z;                       (* uint64 *)
  batchCount : Z                           (* int *)
}.

Definition initLocals : locals :=
  {| availableMem := defaultMemoryUsage env;
     events := [];
     lastPos := sorter.zero;
     lastTotalSize := 0;
     batchCount := 0 |}.

(** [for availableMem-e.Row.ApproximateBytes() < 0 { ... }] *)
Fixpoint acquireLoop (fuel : nat) (availableMem bytes : Z) : M Z :=
  if wrapInt (availableMem - bytes) <? 0 then
    match fuel with
    | O => spin
    | S fuel' =>
        tell (ForceAcquire (defaultMemoryUsage env)) ;;;
        acquireLoop fuel' (wrapInt (availableMem + defaultMemoryUsage env)) bytes
    end
  else ret availableMem.

(** Rounds that are enough for [acquireLoop] to end when the grant unit is
    a positive [int] (lemma [acquireLoop_ends]); with a unit of 0 the loop
    of the source does not end either. *)
Definition acquireFuel (availableMem bytes : Z) : nat :=
  Z.to_nat (- wrapInt (availableMem - bytes) / defaultMemoryUsage env + 1).

Inductive ctl : Type := Continue | Break.

(** [lastTotalSize >= maxUpdateIntervalSize], then publish and reset. *)
Definition updateIfLarge (t : tableSinkTask) (e : model.PolymorphicEvent)
    (lastTotalSize : Z) : M Z :=
  if maxUpdateIntervalSize <=? lastTotalSize then
    updateTableSinkResolvedTs t (model.CRTs e) lastTotalSize ;;;
    ret 0
  else ret lastTotalSize.

(** The part of the loop body under [if pos.Valid()]. *)
Definition atBoundary (t : tableSinkTask) (e : model.PolymorphicEvent)
    (pos : sorter.Position) (l : locals) : M (ctl * locals) :=
  let lastPos := pos in
  (if splitTxn w then tell (ResetBatchID (tableID t)) else ret tt) ;;;
  size <- emitEventsToTableSink t (events l) ;;
  let lastTotalSize := wrapU64 (lastTotalSize l + size) in
  let events := @nil model.PolymorphicEvent in
  lastTotalSize <- updateIfLarge t e lastTotalSize ;;
  exceed <- call (isExceed env) IsExceed ;;
  if exceed then
    updateTableSinkResolvedTs t (model.CRTs e) lastTotalSize ;;;
    ret (Break, {| availableMem := availableMem l; events := events;
                   lastPos := lastPos; lastTotalSize := 0;
                   batchCount := batchCount l |})
  else
    ret (Continue, {| availableMem := availableMem l; events := events;
                      lastPos := lastPos; lastTotalSize := lastTotalSize;
                      batchCount := batchCount l |}).

(** The part of the loop body under
    [if w.splitTxn && uint64(batchCount) >= w.batchSize]. *)
Definition atBatchSize (t : tableSinkTask) (e : model.PolymorphicEvent)
    (l : locals) : M locals :=
  if splitTxn w && (batchSize w <=? wrapU64 (batchCount l)) then
    size <- emitEventsToTableSink t (events l) ;;
    let lastTotalSize := wrapU64 (lastTotalSize l + size) in
    lastTotalSize <- updateIfLarge t e lastTotalSize ;;
    ret {| availableMem := availableMem l; events := [];
           lastPos := lastPos l; lastTotalSize := lastTotalSize;
           batchCount := batchCount l |}
  else ret l.

(** The first lines of the loop body: force-acquire until the allowance
    covers the event, deduct its size, append it to the pending batch. *)
Definition consume (e : model.PolymorphicEvent) (l : locals) : M locals :=
  avail <- acquireLoop (acquireFuel (availableMem l) (bytesOf e))
                       (availableMem l) (bytesOf e) ;;
  ret {| availableMem := wrapInt (avail - bytesOf e);
         events := events l ++ [e];
         lastPos := lastPos l; lastTotalSize := lastTotalSize l;
         batchCount := batchCount l |}.

(** The body of the fetch loop for an event [e] at [pos]. *)
Definition loopBody (t : tableSinkTask) (e : model.PolymorphicEvent)
    (pos : sorter.Position) (l : locals) : M (ctl * locals) :=
  l <- consume e l ;;
  r <- (if Valid env pos then atBoundary t e pos l else ret (Continue, l)) ;;
  match r with
  | (Break, l) => ret (Break, l)
  | (Continue, l) => l <- atBatchSize t e l ;; ret (Continue, l)
  end.

(** The fetch loop over the items the cursor yields. *)
Fixpoint fetchLoop (t : tableSinkTask) (items : list sorter.IterItem)
    (l : locals) : M locals :=
  match items with
  | [] => tell (IterNext None) ;;; ret l
  | sorter.ItErr err :: _ =>
      tell (IterNext (Some (sorter.ItErr err))) ;;; fail err
  | sorter.ItEvent e pos :: rest =>
      tell (IterNext (Some (sorter.ItEvent e pos))) ;;;
      r <- loopBody t e pos l ;;
      match r with
      | (Break, l) => ret l
      | (Continue, l) => fetchLoop t rest l
      end
  end.

(** One round of the outer loop of [run], after a task was received. *)
Definition runTask (t : tableSinkTask) : M unit :=
  currentBarrierTs <- call (fun h => barrierLoad env h (lastBarrierTs t))
                           (BarrierLoad (lastBarrierTs t)) ;;
  let upperBound := upperBoundOf currentBarrierTs in
  items <- (fun h => (Ok (fetchByTable env h (tableID t) (lowerBound t) upperBound),
                      FetchByTable (tableID t) (lowerBound t) upperBound :: h)) ;;
  l <- fetchLoop t items initLocals ;;
  tell (Refund (wrapU64 (availableMem l))) ;;;
  tell (Callback (callback t) (lastPos l)) ;;;
  tryCall (iterClose env) IterClose.

(** How [run] ends when it does not return an error. *)
Inductive runExit : Type :=
| ReturnNil       (* [return nil] *)
| Blocked.        (* no case of the [select] is ever ready *)

(** [run]: [taskChan] lists the tasks the channel will deliver.  A
    closed [closedChan] is always ready; when a task is ready too the
    [select] takes either case. *)
Fixpoint run (taskChan : list tableSinkTask) : M runExit :=
  match taskChan with
  | [] =>
      match closedChan w with
      | ChanClosed => ret ReturnNil
      | ChanOpen => ret Blocked
      end
  | t :: rest =>
      fun h =>
        match closedChan w with
        | ChanClosed =>
            if selectClosed env h then (Ok ReturnNil, h)
            else (runTask t ;;; run rest) h
        | ChanOpen => (runTask t ;;; run rest) h
        end
  end.

End Worker.

(** [close(w.closedChan)]: closing a closed channel panics. *)
Definition close (w : workerImpl) : option workerImpl :=
  match closedChan w with
  | ChanOpen => Some {| splitTxn := splitTxn w; batchSize := batchSize w;
                        closedChan := ChanClosed |}
  | ChanClosed => None
  end.

(** ** Reading a history *)

(** The calls the fetch loop makes. *)
Definition inLoop (c : Call) : Prop :=
  match c with
  | BarrierLoad _ _ | FetchByTable _ _ _ | IterClose _ | Refund _ | Callback _ _ => False
  | _ => True
  end.

(** The calls one task makes once its cursor is open. *)
Definition afterFetch (c : Call) : Prop :=
  match c with
  | BarrierLoad _ _ | FetchByTable _ _ _ => False
  | _ => True
  end.

(** ** The runs of the worker

    What one call of each function of the worker can add to the history,
    whatever the collaborators answer.  The calls a run adds are listed the
    latest first, as in a history.  Lemma [runTask_taskRun] shows that every
    run of [runTask] is one of these. *)

Definition answer (r : option error) : result unit :=
  match r with
  | Some e => Err e
  | None => Ok tt
  end.

Definition isVerify (c : Call) : Prop :=
  match c with
  | VerifyAndTrySplitEvent _ _ _ => True
  | _ => False
  end.

(** The size [emitEventsToTableSink] adds up, an [int], from [size]. *)
Definition batchBytes (evs : list model.PolymorphicEvent) (size : Z) : Z :=
  fold_left (fun s e => wrapInt (s + bytesOf e)) evs size.

Definition emitSize (evs : list model.PolymorphicEvent) : Z :=
  wrapU64 (batchBytes evs 0).

Section Runs.

Variable env : Env.
Variable w : workerImpl.
Variable t : tableSinkTask.

(** [emitEventsToTableSink t evs] *)
Inductive flushRun (evs : list model.PolymorphicEvent) : result Z -> History -> Prop :=
| flush_failed e err vs :
    Forall isVerify vs ->
    flushRun evs (Err err) (VerifyAndTrySplitEvent (tableSink t) e (inl err) :: vs)
| flush_done rows vs :
    Forall isVerify vs ->
    flushRun evs (Ok (emitSize evs))
             (EmitRowChangedEvent (tableSink t) evs rows :: vs).

Definition resetEntries : History :=
  if splitTxn w then [ResetBatchID (tableID t)] else [].

Definition allocEntries (rts : model.ResolvedTs) : History :=
  if splitTxn w then [AllocateBatchID (tableID t) (model.BatchID rts)] else [].

Definition modeOf : model.ResolvedMode :=
  if splitTxn w then model.BatchResolvedMode else model.NormalResolvedMode.

(** [updateTableSinkResolvedTs t commitTs size] *)
Inductive publishRun (commitTs : model.Ts) (size : Z) : result unit -> History -> Prop :=
| publish_run rts res :
    model.Ts_ rts = commitTs ->
    model.Mode rts = modeOf ->
    publishRun commitTs size (answer res)
               (SinkUpdateResolvedTs (tableSink t) rts res
                  :: Record_ (tableID t) rts size :: allocEntries rts).

(** [updateIfLarge t e lts] *)
Inductive largeRun (commitTs : model.Ts) (lts : Z) : result Z -> History -> Prop :=
| large_below :
    lts < maxUpdateIntervalSize -> largeRun commitTs lts (Ok lts) []
| large_published d :
    maxUpdateIntervalSize <= lts ->
    publishRun commitTs lts (Ok tt) d -> largeRun commitTs lts (Ok 0) d
| large_failed err d :
    maxUpdateIntervalSize <= lts ->
    publishRun commitTs lts (Err err) d -> largeRun commitTs lts (Err err) d.

(** [consume e l]: [k] force-acquires, each needed. *)
Inductive consumeRun (e : model.PolymorphicEvent) (l : locals) :
    result locals -> History -> Prop :=
| consume_done k :
    (forall j, (j < k)%nat ->
               wrapInt (availableMem l + Z.of_nat j * defaultMemoryUsage env - bytesOf e) < 0) ->
    0 <= wrapInt (availableMem l + Z.of_nat k * defaultMemoryUsage env - bytesOf e) ->
    consumeRun e l
      (Ok {| availableMem := wrapInt (availableMem l + Z.of_nat k * defaultMemoryUsage env - bytesOf e);
             events := events l ++ [e];
             lastPos := lastPos l; lastTotalSize := lastTotalSize l;
             batchCount := batchCount l |})
      (repeat (ForceAcquire (defaultMemoryUsage env)) k)
| consume_spin k :
    ~ 0 < defaultMemoryUsage env <= maxInt ->
    consumeRun e l Spin (repeat (ForceAcquire (defaultMemoryUsage env)) k).

(** [atBoundary t e pos l] *)
Inductive boundaryRun (e : model.PolymorphicEvent) (pos : sorter.Position) (l : locals) :
    result (ctl * locals) -> History -> Prop :=
| boundary_flush_failed err dF :
    flushRun (events l) (Err err) dF ->
    boundaryRun e pos l (Err err) (dF ++ resetEntries)
| boundary_large_failed size dF err dL :
    flushRun (events l) (Ok size) dF ->
    largeRun (model.CRTs e) (wrapU64 (lastTotalSize l + size)) (Err err) dL ->
    boundaryRun e pos l (Err err) (dL ++ dF ++ resetEntries)
| boundary_continue size dF lts dL :
    flushRun (events l) (Ok size) dF ->
    largeRun (model.CRTs e) (wrapU64 (lastTotalSize l + size)) (Ok lts) dL ->
    boundaryRun e pos l
      (Ok (Continue, {| availableMem := availableMem l; events := [];
                        lastPos := pos; lastTotalSize := lts;
                        batchCount := batchCount l |}))
      (IsExceed false :: dL ++ dF ++ resetEntries)
| boundary_stop size dF lts dL dP :
    flushRun (events l) (Ok size) dF ->
    largeRun (model.CRTs e) (wrapU64 (lastTotalSize l + size)) (Ok lts) dL ->
    publishRun (model.CRTs e) lts (Ok tt) dP ->
    boundaryRun e pos l
      (Ok (Break, {| availableMem := availableMem l; events := [];
                     lastPos := pos; lastTotalSize := 0;
                     batchCount := batchCount l |}))
      (dP ++ IsExceed true :: dL ++ dF ++ resetEntries)
| boundary_stop_failed size dF lts dL err dP :
    flushRun (events l) (Ok size) dF ->
    largeRun (model.CRTs e) (wrapU64 (lastTotalSize l + size)) (Ok lts) dL ->
    publishRun (model.CRTs e) lts (Err err) dP ->
    boundaryRun e pos l (Err err) (dP ++ IsExceed true :: dL ++ dF ++ resetEntries).

(** [atBatchSize t e l] *)
Inductive batchRun (e : model.PolymorphicEvent) (l : locals) :
    result locals -> History -> Prop :=
| batch_skip :
    splitTxn w && (batchSize w <=? wrapU64 (batchCount l)) = false ->
    batchRun e l (Ok l) []
| batch_flush_failed err dF :
    splitTxn w && (batchSize w <=? wrapU64 (batchCount l)) = true ->
    flushRun (events l) (Err err) dF ->
    batchRun e l (Err err) dF
| batch_large_failed size dF err dL :
    splitTxn w && (batchSize w <=? wrapU64 (batchCount l)) = true ->
    flushRun (events l) (Ok size) dF ->
    largeRun (model.CRTs e) (wrapU64 (lastTotalSize l + size)) (Err err) dL ->
    batchRun e l (Err err) (dL ++ dF)
| batch_done size dF lts dL :
    splitTxn w && (batchSize w <=? wrapU64 (batchCount l)) = true ->
    flushRun (events l) (Ok size) dF ->
    largeRun (model.CRTs e) (wrapU64 (lastTotalSize l + size)) (Ok lts) dL ->
    batchRun e l
      (Ok {| availableMem := availableMem l; events := [];
             lastPos := lastPos l; lastTotalSize := lts;
             batchCount := batchCount l |})
      (dL ++ dF).

(** How the loop goes on after the body. *)
Inductive bodyEnd : Type :=
| Goes (l : locals)      (* next round *)
| Stops (l : locals)     (* [break] *)
| Aborts (e : error)     (* [return err] *)
| Spins.

Definition bodyResult (b : bodyEnd) : result (ctl * locals) :=
  match b with
  | Goes l => Ok (Continue, l)
  | Stops l => Ok (Break, l)
  | Aborts e => Err e
  | Spins => Spin
  end.

(** [loopBody t e pos l] *)
Inductive bodyRun (e : model.PolymorphicEvent) (pos : sorter.Position) (l : locals) :
    bodyEnd -> History -> Prop :=
| body_spin d :
    consumeRun e l Spin d -> bodyRun e pos l Spins d
| body_inside l1 d0 l2 dS :
    consumeRun e l (Ok l1) d0 -> Valid env pos = false ->
    batchRun e l1 (Ok l2) dS ->
    bodyRun e pos l (Goes l2) (dS ++ d0)
| body_inside_failed l1 d0 err dS :
    consumeRun e l (Ok l1) d0 -> Valid env pos = false ->
    batchRun e l1 (Err err) dS ->
    bodyRun e pos l (Aborts err) (dS ++ d0)
| body_boundary_failed l1 d0 err dB :
    consumeRun e l (Ok l1) d0 -> Valid env pos = true ->
    boundaryRun e pos l1 (Err err) dB ->
    bodyRun e pos l (Aborts err) (dB ++ d0)
| body_boundary_stop l1 d0 l2 dB :
    consumeRun e l (Ok l1) d0 -> Valid env pos = true ->
    boundaryRun e pos l1 (Ok (Break, l2)) dB ->
    bodyRun e pos l (Stops l2) (dB ++ d0)
| body_boundary l1 d0 l2 dB l3 dS :
    consumeRun e l (Ok l1) d0 -> Valid env pos = true ->
    boundaryRun e pos l1 (Ok (Continue, l2)) dB ->
    batchRun e l2 (Ok l3) dS ->
    bodyRun e pos l (Goes l3) (dS ++ dB ++ d0)
| body_boundary_batch_failed l1 d0 l2 dB err dS :
    consumeRun e l (Ok l1) d0 -> Valid env pos = true ->
    boundaryRun e pos l1 (Ok (Continue, l2)) dB ->
    batchRun e l2 (Err err) dS ->
    bodyRun e pos l (Aborts err) (dS ++ dB ++ d0).

(** How the fetch loop ends. *)
Inductive loopEnd : Type :=
| Exhausted (l : locals)   (* the cursor yields [nil] *)
| Stopped (l : locals)     (* [break], the quota is exceeded *)
| Aborted (e : error)      (* [return err] *)
| Spinning.

Definition loopResult (r : loopEnd) : result locals :=
  match r with
  | Exhausted l | Stopped l => Ok l
  | Aborted e => Err e
  | Spinning => Spin
  end.

(** [fetchLoop t items l] *)
Inductive loopRun : list sorter.IterItem -> locals -> loopEnd -> History -> Prop :=
| loop_exhausted l :
    loopRun [] l (Exhausted l) [IterNext None]
| loop_fetch_failed err rest l :
    loopRun (sorter.ItErr err :: rest) l (Aborted err)
            [IterNext (Some (sorter.ItErr err))]
| loop_stopped e pos rest l l' d :
    bodyRun e pos l (Stops l') d ->
    loopRun (sorter.ItEvent e pos :: rest) l (Stopped l')
            (d ++ [IterNext (Some (sorter.ItEvent e pos))])
| loop_aborted e pos rest l err d :
    bodyRun e pos l (Aborts err) d ->
    loopRun (sorter.ItEvent e pos :: rest) l (Aborted err)
            (d ++ [IterNext (Some (sorter.ItEvent e pos))])
| loop_spinning e pos rest l d :
    bodyRun e pos l Spins d ->
    loopRun (sorter.ItEvent e pos :: rest) l Spinning
            (d ++ [IterNext (Some (sorter.ItEvent e pos))])
| loop_next e pos rest l l1 d r d' :
    bodyRun e pos l (Goes l1) d ->
    loopRun rest l1 r d' ->
    loopRun (sorter.ItEvent e pos :: rest) l r
            (d' ++ d ++ [IterNext (Some (sorter.ItEvent e pos))]).

(** The calls that open the cursor, for the barrier value [B]. *)
Definition openEntries (B : Z) : History :=
  [FetchByTable (tableID t) (lowerBound t) (upperBoundOf B);
   BarrierLoad (lastBarrierTs t) B].

(** The calls that end a task whose loop ended with the locals [l]. *)
Definition endEntries (l : locals) (c : option error) : History :=
  [IterClose c; Callback (callback t) (lastPos l); Refund (wrapU64 (availableMem l))].

(** [runTask t]: [B] is the barrier read, [items] what the cursor yields. *)
Inductive taskRun (B : Z) (items : list sorter.IterItem) : result unit -> History -> Prop :=
| task_exhausted l d c :
    loopRun items (initLocals env) (Exhausted l) d ->
    taskRun B items (answer c) (endEntries l c ++ d ++ openEntries B)
| task_stopped l d c :
    loopRun items (initLocals env) (Stopped l) d ->
    taskRun B items (answer c) (endEntries l c ++ d ++ openEntries B)
| task_aborted err d :
    loopRun items (initLocals env) (Aborted err) d ->
    taskRun B items (Err err) (d ++ openEntries B)
| task_spinning d :
    loopRun items (initLocals env) Spinning d ->
    taskRun B items Spin (d ++ openEntries B).

End Runs.

(** ** A concrete environment

    Collaborators for evaluating the worker: a grant unit of [unit] bytes, a
    barrier that reads [B], a cursor that yields [items], a quota that is
    exceeded when [exceed] says so, a sink that takes every event as one row
    and every resolved timestamp.  A position is valid when it has a commit
    timestamp. *)

Definition exampleEnv (unit B : Z) (items : list sorter.IterItem)
    (exceed : History -> bool) : Env :=
  {| defaultMemoryUsage := unit;
     normalBatchID := maxUint64;
     Valid := fun p => negb (sorter.CommitTs p =? 0);
     barrierLoad := fun _ _ => B;
     fetchByTable := fun _ _ _ _ => items;
     iterClose := fun _ => None;
     isExceed := exceed;
     allocateBatchID := fun _ _ => 1;
     verifyAndTrySplitEvent := fun _ _ e => inr [model.Row e];
     sinkUpdateResolvedTs := fun _ _ _ => None;
     selectClosed := fun _ => true |}.

Definition exampleTask : tableSinkTask :=
  {| tableID := 1;
     lowerBound := {| sorter.CommitTs := 5; sorter.StartTs := 4 |};
     lastBarrierTs := 0%nat; tableSink := 1%nat; callback := 2%nat |}.

Definition exampleWorker (split : bool) (K : Z) : workerImpl :=
  {| splitTxn := split; batchSize := K; closedChan := ChanOpen |}.

(** An event of the transaction that started at 9 and committed at 10. *)
Definition exampleEvent (bytes : Z) : model.PolymorphicEvent :=
  {| model.StartTs := 9; model.CRTs := 10;
     model.Row := {| model.ApproximateBytes := bytes |} |}.

(** An event inside the transaction, and the one that ends it. *)
Definition inside (bytes : Z) : sorter.IterItem :=
  sorter.ItEvent (exampleEvent bytes) sorter.zero.

Definition boundary (bytes : Z) : sorter.IterItem :=
  sorter.ItEvent (exampleEvent bytes) {| sorter.CommitTs := 10; sorter.StartTs := 9 |}.

Definition never : History -> bool := fun _ => false.
Definition always : History -> bool := fun _ => true.

(** ** What a history says *)

(** The entries of a history, the earliest first, mapped by [f]. *)
Definition proj {X} (f : Call -> list X) (h : History) : list X :=
  flat_map f (rev h).

(** The batches flushed to the sink, one for each call of
    [emitEventsToTableSink] that reached [emitRowChangedEvent]. *)
Definition flushes : History -> list (list model.PolymorphicEvent) :=
  proj (fun c => match c with EmitRowChangedEvent _ batch _ => [batch] | _ => [] end).

(** [ceil (n / k)] *)
Definition ceilDiv (n k : Z) : Z := (n + k - 1) / k.

(** [close()] called [n] times; [None] is a panic. *)
Fixpoint closeTimes (n : nat) (w : workerImpl) : option workerImpl :=
  match n with
  | O => Some w
  | S n' =>
      match close w with
      | Some w' => closeTimes n' w'
      | None => None
      end
  end.

(** The calls of a flush or of a publication, and the reset of the batch
    identifiers. *)
Definition sinkCall (c : Call) : Prop :=
  match c with
  | Record_ _ _ _ | AllocateBatchID _ _ | ResetBatchID _
  | VerifyAndTrySplitEvent _ _ _ | EmitRowChangedEvent _ _ _
  | SinkUpdateResolvedTs _ _ _ => True
  | _ => False
  end.

(** The calls of a round of the fetch loop after which the loop goes on. *)
Definition quiet (c : Call) : Prop :=
  match c with
  | ForceAcquire _ | Record_ _ _ _ | AllocateBatchID _ _ | ResetBatchID _
  | VerifyAndTrySplitEvent _ _ _ | EmitRowChangedEvent _ _ _
  | SinkUpdateResolvedTs _ _ _ | IsExceed false => True
  | _ => False
  end.

(** The calls of a round of the fetch loop, the cursor read apart. *)
Definition inBody (c : Call) : Prop :=
  match c with
  | IsExceed true => True
  | _ => quiet c
  end.

(** The latest call of [d] answered the error [err], and it was a cursor
    read, a validation or a publication: the three aborts of a task. *)
Definition abortedBy (err : error) (d : History) : Prop :=
  match d with
  | IterNext (Some (sorter.ItErr e)) :: _
  | VerifyAndTrySplitEvent _ _ (inl e) :: _
  | SinkUpdateResolvedTs _ _ (Some e) :: _ => e = err
  | _ => False
  end.

(** The latest valid position the cursor yielded in [d], or [dflt]. *)
Fixpoint lastValidPos (env : Env) (d : History) (dflt : sorter.Position) : sorter.Position :=
  match d with
  | [] => dflt
  | IterNext (Some (sorter.ItEvent _ pos)) :: older =>
      if Valid env pos then pos else lastValidPos env older dflt
  | _ :: older => lastValidPos env older dflt
  end.

(** The latest event the cursor yielded in [d], with its position. *)
Fixpoint lastNext (d : History) : option (model.PolymorphicEvent * sorter.Position) :=
  match d with
  | [] => None
  | IterNext (Some (sorter.ItEvent e pos)) :: _ => Some (e, pos)
  | _ :: older => lastNext older
  end.

(** The events the cursor yielded, the earliest first. *)
Definition consumed : History -> list model.PolymorphicEvent :=
  proj (fun c => match c with
                 | IterNext (Some (sorter.ItEvent e _)) => [e]
                 | _ => []
                 end).

(** The events flushed to the sink, the earliest first. *)
Definition emitted : History -> list model.PolymorphicEvent :=
  proj (fun c => match c with EmitRowChangedEvent _ batch _ => batch | _ => [] end).

(** The calls that neither yield an event, nor flush, nor publish. *)
Definition silent (c : Call) : Prop :=
  match c with
  | IterNext _ | EmitRowChangedEvent _ _ _ | SinkUpdateResolvedTs _ _ _ => False
  | _ => True
  end.

(** The resolved timestamp [rts] is published for the latest event read in
    [older]: it has the commit timestamp of that event, and when the worker
    does not split transactions that event ends a transaction and the
    resolved timestamp is in normal mode. *)
Definition publishedFor (env : Env) (w : workerImpl) (rts : model.ResolvedTs)
    (older : History) : Prop :=
  exists e pos,
    lastNext older = Some (e, pos) /\
    model.Ts_ rts = model.CRTs e /\
    (splitTxn w = false ->
     Valid env pos = true /\ model.Mode rts = model.NormalResolvedMode).

(** Whenever [d] publishes a resolved timestamp, the events the cursor
    yielded before are the events flushed before, and the resolved timestamp
    is published for the latest of them. *)
Fixpoint publishOK (env : Env) (w : workerImpl) (d : History) : Prop :=
  match d with
  | [] => True
  | SinkUpdateResolvedTs _ rts _ :: older =>
      (consumed older = emitted older /\ publishedFor env w rts older) /\
      publishOK env w older
  | _ :: older => publishOK env w older
  end.

(** The events of [evs] are the ones the cursor yielded and the history did
    not flush, and the history published well. *)
Definition pending (env : Env) (w : workerImpl) (evs : list model.PolymorphicEvent)
    (h : History) : Prop :=
  consumed h = emitted h ++ evs /\ publishOK env w h.

Definition sumZ (l : list Z) : Z := fold_right Z.add 0 l.

(** The bytes a history force-acquired. *)
Definition acquired (h : History) : Z :=
  sumZ (proj (fun c => match c with ForceAcquire n => [n] | _ => [] end) h).

(** The bytes of the events the cursor yielded. *)
Definition consumedBytes (h : History) : Z := sumZ (map bytesOf (consumed h)).

(** The bytes of the events flushed to the sink. *)
Definition emittedBytes (h : History) : Z := sumZ (map bytesOf (emitted h)).

(** The bytes recorded with the quota. *)
Definition recordedBytes (h : History) : Z :=
  sumZ (proj (fun c => match c with Record_ _ _ size => [size] | _ => [] end) h).

(** The amounts refunded. *)
Definition refunds : History -> list Z :=
  proj (fun c => match c with Refund n => [n] | _ => [] end).

(** An event whose size is not negative and fits an [int] together with one
    grant unit. *)
Definition itemOK (env : Env) (it : sorter.IterItem) : Prop :=
  match it with
  | sorter.ItEvent e _ => 0 <= bytesOf e /\ bytesOf e + defaultMemoryUsage env <= maxInt
  | sorter.ItErr _ => True
  end.

(** The calls that neither force-acquire nor yield an event. *)
Definition frugal (c : Call) : Prop :=
  match c with
  | ForceAcquire _ | IterNext (Some (sorter.ItEvent _ _)) => False
  | _ => True
  end.

(** The allowance [avail] is what was granted, one unit and the bytes
    force-acquired in [d], less the bytes of the events read in [d]. *)
Definition balanced (env : Env) (avail : Z) (d : History) : Prop :=
  0 <= avail <= defaultMemoryUsage env /\
  0 <= consumedBytes d /\
  avail = defaultMemoryUsage env + acquired d - consumedBytes d.

(** The calls other than [IsExceed] answering that the quota is exceeded. *)
Definition calm (c : Call) : Prop :=
  match c with
  | IsExceed true => False
  | _ => True
  end.

(** The ways a round of the loop meets an exceeded quota: the publication
    [dP] follows the answer, and the round stops the loop or aborts. *)
Definition meetsExceed (env : Env) (w : workerImpl) (t : tableSinkTask)
    (e : model.PolymorphicEvent) (pos : sorter.Position)
    (b : bodyEnd) (d : History) : Prop :=
  exists dP older lts,
    d = dP ++ IsExceed true :: older /\
    Forall calm older /\ Forall inBody older /\ Valid env pos = true /\
    ((exists l', b = Stops l' /\ lastPos l' = pos /\
                 publishRun w t (model.CRTs e) lts (Ok tt) dP) \/
     (exists err, b = Aborts err /\
                  publishRun w t (model.CRTs e) lts (Err err) dP)).

(** ** More on what a history says *)

(** The calls of the fetch loop other than the reset of the batch
    identifiers and the calls of a publication. *)
Definition plainCall (c : Call) : Prop :=
  match c with
  | IterNext _ | ForceAcquire _ | VerifyAndTrySplitEvent _ _ _
  | EmitRowChangedEvent _ _ _ | IsExceed _ => True
  | _ => False
  end.

(** The calls that are not about batch identifiers. *)
Definition noBatchID (c : Call) : Prop :=
  match c with
  | AllocateBatchID _ _ | ResetBatchID _ => False
  | _ => True
  end.

(** Every publication of [d] comes right after the record of the same
    resolved timestamp with the quota and, when the worker splits
    transactions, the allocation of its batch identifier. *)
Fixpoint recordedFirst (w : workerImpl) (t : tableSinkTask) (d : History) : Prop :=
  match d with
  | [] => True
  | SinkUpdateResolvedTs sink rts _ :: older =>
      (sink = tableSink t /\ model.Mode rts = modeOf w /\
       exists size older',
         older = Record_ (tableID t) rts size :: allocEntries w t rts ++ older') /\
      recordedFirst w t older
  | _ :: older => recordedFirst w t older
  end.

(** The validations of a batch that succeeded, the earliest first: each
    event with the rows it was split into. *)
Definition verifyCalls (sink : handle)
    (split : list (model.PolymorphicEvent * list model.RowChangedEvent)) : list Call :=
  map (fun p => VerifyAndTrySplitEvent sink (fst p) (inr (snd p))) split.

(** The calls that neither yield an event nor flush. *)
Definition mute (c : Call) : Prop :=
  match c with
  | IterNext (Some (sorter.ItEvent _ _)) | EmitRowChangedEvent _ _ _ => False
  | _ => True
  end.

(** At every moment of [d] the events flushed so far are the first of the
    events read so far, in their order. *)
Fixpoint orderly (d : History) : Prop :=
  match d with
  | [] => True
  | _ :: older => (exists rest, consumed d = emitted d ++ rest) /\ orderly older
  end.

(** The events of [evs] are the ones read and not flushed, and the history
    was orderly all along. *)
Definition kept (evs : list model.PolymorphicEvent) (h : History) : Prop :=
  consumed h = emitted h ++ evs /\ orderly h.

(** The events read since the latest transaction boundary, the earliest
    first. *)
Fixpoint sinceBoundary (env : Env) (d : History) : list model.PolymorphicEvent :=
  match d with
  | [] => []
  | IterNext (Some (sorter.ItEvent e pos)) :: older =>
      if Valid env pos then [] else sinceBoundary env older ++ [e]
  | _ :: older => sinceBoundary env older
  end.

(** The worker never flushes inside a transaction: it does not split
    transactions, or its batch size is not 0. *)
Definition flushesAtBoundaries (w : workerImpl) : Prop :=
  splitTxn w = false \/ 1 <= batchSize w.

(** Each amount recorded with the quota is, modulo 2^64, the bytes of the
    events flushed before and not recorded yet. *)
Fixpoint recordsOK (d : History) : Prop :=
  match d with
  | [] => True
  | Record_ _ _ size :: older =>
      size = wrapU64 (emittedBytes older - recordedBytes older) /\ recordsOK older
  | _ :: older => recordsOK older
  end.

(** [lts] is, modulo 2^64, the bytes flushed and not recorded in [h], and
    [h] recorded well. *)
Definition owed (lts : Z) (h : History) : Prop :=
  lts = wrapU64 (emittedBytes h - recordedBytes h) /\ recordsOK h.

(** The calls that neither flush nor record. *)
Definition unrecorded (c : Call) : Prop :=
  match c with
  | EmitRowChangedEvent _ _ _ | Record_ _ _ _ => False
  | _ => True
  end.


(** The callbacks called, the earliest first. *)
Definition callbackHandles : History -> list handle :=
  proj (fun c => match c with Callback cb _ => [cb] | _ => [] end).

(** The events read since the boundary before the latest event read, that
    event included. *)
Fixpoint lastTxn (env : Env) (d : History) : list model.PolymorphicEvent :=
  match d with
  | [] => []
  | IterNext (Some (sorter.ItEvent e _)) :: older => sinceBoundary env older ++ [e]
  | _ :: older => lastTxn env older
  end.

(** Every flush of [d] comes when the latest event read ends a transaction,
    and flushes the events read since the boundary before. *)
Fixpoint flushOK (env : Env) (d : History) : Prop :=
  match d with
  | [] => True
  | EmitRowChangedEvent _ batch _ :: older =>
      (exists e pos,
         lastNext older = Some (e, pos) /\ Valid env pos = true /\
         batch = lastTxn env older) /\
      flushOK env older
  | _ :: older => flushOK env older
  end.

(** The calls that are made on behalf of the task [t]: on its barrier, its
    table, its sink and its callback; a force-acquire is of one grant
    unit. *)
Definition ownCall (env : Env) (t : tableSinkTask) (c : Call) : Prop :=
  match c with
  | BarrierLoad b _ => b = lastBarrierTs t
  | FetchByTable tid lower _ => tid = tableID t /\ lower = lowerBound t
  | ForceAcquire n => n = defaultMemoryUsage env
  | Record_ tid _ _ | AllocateBatchID tid _ | ResetBatchID tid => tid = tableID t
  | VerifyAndTrySplitEvent sink _ _ | EmitRowChangedEvent sink _ _
  | SinkUpdateResolvedTs sink _ _ => sink = tableSink t
  | Callback cb _ => cb = callback t
  | _ => True
  end.

(** Whatever the history before, [m] adds only calls that satisfy [P]. *)
Definition adds {A} (P : Call -> Prop) (m : M A) : Prop :=
  forall h, exists d, snd (m h) = d ++ h /\ Forall P d.

(** ** Go's package [strings]

    The functions of the standard library the package [conn] calls, on
    strings as sequences of bytes. *)

Module strings.

(** [strings.HasPrefix(s, prefix)] *)
Definition HasPrefix (s prefix : string) : bool := String.prefix prefix s.

(** [strings.HasSuffix(s, suffix)] *)
Definition HasSuffix (s suffix : string) : bool :=
  (String.length suffix <=? String.length s)%nat &&
  String.eqb (substring (String.length s - String.length suffix)
                        (String.length suffix) s)
             suffix.

(** [strings.TrimPrefix(s, prefix)]: [s[len(prefix):]] when [s] starts with
    [prefix], and [s] otherwise. *)
Definition TrimPrefix (s prefix : string) : string :=
  if HasPrefix s prefix
  then substring (String.length prefix) (String.length s - String.length prefix) s
  else s.

(** [strings.TrimSuffix(s, suffix)]: [s[:len(s)-len(suffix)]] when [s] ends
    with [suffix], and [s] otherwise. *)
Definition TrimSuffix (s suffix : string) : string :=
  if HasSuffix s suffix
  then substring 0 (String.length s - String.length suffix) s
  else s.

(** [strings.Contains(s, substr)] *)
Fixpoint Contains (s substr : string) : bool :=
  String.prefix substr s ||
  match s with
  | EmptyString => false
  | String _ rest => Contains rest substr
  end.

(** [strings.ReplaceAll(s, old, new)] for an [old] that is not empty: the
    occurrences of [old] that do not overlap, found from the left, are
    replaced by [new].  [skip] counts the bytes of the occurrence found that
    are still to be passed over. *)
Fixpoint replaceFrom (old new : string) (skip : nat) (s : string) : string :=
  match s with
  | EmptyString => EmptyString
  | String c rest =>
      match skip with
      | S skip' => replaceFrom old new skip' rest
      | O =>
          if String.prefix old s
          then String.append new (replaceFrom old new (String.length old - 1) rest)
          else String c (replaceFrom old new 0 rest)
      end
  end.

Definition ReplaceAll (s old new : string) : string := replaceFrom old new 0 s.

(** [strings.Split(s, sep)] for a [sep] that is not empty: the piece before
    the first occurrence of [sep], and the pieces after it. *)
Fixpoint splitFrom (sep : string) (skip : nat) (s : string) : string * list string :=
  match s with
  | EmptyString => (EmptyString, [])
  | String c rest =>
      match skip with
      | S skip' => splitFrom sep skip' rest
      | O =>
          if String.prefix sep s
          then let r := splitFrom sep (String.length sep - 1) rest in
               (EmptyString, fst r :: snd r)
          else let r := splitFrom sep 0 rest in
               (String c (fst r), snd r)
      end
  end.

Definition Split (s sep : string) : list string :=
  let r := splitFrom sep 0 s in fst r :: snd r.

(** [strings.Join(elems, sep)] *)
Definition Join (elems : list string) (sep : string) : string :=
  String.concat sep elems.

End strings.

(** ** The package [conn]

    The second part of the file, package [conn].  What a query answers is an
    argument of the functions below: [GetSlaveServerID] and [GetServerID]
    only read the database. *)

Module conn.

(** Go's [uint32]: arithmetic modulo 2^32. *)
Definition wrapU32 (z : Z) : Z := z mod 2 ^ 32.

(** [math.MaxUint32 / 10] *)
Definition defaultBaseServerID : Z := Eval cbv in (2 ^ 32 - 1) / 10.

(** A [map[uint32]struct{}], by its keys. *)
Definition idSet : Type := list Z.

(** [_, ok := serverIDs[id]] *)
Definition hasID (serverIDs : idSet) (id : Z) : bool := existsb (Z.eqb id) serverIDs.

(** [GetAllServerID]: [slaves] is what [GetSlaveServerID] returns, [master]
    what [GetServerID] returns. *)
Definition GetAllServerID (slaves : error + idSet) (master : error + Z) : error + idSet :=
  match slaves with
  | inl err => inl err
  | inr serverIDs =>
      match master with
      | inl err => inl err
      | inr masterServerID => inr (masterServerID :: serverIDs)
      end
  end.

Definition ErrInvalidServerID : error :=
  "can't find a random available server ID"%string.

(** The loop of [GetRandomServerID], with [n] rounds left: [draw i] is what
    the [i]-th call of [rand.Intn(100000)] returns. *)
Fixpoint tryServerIDs (serverIDs : idSet) (draw : nat -> Z) (i n : nat) : option Z :=
  match n with
  | O => None
  | S n' =>
      let randomValue := wrapU32 (draw i) in
      let randomServerID := wrapU32 (wrapU32 defaultBaseServerID + randomValue) in
      if hasID serverIDs randomServerID then tryServerIDs serverIDs draw (S i) n'
      else Some randomServerID
  end.

(** [GetRandomServerID]: the identifier and the error it returns. *)
Definition GetRandomServerID (slaves : error + idSet) (master : error + Z)
    (draw : nat -> Z) : Z * option error :=
  match GetAllServerID slaves master with
  | inl err => (0, Some err)
  | inr serverIDs =>
      match tryServerIDs serverIDs draw 0 (Z.to_nat 99999) with
      | Some randomServerID => (randomServerID, None)
      | None => (0, Some ErrInvalidServerID)
      end
  end.

(** [CreateTableSQLToOneRow] *)
Definition CreateTableSQLToOneRow (sql : string) : string :=
  let sql := strings.ReplaceAll sql (String "010"%char EmptyString) EmptyString in
  let sql := strings.ReplaceAll sql "  "%string " "%string in
  sql.

Section Version.

(** [semver.Version] and [semver.NewVersion], of the package [semver]. *)
Variable Version : Type.
Variable NewVersion : string -> error + Version.

(** [versions[2:end]], joined, without a leading "v", parsed. *)
Definition parseVersion (versions : list string) (end_ : nat) : error + Version :=
  let rawVersion := strings.Join (firstn (end_ - 2) (skipn 2 versions)) "-"%string in
  let rawVersion := strings.TrimPrefix rawVersion "v"%string in
  NewVersion rawVersion.

(** [ExtractTiDBVersion] *)
Definition ExtractTiDBVersion (version : string) : error + Version :=
  let versions := strings.Split (strings.TrimSuffix version "-dirty"%string) "-"%string in
  let end_ := List.length versions in
  match end_ with
  | 3%nat | 4%nat => parseVersion versions end_
  | 5%nat | 6%nat => parseVersion versions (end_ - 2)
  | _ => inl (String.append "not a valid TiDB version: "%string version)
  end.

End Version.

End conn.

(** A string of [n] spaces. *)
Fixpoint spaces (n : nat) : string :=
  match n with
  | O => EmptyString
  | S n' => String " "%char (spaces n')
  end.

(** The events the cursor yielded with their positions, the earliest
    first. *)
Definition yielded : History -> list (model.PolymorphicEvent * sorter.Position) :=
  proj (fun c => match c with
                 | IterNext (Some (sorter.ItEvent e pos)) => [(e, pos)]
                 | _ => []
                 end).

(** In [ys] an event that comes after the end of a transaction has a commit
    timestamp greater than that of the transaction. *)
Fixpoint orderedFrom (env : Env)
    (ys : list (model.PolymorphicEvent * sorter.Position)) : Prop :=
  match ys with
  | [] => True
  | (e, pos) :: rest =>
      (Valid env pos = true ->
       Forall (fun p => model.CRTs e < model.CRTs (fst p)) rest) /\
      orderedFrom env rest
  end.

(** The cursor yielded the transactions of [d] in the order of their commit
    timestamps. *)
Definition commitOrdered (env : Env) (d : History) : Prop :=
  orderedFrom env (yielded d).

(** Every publication of [d] comes when the latest event read ends a
    transaction. *)
Fixpoint publishedAtBoundaries (env : Env) (d : History) : Prop :=
  match d with
  | [] => True
  | SinkUpdateResolvedTs _ _ _ :: older =>
      (exists e pos, lastNext older = Some (e, pos) /\ Valid env pos = true) /\
      publishedAtBoundaries env older
  | _ :: older => publishedAtBoundaries env older
  end.

(** The calls other than the publication of a resolved timestamp. *)
Definition unpublished (c : Call) : Prop :=
  match c with
  | SinkUpdateResolvedTs _ _ _ => False
  | _ => True
  end.

(** [h] publishes a resolved timestamp that covers the commit timestamp of
    [e], an event the task reads, before [e] is flushed. *)
Definition publishedBeforeFlushed (h : History) (e : model.PolymorphicEvent) : Prop :=
  exists post sink rts res older,
    h = post ++ SinkUpdateResolvedTs sink rts res :: older /\
    In e (consumed h) /\
    model.CRTs e <= model.Ts_ rts /\
    ~ In e (emitted older).

(** An event of the transaction that started at 11 and committed at 12, and
    the item that ends that transaction. *)
Definition laterEvent (bytes : Z) : model.PolymorphicEvent :=
  {| model.StartTs := 11; model.CRTs := 12;
     model.Row := {| model.ApproximateBytes := bytes |} |}.

Definition laterBoundary (bytes : Z) : sorter.IterItem :=
  sorter.ItEvent (laterEvent bytes) {| sorter.CommitTs := 12; sorter.StartTs := 11 |}.

(** An event of the transaction that started at 8 and committed at 10, as
    the transaction of [exampleEvent] did, and the item that ends it. *)
Definition twinEvent (bytes : Z) : model.PolymorphicEvent :=
  {| model.StartTs := 8; model.CRTs := 10;
     model.Row := {| model.ApproximateBytes := bytes |} |}.

Definition twinBoundary (bytes : Z) : sorter.IterItem :=
  sorter.ItEvent (twinEvent bytes) {| sorter.CommitTs := 10; sorter.StartTs := 8 |}.

(** The history after the tasks [ts] were run one after the other, the
    first from [h]. *)
Definition historyAfter (env : Env) (w : workerImpl) (ts : list tableSinkTask)
    (h : History) : History :=
  fold_left (fun h t => snd (runTask env w t h)) ts h.

(** Run one after the other, the first from [h], the tasks [ts] all return
    [nil]. *)
Fixpoint allNil (env : Env) (w : workerImpl) (ts : list tableSinkTask)
    (h : History) : Prop :=
  match ts with
  | [] => True
  | t :: rest =>
      fst (runTask env w t h) = Ok tt /\ allNil env w rest (snd (runTask env w t h))
  end.

(** * Proofs *)

(** ** Machine integers *)

Lemma wrapInt_id z : isInt z -> wrapInt z = z.
Proof.
  unfold isInt, minInt, maxInt, wrapInt. intros Hz.
  rewrite Z.mod_small by lia. lia.
Qed.

Lemma wrapU64_id z : isUint64 z -> wrapU64 z = z.
Proof.
  unfold isUint64, maxUint64, wrapU64. intros Hz.
  apply Z.mod_small. lia.
Qed.

Lemma wrapInt_isInt z : isInt (wrapInt z).
Proof.
  unfold isInt, minInt, maxInt, wrapInt.
  pose proof (Z.mod_pos_bound (z + 2 ^ 63) (2 ^ 64) ltac:(lia)). lia.
Qed.

Lemma wrapU64_isUint64 z : isUint64 (wrapU64 z).
Proof.
  unfold isUint64, maxUint64, wrapU64.
  pose proof (Z.mod_pos_bound z (2 ^ 64) ltac:(lia)). lia.
Qed.

Lemma wrapInt_shift z q : wrapInt (z + q * 2 ^ 64) = wrapInt z.
Proof.
  unfold wrapInt.
  replace (z + q * 2 ^ 64 + 2 ^ 63) with (z + 2 ^ 63 + q * 2 ^ 64) by ring.
  now rewrite Z_mod_plus_full.
Qed.

Lemma wrapInt_cong z : exists q, wrapInt z = z + q * 2 ^ 64.
Proof.
  exists (- ((z + 2 ^ 63) / 2 ^ 64)). unfold wrapInt.
  rewrite Z.mod_eq by lia. ring.
Qed.

Lemma wrapInt_add_l a b : wrapInt (wrapInt a + b) = wrapInt (a + b).
Proof.
  destruct (wrapInt_cong a) as [q ->].
  replace (a + q * 2 ^ 64 + b) with (a + b + q * 2 ^ 64) by ring.
  apply wrapInt_shift.
Qed.

Lemma upperBoundOf_zero : upperBoundOf 0 = {| sorter.CommitTs := maxUint64; sorter.StartTs := 0 |}.
Proof. reflexivity. Qed.

Lemma upperBoundOf_exact B :
  1 <= B <= maxUint64 -> sorter.CommitTs (upperBoundOf B) = B - 1.
Proof.
  intros HB. unfold upperBoundOf. simpl.
  apply wrapU64_id. unfold isUint64. lia.
Qed.

(** ** Every run of the code is a run of the relations *)

Lemma bind_eq {A B} (m : M A) (k : A -> M B) h :
  bind m k h =
  match fst (m h) with
  | Ok a => k a (snd (m h))
  | Err e => (Err e, snd (m h))
  | Spin => (Spin, snd (m h))
  end.
Proof. unfold bind. destruct (m h) as [[a | e |] h']; reflexivity. Qed.

Lemma bind_call {A B} (ask : History -> A) entry (k : A -> M B) h :
  bind (call ask entry) k h = k (ask h) (entry (ask h) :: h).
Proof. reflexivity. Qed.

Lemma bind_tell {B} c (k : unit -> M B) h : bind (tell c) k h = k tt (c :: h).
Proof. reflexivity. Qed.

Lemma repeat_snoc {A} (x : A) n l : repeat x n ++ x :: l = x :: repeat x n ++ l.
Proof. induction n as [| n IH]; simpl; [reflexivity | now rewrite IH]. Qed.

(** Takes a run [H : exists d, snd (m h) = d ++ h /\ R (fst (m h)) d] apart. *)
Ltac take_run H :=
  let d := fresh "d" in
  let E := fresh "E" in
  let R := fresh "R" in
  destruct H as (d & E & R);
  match type of E with
  | snd (?m ?h) = _ =>
      let r := fresh "r" in
      let h' := fresh "h" in
      destruct (m h) as [r h']; simpl in E, R; subst h'
  end.

(** Two histories that are the same list up to the grouping of [++]. *)
Ltac same_history :=
  cbn [fst snd app]; repeat (rewrite <- app_assoc; cbn [app]); reflexivity.

Section Adequacy.

Variable env : Env.
Variable w : workerImpl.
Variable t : tableSinkTask.

Lemma verifyEvents_run evs : forall size rows h,
  exists vs,
    snd (verifyEvents env t evs size rows h) = vs ++ h /\
    Forall isVerify vs /\
    match fst (verifyEvents env t evs size rows h) with
    | Ok sr => fst sr = batchBytes evs size
    | Err err => exists e vs', vs = VerifyAndTrySplitEvent (tableSink t) e (inl err) :: vs'
    | Spin => False
    end.
Proof.
  induction evs as [| e evs IH]; intros size rows h; simpl.
  - exists []. auto.
  - destruct (verifyAndTrySplitEvent env h (tableSink t) e) as [err | rs].
    + eexists [_]. simpl. repeat split; [repeat constructor | eauto].
    + destruct (IH (wrapInt (size + bytesOf e)) (rows ++ rs)
                  (VerifyAndTrySplitEvent (tableSink t) e (inr rs) :: h))
        as (vs & E & F & R).
      exists (vs ++ [VerifyAndTrySplitEvent (tableSink t) e (inr rs)]).
      rewrite E, <- app_assoc. repeat split.
      * apply Forall_app. split; [assumption | repeat constructor].
      * destruct (fst (verifyEvents env t evs _ _ _)); auto.
        destruct R as (e' & vs' & ->). simpl. eauto.
Qed.

Lemma emitEventsToTableSink_run evs h :
  exists d,
    snd (emitEventsToTableSink env t evs h) = d ++ h /\
    flushRun t evs (fst (emitEventsToTableSink env t evs h)) d.
Proof.
  unfold emitEventsToTableSink. rewrite bind_eq.
  destruct (verifyEvents_run evs 0 [] h) as (vs & E & F & R).
  destruct (verifyEvents env t evs 0 [] h) as [[[size rows] | err |] h'];
    simpl in E, R; subst h'; simpl.
  - exists (EmitRowChangedEvent (tableSink t) evs rows :: vs).
    split; [reflexivity | ]. subst size. now constructor.
  - destruct R as (e & vs' & ->). eexists. split; [reflexivity | ].
    constructor. now inversion F.
  - contradiction.
Qed.

Lemma updateTableSinkResolvedTs_run commitTs size h :
  exists d,
    snd (updateTableSinkResolvedTs env w t commitTs size h) = d ++ h /\
    publishRun w t commitTs size
               (fst (updateTableSinkResolvedTs env w t commitTs size h)) d.
Proof.
  unfold updateTableSinkResolvedTs, bind, call, tell, tryCall, ret.
  destruct (splitTxn w) eqn:S; simpl.
  - set (rts := {| model.Mode := model.BatchResolvedMode;
                   model.Ts_ := commitTs;
                   model.BatchID := allocateBatchID env h (tableID t) |}).
    set (h1 := Record_ (tableID t) rts size :: _).
    exists (SinkUpdateResolvedTs (tableSink t) rts
              (sinkUpdateResolvedTs env h1 (tableSink t) rts)
              :: Record_ (tableID t) rts size :: allocEntries w t rts).
    unfold allocEntries. rewrite S.
    pose proof (publish_run w t commitTs size rts
                  (sinkUpdateResolvedTs env h1 (tableSink t) rts)
                  eq_refl) as P.
    unfold modeOf, allocEntries in P. rewrite S in P. specialize (P eq_refl).
    destruct (sinkUpdateResolvedTs env h1 (tableSink t) rts); simpl; auto.
  - set (rts := model.NewResolvedTs (normalBatchID env) commitTs).
    set (h1 := Record_ (tableID t) rts size :: _).
    exists (SinkUpdateResolvedTs (tableSink t) rts
              (sinkUpdateResolvedTs env h1 (tableSink t) rts)
              :: Record_ (tableID t) rts size :: allocEntries w t rts).
    unfold allocEntries. rewrite S.
    pose proof (publish_run w t commitTs size rts
                  (sinkUpdateResolvedTs env h1 (tableSink t) rts)
                  eq_refl) as P.
    unfold modeOf, allocEntries in P. rewrite S in P. specialize (P eq_refl).
    destruct (sinkUpdateResolvedTs env h1 (tableSink t) rts); simpl; auto.
Qed.

Lemma updateIfLarge_run e lts h :
  exists d,
    snd (updateIfLarge env w t e lts h) = d ++ h /\
    largeRun w t (model.CRTs e) lts (fst (updateIfLarge env w t e lts h)) d.
Proof.
  unfold updateIfLarge.
  destruct (maxUpdateIntervalSize <=? lts) eqn:L.
  - apply Z.leb_le in L. rewrite bind_eq.
    pose proof (updateTableSinkResolvedTs_run (model.CRTs e) lts h) as H.
    take_run H. destruct R as [rts res Ets Emode].
    destruct res as [err |]; simpl.
    + eexists (_ :: _ :: _). split; [reflexivity | ].
      apply large_failed; [assumption | ].
      now apply (publish_run w t _ lts rts (Some err)).
    + eexists (_ :: _ :: _). split; [reflexivity | ].
      apply large_published; [assumption | ].
      now apply (publish_run w t _ lts rts None).
  - apply Z.leb_gt in L. exists []. split; [reflexivity | ]. now constructor.
Qed.

Lemma acquireLoop_run b : forall fuel a h,
  exists k,
    snd (acquireLoop env fuel a b h) = repeat (ForceAcquire (defaultMemoryUsage env)) k ++ h /\
    (forall j, (j < k)%nat -> wrapInt (a + Z.of_nat j * defaultMemoryUsage env - b) < 0) /\
    match fst (acquireLoop env fuel a b h) with
    | Ok a' => wrapInt (a' - b) = wrapInt (a + Z.of_nat k * defaultMemoryUsage env - b) /\
               0 <= wrapInt (a' - b)
    | Err _ => False
    | Spin => k = fuel /\ wrapInt (a + Z.of_nat k * defaultMemoryUsage env - b) < 0
    end.
Proof.
  induction fuel as [| fuel IH]; intros a h; simpl;
    destruct (wrapInt (a - b) <? 0) eqn:C;
    try (apply Z.ltb_ge in C); try (apply Z.ltb_lt in C).
  - exists 0%nat. simpl. repeat split; try lia.
    now replace (a + 0 - b) with (a - b) by ring.
  - exists 0%nat. simpl. repeat split; try lia.
    now replace (a + 0 - b) with (a - b) by ring.
  - unfold bind, tell.
    destruct (IH (wrapInt (a + defaultMemoryUsage env))
                (ForceAcquire (defaultMemoryUsage env) :: h)) as (k & E & N & R).
    assert (S : forall j, wrapInt (wrapInt (a + defaultMemoryUsage env)
                                   + Z.of_nat j * defaultMemoryUsage env - b)
                          = wrapInt (a + Z.of_nat (S j) * defaultMemoryUsage env - b)).
    { intros j.
      replace (wrapInt (a + defaultMemoryUsage env)
               + Z.of_nat j * defaultMemoryUsage env - b)
        with (wrapInt (a + defaultMemoryUsage env)
              + (Z.of_nat j * defaultMemoryUsage env - b)) by ring.
      rewrite wrapInt_add_l. f_equal. lia. }
    exists (Datatypes.S k). rewrite E. split; [apply repeat_snoc | ]. split.
    + intros [| j] Hj.
      * now replace (a + Z.of_nat 0 * defaultMemoryUsage env - b) with (a - b) by (simpl; ring).
      * rewrite <- S. apply N. lia.
    + destruct (fst (acquireLoop env fuel _ b _)); rewrite <- ?S; auto.
      destruct R as [-> R]. auto.
  - exists 0%nat. simpl. repeat split; try lia.
    now replace (a + 0 - b) with (a - b) by ring.
Qed.

(** While the allowance does not cover the event nothing wraps around. *)
Lemma acquire_exact a b k :
  0 < defaultMemoryUsage env <= maxInt ->
  (forall j, (j < k)%nat -> wrapInt (a + Z.of_nat j * defaultMemoryUsage env - b) < 0) ->
  forall j, (j <= k)%nat ->
    wrapInt (a + Z.of_nat j * defaultMemoryUsage env - b)
    = wrapInt (a - b) + Z.of_nat j * defaultMemoryUsage env.
Proof.
  intros HD N. induction j as [| j IH]; intros Hj.
  - simpl. replace (a + 0 - b) with (a - b) by ring. ring.
  - specialize (IH ltac:(lia)). specialize (N j ltac:(lia)).
    pose proof (wrapInt_isInt (a + Z.of_nat j * defaultMemoryUsage env - b)) as I.
    replace (a + Z.of_nat (S j) * defaultMemoryUsage env - b)
      with (a + Z.of_nat j * defaultMemoryUsage env - b + defaultMemoryUsage env) by lia.
    rewrite <- wrapInt_add_l, wrapInt_id.
    + rewrite IH. lia.
    + unfold isInt, minInt, maxInt in *. lia.
Qed.

Lemma acquireLoop_ends a b h :
  0 < defaultMemoryUsage env <= maxInt ->
  fst (acquireLoop env (acquireFuel env a b) a b h) <> Spin.
Proof.
  intros HD Hs.
  destruct (acquireLoop_run b (acquireFuel env a b) a h) as (k & _ & N & R).
  rewrite Hs in R. destruct R as [-> R].
  rewrite (acquire_exact a b _ HD N) in R by lia.
  unfold acquireFuel in *.
  set (d := wrapInt (a - b)) in *.
  destruct (Z_lt_le_dec (- d / defaultMemoryUsage env + 1) 1) as [L | L].
  - replace (Z.to_nat (- d / defaultMemoryUsage env + 1)) with 0%nat in R by lia.
    simpl in R.
    destruct (Z_lt_le_dec (- d) 0) as [L' | L']; [lia | ].
    pose proof (Z.div_pos (- d) (defaultMemoryUsage env) L' ltac:(lia)). lia.
  - rewrite Z2Nat.id in R by lia.
    pose proof (Z.mul_succ_div_gt (- d) (defaultMemoryUsage env) ltac:(lia)). lia.
Qed.

Lemma consume_run e l h :
  exists d,
    snd (consume env e l h) = d ++ h /\
    consumeRun env e l (fst (consume env e l h)) d.
Proof.
  unfold consume. rewrite bind_eq.
  pose proof (acquireLoop_ends (availableMem l) (bytesOf e) h) as T.
  destruct (acquireLoop_run (bytesOf e) (acquireFuel env (availableMem l) (bytesOf e))
              (availableMem l) h) as (k & E & N & R).
  destruct (acquireLoop env _ (availableMem l) (bytesOf e) h) as [[a' | err |] h'];
    simpl in E, R, T; subst h'; simpl.
  - exists (repeat (ForceAcquire (defaultMemoryUsage env)) k).
    split; [reflexivity | ]. destruct R as [R1 R2].
    rewrite R1 in *. now constructor.
  - contradiction.
  - exists (repeat (ForceAcquire (defaultMemoryUsage env)) k).
    split; [reflexivity | ]. constructor. intros HD. now apply T.
Qed.

Lemma reset_run h :
  (if splitTxn w then tell (ResetBatchID (tableID t)) else ret tt) h
  = (Ok tt, resetEntries w t ++ h).
Proof. unfold resetEntries. destruct (splitTxn w); reflexivity. Qed.

Lemma atBoundary_run e pos l h :
  exists d,
    snd (atBoundary env w t e pos l h) = d ++ h /\
    boundaryRun w t e pos l (fst (atBoundary env w t e pos l h)) d.
Proof.
  unfold atBoundary. rewrite bind_eq, reset_run. simpl fst. simpl snd. cbv iota.
  rewrite bind_eq.
  pose proof (emitEventsToTableSink_run (events l) (resetEntries w t ++ h)) as HF.
  take_run HF. pose proof R as RF. destruct R as [e0 err vs F | rows vs F];
    simpl fst; simpl snd; cbv iota.
  { eexists. split. 2: { apply boundary_flush_failed. eassumption. } same_history. }
  rewrite bind_eq.
  match goal with
  | |- context [updateIfLarge env w t e ?lts ?h1] =>
      pose proof (updateIfLarge_run e lts h1) as HL
  end.
  take_run HL. pose proof R as RL. destruct R as [B | dP B P | err dP B P];
    simpl fst; simpl snd; cbv iota.
  3: { eexists. split. 2: { eapply boundary_large_failed; eassumption. } same_history. }
  all: rewrite bind_call;
    match goal with |- context [isExceed env ?h1] => destruct (isExceed env h1) end.
  2, 4: eexists; (split; [ | eapply boundary_continue; eassumption ]); same_history.
  all: rewrite bind_eq;
    match goal with
    | |- context [updateTableSinkResolvedTs env w t ?ts ?sz ?h1] =>
        pose proof (updateTableSinkResolvedTs_run ts sz h1) as HP
    end;
    take_run HP; pose proof R as RP; destruct R as [rts [err |] Ets Emode];
    simpl fst; simpl snd; cbv iota.
  1, 3: eexists; (split; [ | eapply boundary_stop_failed; eassumption ]); same_history.
  all: eexists; (split; [ | eapply boundary_stop; eassumption ]); same_history.
Qed.

Lemma atBatchSize_run e l h :
  exists d,
    snd (atBatchSize env w t e l h) = d ++ h /\
    batchRun w t e l (fst (atBatchSize env w t e l h)) d.
Proof.
  unfold atBatchSize.
  destruct (splitTxn w && (batchSize w <=? wrapU64 (batchCount l))) eqn:C.
  2: { exists []. split; [reflexivity | ]. now constructor. }
  rewrite bind_eq.
  pose proof (emitEventsToTableSink_run (events l) h) as HF.
  take_run HF. pose proof R as RF. destruct R as [e0 err vs F | rows vs F];
    simpl fst; simpl snd; cbv iota.
  { eexists. split. 2: { eapply batch_flush_failed; eassumption. } same_history. }
  rewrite bind_eq.
  match goal with
  | |- context [updateIfLarge env w t e ?lts ?h1] =>
      pose proof (updateIfLarge_run e lts h1) as HL
  end.
  take_run HL. pose proof R as RL. destruct R as [B | dP B P | err dP B P];
    simpl fst; simpl snd; cbv iota.
  3: { eexists. split. 2: { eapply batch_large_failed; eassumption. } same_history. }
  all: eexists; (split; [ | eapply batch_done; eassumption ]); same_history.
Qed.

Lemma loopBody_run e pos l h :
  exists d b,
    loopBody env w t e pos l h = (bodyResult b, d ++ h) /\
    bodyRun env w t e pos l b d.
Proof.
  unfold loopBody. rewrite bind_eq.
  pose proof (consume_run e l h) as HC.
  take_run HC.
  destruct r as [l1 | err |]; cbn [fst snd].
  3: { exists d, Spins. split; [reflexivity | now constructor]. }
  2: { inversion R. }
  rewrite bind_eq.
  destruct (Valid env pos) eqn:V.
  - pose proof (atBoundary_run e pos l1 (d ++ h)) as HB.
    take_run HB.
    destruct r as [[[|] l2] | err |]; cbn [fst snd].
    + pose proof (atBatchSize_run e l2 (d0 ++ d ++ h)) as HS.
      rewrite bind_eq. take_run HS.
      destruct r as [l3 | err |]; cbn [fst snd].
      * eexists _, (Goes l3). split. 2: { eapply body_boundary; eassumption. }
        cbn [bodyResult ret]. f_equal. same_history.
      * eexists _, (Aborts err).
        split. 2: { eapply body_boundary_batch_failed; eassumption. }
        cbn [bodyResult]. f_equal. same_history.
      * inversion R1.
    + eexists _, (Stops l2). split. 2: { eapply body_boundary_stop; eassumption. }
      cbn [bodyResult ret]. f_equal. same_history.
    + eexists _, (Aborts err). split. 2: { eapply body_boundary_failed; eassumption. }
      cbn [bodyResult]. f_equal. same_history.
    + inversion R0.
  - cbn [ret fst snd].
    pose proof (atBatchSize_run e l1 (d ++ h)) as HS.
    rewrite bind_eq. take_run HS.
    destruct r as [l3 | err |]; cbn [fst snd].
    + eexists _, (Goes l3). split. 2: { eapply body_inside; eassumption. }
      cbn [bodyResult ret]. f_equal. same_history.
    + eexists _, (Aborts err). split. 2: { eapply body_inside_failed; eassumption. }
      cbn [bodyResult]. f_equal. same_history.
    + inversion R0.
Qed.

Lemma fetchLoop_run items : forall l h,
  exists d r,
    fetchLoop env w t items l h = (loopResult r, d ++ h) /\
    loopRun env w t items l r d.
Proof.
  induction items as [| [e pos | err] rest IH]; intros l h; cbn [fetchLoop].
  - exists [IterNext None], (Exhausted l). split; [reflexivity | constructor].
  - rewrite bind_tell, bind_eq.
    destruct (loopBody_run e pos l (IterNext (Some (sorter.ItEvent e pos)) :: h))
      as (d & b & E & R).
    rewrite E. destruct b as [l1 | l1 | err |]; cbn [bodyResult fst snd].
    + destruct (IH l1 (d ++ IterNext (Some (sorter.ItEvent e pos)) :: h))
        as (d' & r & E' & R').
      rewrite E'. exists (d' ++ d ++ [IterNext (Some (sorter.ItEvent e pos))]), r.
      split; [f_equal; same_history | ]. eapply loop_next; eassumption.
    + eexists _, (Stopped l1). split. 2: { eapply loop_stopped; eassumption. }
      cbn [loopResult ret]. f_equal. same_history.
    + eexists _, (Aborted err). split. 2: { eapply loop_aborted; eassumption. }
      cbn [loopResult]. f_equal. same_history.
    + eexists _, Spinning. split. 2: { eapply loop_spinning; eassumption. }
      cbn [loopResult]. f_equal. same_history.
  - exists [IterNext (Some (sorter.ItErr err))], (Aborted err).
    split; [reflexivity | constructor].
Qed.

(** Every run of [runTask] is a run of [taskRun], for the barrier and the
    items the collaborators answered. *)
Lemma runTask_taskRun h :
  let B := barrierLoad env h (lastBarrierTs t) in
  let items := fetchByTable env (BarrierLoad (lastBarrierTs t) B :: h)
                 (tableID t) (lowerBound t) (upperBoundOf B) in
  exists d,
    snd (runTask env w t h) = d ++ h /\
    taskRun env w t B items (fst (runTask env w t h)) d.
Proof.
  intros B items. unfold runTask. rewrite bind_call. fold B.
  rewrite bind_eq. cbn [fst snd]. fold items. rewrite bind_eq.
  destruct (fetchLoop_run items (initLocals env) (openEntries t B ++ h))
    as (d & r & E & R).
  cbn [openEntries app] in E. rewrite E. cbn [fst snd].
  destruct r as [l | l | err |]; cbn [loopResult].
  - rewrite !bind_tell. unfold tryCall.
    match goal with |- context [iterClose env ?h1] => destruct (iterClose env h1) as [c |] end.
    + eexists. split. 2: { apply (task_exhausted env w t B items l d (Some c) R). }
      same_history.
    + eexists. split. 2: { apply (task_exhausted env w t B items l d None R). }
      same_history.
  - rewrite !bind_tell. unfold tryCall.
    match goal with |- context [iterClose env ?h1] => destruct (iterClose env h1) as [c |] end.
    + eexists. split. 2: { apply (task_stopped env w t B items l d (Some c) R). }
      same_history.
    + eexists. split. 2: { apply (task_stopped env w t B items l d None R). }
      same_history.
  - eexists. split. 2: { apply (task_aborted env w t B items err d R). }
    same_history.
  - eexists. split. 2: { apply (task_spinning env w t B items d R). }
    same_history.
Qed.

End Adequacy.

(** ** Force-acquiring for one event (C8) *)



(** ** Splitting a transaction (C3) *)

(** The check [uint64(batchCount) >= w.batchSize] never holds for a batch
    size of one or more: [batchCount] stays 0. *)
Lemma atBatchSize_skips env w t e l h :
  batchCount l = 0 -> 1 <= batchSize w ->
  atBatchSize env w t e l h = (Ok l, h).
Proof.
  intros Hc HK. unfold atBatchSize. rewrite Hc.
  replace (batchSize w <=? wrapU64 0) with false.
  - now rewrite andb_false_r.
  - symmetry. apply Z.leb_gt. change (wrapU64 0) with 0. lia.
Qed.

(** C3 fails on the code: with splitting enabled and a batch size of 2, a
    transaction of five events is flushed once, at its boundary, as one
    batch of five; the claim asks for [ceil (5 / 2) = 3] flushes. *)
Theorem split_flushes_once :
  let items := [inside 10; inside 10; inside 10; inside 10; boundary 10] in
  flushes (snd (runTask (exampleEnv 100 20 items never) (exampleWorker true 2)
                        exampleTask []))
  = [[exampleEvent 10; exampleEvent 10; exampleEvent 10; exampleEvent 10;
      exampleEvent 10]] /\
  ceilDiv 5 2 = 3.
Proof. vm_compute. split; reflexivity. Qed.

(** ** Closing the worker (C9) *)

(** C9, as amended: the first [close()] closes [closedChan] and changes
    nothing else; from then on [run] returns [nil] without a call at a
    top-level wait where no task is ready, and also where a task is ready
    and the [select] takes the closed channel; where a task is ready and the
    [select] takes the task, [run] runs it first; a second [close()]
    panics. *)
Theorem close_once env w :
  closedChan w = ChanOpen ->
  exists w',
    close w = Some w' /\
    closedChan w' = ChanClosed /\
    splitTxn w' = splitTxn w /\ batchSize w' = batchSize w /\
    (forall h, run env w' [] h = (Ok ReturnNil, h)) /\
    (forall t rest h,
       selectClosed env h = true -> run env w' (t :: rest) h = (Ok ReturnNil, h)) /\
    (forall t rest h,
       selectClosed env h = false ->
       run env w' (t :: rest) h = (runTask env w' t ;;; run env w' rest) h) /\
    close w' = None.
Proof.
  intros Ho. unfold close. rewrite Ho. eexists. split; [reflexivity | ].
  cbn. repeat split; try reflexivity.
  - intros t rest h Hs. now rewrite Hs.
  - intros t rest h Hs. now rewrite Hs.
Qed.

Lemma close_once_witness :
  exists w',
    close (exampleWorker false 2) = Some w' /\
    closedChan w' = ChanClosed /\
    splitTxn w' = false /\ batchSize w' = 2 /\
    (forall h, run (exampleEnv 100 20 [] never) w' [] h = (Ok ReturnNil, h)) /\
    (forall t rest h,
       selectClosed (exampleEnv 100 20 [] never) h = true ->
       run (exampleEnv 100 20 [] never) w' (t :: rest) h = (Ok ReturnNil, h)) /\
    (forall t rest h,
       selectClosed (exampleEnv 100 20 [] never) h = false ->
       run (exampleEnv 100 20 [] never) w' (t :: rest) h
       = (runTask (exampleEnv 100 20 [] never) w' t ;;;
          run (exampleEnv 100 20 [] never) w' rest) h) /\
    close w' = None.
Proof.
  apply (close_once (exampleEnv 100 20 [] never) (exampleWorker false 2)).
  reflexivity.
Defined.

(** C9 as stated fails: calling [close()] twice is not calling it once, the
    second call panics. *)
Lemma close_twice_panics :
  closeTimes 1 (exampleWorker false 2)
  = Some {| splitTxn := false; batchSize := 2; closedChan := ChanClosed |} /\
  closeTimes 2 (exampleWorker false 2) = None.
Proof. split; reflexivity. Qed.


(** ** The calls of the runs *)

Ltac inv H := inversion H; subst; try clear H.

Ltac forall_calls :=
  repeat first
    [ apply Forall_nil
    | assumption
    | apply Forall_cons; [exact I | ]
    | apply Forall_app; split
    | solve [eapply Forall_impl; [ | eassumption ]; intros []; simpl; tauto]
    | solve [eapply Forall_impl; [ | eassumption ];
             let c := fresh in intros c; destruct c as [| | | | | | | [|] | | | | | |];
             simpl; tauto] ].

Lemma Forall_repeat {A} (P : A -> Prop) x n : P x -> Forall P (repeat x n).
Proof. intros Hx. induction n; simpl; auto. Qed.

Lemma abortedBy_app err d d' : abortedBy err d -> abortedBy err (d ++ d').
Proof. destruct d as [| c d]; [contradiction | intros H; exact H]. Qed.

Section Calls.

Variable env : Env.
Variable w : workerImpl.
Variable t : tableSinkTask.

Lemma flushRun_sinkCall evs r d : flushRun t evs r d -> Forall sinkCall d.
Proof. intros R. inv R; forall_calls. Qed.

Lemma publishRun_sinkCall ts size r d : publishRun w t ts size r d -> Forall sinkCall d.
Proof. intros R. inv R. unfold allocEntries. destruct (splitTxn w); forall_calls. Qed.

Lemma largeRun_sinkCall ts lts r d : largeRun w t ts lts r d -> Forall sinkCall d.
Proof. intros R. inv R; eauto using publishRun_sinkCall. Qed.

Lemma consumeRun_quiet e l r d : consumeRun env e l r d -> Forall quiet d.
Proof. intros R. inv R; apply Forall_repeat; exact I. Qed.

Lemma resetEntries_sinkCall : Forall sinkCall (resetEntries w t).
Proof. unfold resetEntries. destruct (splitTxn w); forall_calls. Qed.

Lemma batchRun_sinkCall e l r d : batchRun w t e l r d -> Forall sinkCall d.
Proof.
  intros R. inv R;
    repeat match goal with
           | H : flushRun _ _ _ _ |- _ => apply flushRun_sinkCall in H
           | H : largeRun _ _ _ _ _ _ |- _ => apply largeRun_sinkCall in H
           end; forall_calls.
Qed.

(** The calls of [atBoundary] are calls of the sink and [IsExceed]. *)
Lemma boundaryRun_calls (P : Call -> Prop) e pos l r d :
  (forall c, sinkCall c -> P c) -> (forall b, P (IsExceed b)) ->
  boundaryRun w t e pos l r d -> Forall P d.
Proof.
  intros HP HE R.
  assert (S : forall d', Forall sinkCall d' -> Forall P d').
  { intros d' F. eapply Forall_impl; [exact HP | exact F]. }
  pose proof (S _ resetEntries_sinkCall).
  inv R;
    repeat match goal with
           | H : flushRun _ _ _ _ |- _ => apply flushRun_sinkCall, S in H
           | H : largeRun _ _ _ _ _ _ |- _ => apply largeRun_sinkCall, S in H
           | H : publishRun _ _ _ _ _ _ |- _ => apply publishRun_sinkCall, S in H
           end;
    repeat first [ assumption | apply Forall_app; split | apply Forall_cons; [apply HE | ] ].
Qed.

Lemma boundaryRun_inBody e pos l r d : boundaryRun w t e pos l r d -> Forall inBody d.
Proof.
  apply boundaryRun_calls; [intros []; simpl; tauto | intros []; exact I].
Qed.

Lemma boundaryRun_quiet e pos l l' d :
  boundaryRun w t e pos l (Ok (Continue, l')) d -> Forall quiet d.
Proof.
  pose proof resetEntries_sinkCall.
  intros R. inv R;
    repeat match goal with
           | H : flushRun _ _ _ _ |- _ => apply flushRun_sinkCall in H
           | H : largeRun _ _ _ _ _ _ |- _ => apply largeRun_sinkCall in H
           end; forall_calls.
Qed.

Lemma bodyRun_inBody e pos l b d : bodyRun env w t e pos l b d -> Forall inBody d.
Proof.
  intros R. inv R;
    repeat match goal with
           | H : consumeRun _ _ _ _ _ |- _ => apply consumeRun_quiet in H
           | H : batchRun _ _ _ _ _ _ |- _ => apply batchRun_sinkCall in H
           | H : boundaryRun _ _ _ _ _ _ _ |- _ => apply boundaryRun_inBody in H
           end; forall_calls.
Qed.

Lemma bodyRun_quiet e pos l l' d : bodyRun env w t e pos l (Goes l') d -> Forall quiet d.
Proof.
  intros R. inv R;
    repeat match goal with
           | H : consumeRun _ _ _ _ _ |- _ => apply consumeRun_quiet in H
           | H : batchRun _ _ _ _ _ _ |- _ => apply batchRun_sinkCall in H
           | H : boundaryRun _ _ _ _ _ _ _ |- _ => apply boundaryRun_quiet in H
           end; forall_calls.
Qed.

Lemma loopRun_inLoop items l r d : loopRun env w t items l r d -> Forall inLoop d.
Proof.
  induction 1;
    repeat match goal with
           | H : bodyRun _ _ _ _ _ _ _ _ |- _ => apply bodyRun_inBody in H
           end; forall_calls.
Qed.

(** *** Aborts *)

Lemma flushRun_aborted evs err d : flushRun t evs (Err err) d -> abortedBy err d.
Proof. intros R. inv R. reflexivity. Qed.

Lemma publishRun_aborted ts size err d :
  publishRun w t ts size (Err err) d -> abortedBy err d.
Proof.
  intros R. inversion R as [rts res Ets Emode Er Ed].
  destruct res; simpl in Er; [ | discriminate ]. now inv Er.
Qed.

Lemma largeRun_aborted ts lts err d : largeRun w t ts lts (Err err) d -> abortedBy err d.
Proof. intros R. inv R. eauto using publishRun_aborted. Qed.

Lemma batchRun_aborted e l err d : batchRun w t e l (Err err) d -> abortedBy err d.
Proof.
  intros R. inv R;
    eauto using flushRun_aborted, largeRun_aborted, abortedBy_app.
Qed.

Lemma boundaryRun_aborted e pos l err d :
  boundaryRun w t e pos l (Err err) d -> abortedBy err d.
Proof.
  intros R. inv R;
    eauto using flushRun_aborted, largeRun_aborted, publishRun_aborted, abortedBy_app.
Qed.

Lemma bodyRun_aborted e pos l err d :
  bodyRun env w t e pos l (Aborts err) d -> abortedBy err d.
Proof.
  intros R. inv R;
    eauto using batchRun_aborted, boundaryRun_aborted, abortedBy_app.
Qed.

Lemma loopRun_aborted items l r d :
  loopRun env w t items l r d -> forall err, r = Aborted err -> abortedBy err d.
Proof.
  induction 1; intros err' Er; try discriminate; inv Er.
  - reflexivity.
  - eauto using bodyRun_aborted, abortedBy_app.
  - apply abortedBy_app. now apply IHloopRun.
Qed.

(** *** Ending *)

Lemma bodyRun_ends e pos l d :
  0 < defaultMemoryUsage env <= maxInt -> ~ bodyRun env w t e pos l Spins d.
Proof. intros HD R. inv R. inv H. contradiction. Qed.

Lemma loopRun_ends items l r d :
  0 < defaultMemoryUsage env <= maxInt ->
  loopRun env w t items l r d -> r <> Spinning.
Proof.
  intros HD R. induction R; try discriminate; auto.
  intros _. eapply bodyRun_ends; eassumption.
Qed.

End Calls.


(** ** The barrier and the cursor (C7, C10) *)

Section Opening.

Variable env : Env.
Variable w : workerImpl.
Variable t : tableSinkTask.

Lemma taskRun_opens B items r d :
  taskRun env w t B items r d ->
  exists d', d = d' ++ openEntries t B /\ Forall afterFetch d'.
Proof.
  assert (L : forall dl, Forall inLoop dl -> Forall afterFetch dl).
  { intros dl F. eapply Forall_impl; [ | exact F ]. intros []; simpl; tauto. }
  intros R.
  inversion R as [l dl c Lp | l dl c Lp | err dl Lp | dl Lp]; subst;
    apply loopRun_inLoop, L in Lp.
  - exists (endEntries t l c ++ dl). split; [apply app_assoc | ].
    apply Forall_app. split; [repeat constructor | exact Lp].
  - exists (endEntries t l c ++ dl). split; [apply app_assoc | ].
    apply Forall_app. split; [repeat constructor | exact Lp].
  - exists dl. auto.
  - exists dl. auto.
Qed.

(** A task reads the barrier, opens the cursor with the bounds computed
    from what it read, and neither reads the barrier nor opens a cursor
    again. *)
Lemma runTask_opens h :
  exists d,
    snd (runTask env w t h)
    = d ++ openEntries t (barrierLoad env h (lastBarrierTs t)) ++ h /\
    Forall afterFetch d.
Proof.
  destruct (runTask_taskRun env w t h) as (d & E & R).
  destruct (taskRun_opens _ _ _ _ R) as (d' & -> & F).
  exists d'. split; [ | exact F ]. rewrite E. symmetry. apply app_assoc.
Qed.

End Opening.

Lemma below_upperBound B p :
  1 <= B <= maxUint64 -> sorter.lt p (upperBoundOf B) -> sorter.CommitTs p < B.
Proof.
  intros HB L. pose proof (upperBoundOf_exact B HB) as E.
  unfold sorter.lt in L. rewrite E in L. lia.
Qed.

(** C7, as amended: a task reads its barrier [B] once, at its start, and
    opens the cursor once, with the upper bound
    [(CommitTs = (B-1) mod 2^64, StartTs = B)]; no later call of the task is
    a barrier read or a cursor opening, so later barrier movement does not
    change the range; and when [1 <= B] every position below the upper bound
    has a commit timestamp strictly before the barrier. *)
Theorem barrier_read_once env w t h :
  let B := barrierLoad env h (lastBarrierTs t) in
  exists d,
    snd (runTask env w t h)
    = d ++ [FetchByTable (tableID t) (lowerBound t)
              {| sorter.CommitTs := wrapU64 (B - 1); sorter.StartTs := B |};
            BarrierLoad (lastBarrierTs t) B] ++ h /\
    Forall afterFetch d /\
    (1 <= B <= maxUint64 ->
     forall p, sorter.lt p (upperBoundOf B) -> sorter.CommitTs p < B).
Proof.
  intros B. destruct (runTask_opens env w t h) as (d & E & F).
  exists d. split; [exact E | ]. split; [exact F | ].
  intros HB p. now apply below_upperBound.
Qed.

Lemma barrier_read_once_witness :
  exists d,
    snd (runTask (exampleEnv 100 20 [boundary 30] never) (exampleWorker false 2)
                 exampleTask [])
    = d ++ [FetchByTable 1 (lowerBound exampleTask)
              {| sorter.CommitTs := 19; sorter.StartTs := 20 |};
            BarrierLoad 0%nat 20] /\
    sorter.CommitTs {| sorter.CommitTs := 12; sorter.StartTs := 11 |} < 20.
Proof.
  destruct (barrier_read_once (exampleEnv 100 20 [boundary 30] never)
              (exampleWorker false 2) exampleTask []) as (d & E & _ & L).
  exists d. split; [exact E | ].
  apply L; [change (1 <= 20 <= 2 ^ 64 - 1); lia | ].
  left. change (12 < 19). lia.
Defined.

(** C7 as stated fails: when the barrier reads 0 the upper bound of the
    cursor has the commit timestamp 2^64-1, and positions at or after the
    barrier are inside the range of the cursor. *)
Lemma barrier_zero_fetches_beyond :
  exists upper p,
    In (FetchByTable 1 (lowerBound exampleTask) upper)
       (snd (runTask (exampleEnv 100 0 [] never) (exampleWorker false 2)
                     exampleTask [])) /\
    sorter.CommitTs upper = 18446744073709551615 /\
    sorter.lt (lowerBound exampleTask) p /\ sorter.lt p upper /\
    ~ sorter.CommitTs p < 0.
Proof.
  exists {| sorter.CommitTs := 18446744073709551615; sorter.StartTs := 0 |},
         {| sorter.CommitTs := 7; sorter.StartTs := 3 |}.
  split; [vm_compute; tauto | ]. split; [reflexivity | ].
  unfold sorter.lt; simpl. lia.
Qed.

(** C10: when the barrier reads 0 the commit timestamp of the upper bound
    wraps to the largest [uint64], so that every position with a smaller
    commit timestamp is below the bound and the range of the cursor is not
    empty; when the barrier reads [B >= 1] the bound is [B - 1] exactly. *)
Theorem barrier_zero_wraps env w t h :
  let B := barrierLoad env h (lastBarrierTs t) in
  exists d upper,
    snd (runTask env w t h)
    = d ++ [FetchByTable (tableID t) (lowerBound t) upper;
            BarrierLoad (lastBarrierTs t) B] ++ h /\
    sorter.CommitTs upper = wrapU64 (B - 1) /\
    (B = 0 ->
     sorter.CommitTs upper = maxUint64 /\
     forall p, sorter.CommitTs p < maxUint64 -> sorter.lt p upper) /\
    (1 <= B <= maxUint64 -> sorter.CommitTs upper = B - 1).
Proof.
  intros B. destruct (runTask_opens env w t h) as (d & E & _).
  exists d, (upperBoundOf B). split; [exact E | ]. split; [reflexivity | ].
  split.
  - intros ->. split; [reflexivity | ]. intros p Hp. left. exact Hp.
  - apply upperBoundOf_exact.
Qed.

Lemma barrier_zero_wraps_witness :
  (exists d upper,
     snd (runTask (exampleEnv 100 0 [boundary 30] never) (exampleWorker false 2)
                  exampleTask [])
     = d ++ [FetchByTable 1 (lowerBound exampleTask) upper; BarrierLoad 0%nat 0] /\
     sorter.CommitTs upper = 18446744073709551615) /\
  (exists d upper,
     snd (runTask (exampleEnv 100 20 [boundary 30] never) (exampleWorker false 2)
                  exampleTask [])
     = d ++ [FetchByTable 1 (lowerBound exampleTask) upper; BarrierLoad 0%nat 20] /\
     sorter.CommitTs upper = 19).
Proof.
  split.
  - destruct (barrier_zero_wraps (exampleEnv 100 0 [boundary 30] never)
                (exampleWorker false 2) exampleTask []) as (d & upper & E & _ & Z & _).
    exists d, upper. split; [exact E | ]. apply Z. reflexivity.
  - destruct (barrier_zero_wraps (exampleEnv 100 20 [boundary 30] never)
                (exampleWorker false 2) exampleTask []) as (d & upper & E & _ & _ & X).
    exists d, upper. split; [exact E | ]. apply X.
    change (1 <= 20 <= 2 ^ 64 - 1). lia.
Defined.


(** ** The completion callback (C6) *)

(** C6, as amended: a task whose fetch loop ends without an error refunds,
    then calls the callback, once, then closes the cursor, and returns what
    [Close] answered; the calls before the refund are calls of the fetch
    loop, none of them a callback.  A task whose fetch loop aborts, on an
    error of the cursor, of the validation or of the publication of a
    resolved timestamp, returns that error and makes no call after the one
    that failed: no refund, no callback, no close. *)
Theorem callback_after_refund env w t h :
  0 < defaultMemoryUsage env <= maxInt ->
  let B := barrierLoad env h (lastBarrierTs t) in
  exists d,
    Forall inLoop d /\
    ((exists a p c,
        runTask env w t h
        = (answer c,
           [IterClose c; Callback (callback t) p; Refund a]
             ++ d ++ openEntries t B ++ h))
     \/
     (exists err,
        runTask env w t h = (Err err, d ++ openEntries t B ++ h) /\
        abortedBy err d)).
Proof.
  intros HD B.
  destruct (runTask_taskRun env w t h) as (d & E & R). fold B in R.
  destruct (runTask env w t h) as [r h']. cbn [fst snd] in E, R. subst h'.
  inv R.
  - exists d0. split; [eapply loopRun_inLoop; eassumption | ]. left.
    eexists _, _, c. f_equal. unfold endEntries. same_history.
  - exists d0. split; [eapply loopRun_inLoop; eassumption | ]. left.
    eexists _, _, c. f_equal. unfold endEntries. same_history.
  - exists d0. split; [eapply loopRun_inLoop; eassumption | ]. right.
    exists err. split; [f_equal; same_history | ].
    eapply loopRun_aborted; [eassumption | reflexivity].
  - exfalso. eapply loopRun_ends; [exact HD | eassumption | reflexivity].
Qed.

Lemma callback_after_refund_witness :
  exists d,
    Forall inLoop d /\
    ((exists a p c,
        runTask (exampleEnv 100 20 [boundary 30] never) (exampleWorker false 2)
                exampleTask []
        = (answer c,
           [IterClose c; Callback 2%nat p; Refund a]
             ++ d ++ openEntries exampleTask 20 ++ []))
     \/
     (exists err,
        runTask (exampleEnv 100 20 [boundary 30] never) (exampleWorker false 2)
                exampleTask []
        = (Err err, d ++ openEntries exampleTask 20 ++ []) /\
        abortedBy err d)).
Proof.
  apply (callback_after_refund (exampleEnv 100 20 [boundary 30] never)
           (exampleWorker false 2) exampleTask []).
  change (0 < 100 <= 2 ^ 63 - 1). lia.
Defined.

(** C6 as stated fails: the callback is called before the cursor is closed.
    Here the cursor is empty, and when the callback is called no call of the
    history is a [Close]. *)
Lemma callback_before_close :
  exists older,
    snd (runTask (exampleEnv 100 20 [] never) (exampleWorker false 2) exampleTask [])
    = IterClose None :: Callback 2%nat sorter.zero :: older /\
    Forall (fun c => match c with IterClose _ => False | _ => True end) older.
Proof.
  eexists. split; [vm_compute; reflexivity | ].
  repeat constructor.
Qed.


(** ** The position of the callback (C2) *)

Lemma lastValidPos_app env d1 d2 x :
  lastValidPos env (d1 ++ d2) x = lastValidPos env d1 (lastValidPos env d2 x).
Proof.
  induction d1 as [| c d1 IH]; [reflexivity | ].
  destruct c as [| | [[e pos |] |] | | | | | | | | | | |]; simpl; try apply IH.
  destruct (Valid env pos); [reflexivity | apply IH].
Qed.

Lemma lastValidPos_inBody env d x : Forall inBody d -> lastValidPos env d x = x.
Proof.
  induction 1 as [| c d Hc F IH]; [reflexivity | ].
  destruct c; simpl in *; try contradiction; exact IH.
Qed.

Lemma lastNext_inBody d h : Forall inBody d -> lastNext (d ++ h) = lastNext h.
Proof.
  induction 1 as [| c d Hc F IH]; [reflexivity | ].
  destruct c; simpl in *; try contradiction; exact IH.
Qed.

Lemma lastNext_app d h p : lastNext d = Some p -> lastNext (d ++ h) = Some p.
Proof.
  induction d as [| c d IH]; [discriminate | ].
  destruct c as [| | [[e pos | err] |] | | | | | | | | | | |]; simpl; auto.
Qed.

Lemma sinkCall_inBody d : Forall sinkCall d -> Forall inBody d.
Proof. intros F. eapply Forall_impl; [ | exact F ]. intros []; simpl; tauto. Qed.

Section Position.

Variable env : Env.
Variable w : workerImpl.
Variable t : tableSinkTask.

Lemma consumeRun_lastPos e l l1 d :
  consumeRun env e l (Ok l1) d -> lastPos l1 = lastPos l.
Proof. intros R. now inv R. Qed.

Lemma batchRun_lastPos e l l1 d : batchRun w t e l (Ok l1) d -> lastPos l1 = lastPos l.
Proof. intros R. now inv R. Qed.

Lemma boundaryRun_lastPos e pos l c l1 d :
  boundaryRun w t e pos l (Ok (c, l1)) d -> lastPos l1 = pos.
Proof. intros R. now inv R. Qed.

Lemma bodyRun_lastPos e pos l b d :
  bodyRun env w t e pos l b d ->
  forall l', b = Goes l' \/ b = Stops l' ->
    lastPos l' = if Valid env pos then pos else lastPos l.
Proof.
  intros R l' [-> | ->]; inv R;
    repeat match goal with
           | H : Valid env pos = _ |- _ => rewrite H
           | H : consumeRun _ _ _ _ _ |- _ => apply consumeRun_lastPos in H
           | H : batchRun _ _ _ _ _ _ |- _ => apply batchRun_lastPos in H
           | H : boundaryRun _ _ _ _ _ _ _ |- _ => apply boundaryRun_lastPos in H
           end; congruence.
Qed.

Lemma lastValidPos_round e pos d d0 x :
  Forall inBody d ->
  lastValidPos env (d0 ++ d ++ [IterNext (Some (sorter.ItEvent e pos))]) x
  = lastValidPos env d0 (if Valid env pos then pos else x).
Proof.
  intros F. rewrite !lastValidPos_app, (lastValidPos_inBody env d) by exact F.
  reflexivity.
Qed.

Lemma loopRun_lastPos items l r d :
  loopRun env w t items l r d ->
  forall l', r = Exhausted l' \/ r = Stopped l' ->
    lastPos l' = lastValidPos env d (lastPos l).
Proof.
  induction 1 as [l | err rest l | e pos rest l l1 d B | e pos rest l err d B
                  | e pos rest l d B | e pos rest l l1 d r d' B R IH];
    intros l' Hr; try (destruct Hr; discriminate).
  - destruct Hr as [Hr | Hr]; inv Hr. reflexivity.
  - destruct Hr as [Hr | Hr]; inv Hr.
    rewrite (lastValidPos_round e pos d [] _ (bodyRun_inBody _ _ _ _ _ _ _ _ B)).
    simpl. eapply bodyRun_lastPos; eauto.
  - rewrite (lastValidPos_round e pos d d' _ (bodyRun_inBody _ _ _ _ _ _ _ _ B)).
    rewrite (IH l' Hr). f_equal. eapply bodyRun_lastPos; eauto.
Qed.

Lemma taskRun_callback B items r d :
  taskRun env w t B items r d ->
  forall cb p, In (Callback cb p) d ->
    cb = callback t /\ p = lastValidPos env d sorter.zero.
Proof.
  assert (N : forall dl, Forall inLoop dl ->
                forall cb p, ~ In (Callback cb p) (dl ++ openEntries t B)).
  { intros dl F cb p Hin. apply in_app_or in Hin. destruct Hin as [Hin | Hin].
    - rewrite Forall_forall in F. exact (F _ Hin).
    - simpl in Hin. destruct Hin as [Hin | [Hin | []]]; discriminate. }
  assert (L : forall dl l c, Forall inLoop dl ->
                lastValidPos env (endEntries t l c ++ dl ++ openEntries t B) sorter.zero
                = lastValidPos env dl sorter.zero).
  { intros dl l c F. simpl. now rewrite lastValidPos_app. }
  intros R cb p Hin.
  inversion R as [l dl c Lp | l dl c Lp | err dl Lp | dl Lp]; subst;
    pose proof (loopRun_inLoop _ _ _ _ _ _ _ Lp) as F;
    try (exfalso; exact (N dl F cb p Hin)).
  all: rewrite L by exact F.
  all: simpl in Hin; destruct Hin as [Hin | [Hin | [Hin | Hin]]]; try discriminate;
    try (exfalso; exact (N dl F cb p Hin)).
  all: inv Hin; split; [reflexivity | ].
  all: eapply (loopRun_lastPos _ _ _ _ Lp); eauto.
Qed.

End Position.

(** C2, as amended: a callback a task calls is the callback of the task, and
    the position it is given is the latest valid position the cursor
    yielded in the task, or, when it yielded none, the zero position
    [(CommitTs = 0, StartTs = 0)]. *)
Theorem callback_position env w t h :
  exists d,
    snd (runTask env w t h) = d ++ h /\
    forall cb p, In (Callback cb p) d ->
      cb = callback t /\ p = lastValidPos env d sorter.zero.
Proof.
  destruct (runTask_taskRun env w t h) as (d & E & R).
  exists d. split; [exact E | ]. eapply taskRun_callback; eassumption.
Qed.

Lemma callback_position_witness :
  exists d,
    snd (runTask (exampleEnv 100 20 [inside 10; boundary 10; inside 10] never)
                 (exampleWorker false 2) exampleTask []) = d ++ [] /\
    2%nat = callback exampleTask /\
    {| sorter.CommitTs := 10; sorter.StartTs := 9 |}
    = lastValidPos (exampleEnv 100 20 [inside 10; boundary 10; inside 10] never)
                   d sorter.zero.
Proof.
  destruct (callback_position
              (exampleEnv 100 20 [inside 10; boundary 10; inside 10] never)
              (exampleWorker false 2) exampleTask []) as (d & E & C).
  exists d. split; [exact E | ]. apply C.
  rewrite app_nil_r in E. rewrite <- E. vm_compute. tauto.
Defined.

(** C2 as stated fails: the cursor yields no valid position, and the callback
    is given the zero position, not the lower bound of the task. *)
Lemma callback_not_lower_bound :
  let env := exampleEnv 100 20 [inside 10] never in
  let h := snd (runTask env (exampleWorker false 2) exampleTask []) in
  In (Callback 2%nat sorter.zero) h /\
  lastValidPos env h (lowerBound exampleTask) = lowerBound exampleTask /\
  sorter.zero <> lowerBound exampleTask.
Proof.
  split; [vm_compute; tauto | ]. split; [reflexivity | discriminate].
Qed.


(** ** Flushing before publishing (C1) *)

Lemma proj_cons {X} (f : Call -> list X) c h : proj f (c :: h) = proj f h ++ f c.
Proof. unfold proj. simpl. rewrite flat_map_app. simpl. now rewrite app_nil_r. Qed.

Lemma proj_app {X} (f : Call -> list X) d h : proj f (d ++ h) = proj f h ++ proj f d.
Proof. unfold proj. now rewrite rev_app_distr, flat_map_app. Qed.

Lemma proj_none {X} (f : Call -> list X) d :
  Forall (fun c => f c = []) d -> proj f d = [].
Proof.
  induction 1 as [| c d Hc F IH]; [reflexivity | ].
  now rewrite proj_cons, IH, Hc.
Qed.

Lemma consumed_silent d h : Forall silent d -> consumed (d ++ h) = consumed h.
Proof.
  intros F. unfold consumed. rewrite proj_app, (proj_none _ d), app_nil_r; [reflexivity | ].
  eapply Forall_impl; [ | exact F ]. intros []; simpl; tauto.
Qed.

Lemma emitted_silent d h : Forall silent d -> emitted (d ++ h) = emitted h.
Proof.
  intros F. unfold emitted. rewrite proj_app, (proj_none _ d), app_nil_r; [reflexivity | ].
  eapply Forall_impl; [ | exact F ]. intros []; simpl; tauto.
Qed.

Section Published.

Variable env : Env.
Variable w : workerImpl.

Lemma publishOK_silent d h :
  Forall silent d -> publishOK env w (d ++ h) <-> publishOK env w h.
Proof.
  induction 1 as [| c d Hc F IH]; [reflexivity | ].
  destruct c; simpl in *; try contradiction; exact IH.
Qed.

Lemma pending_silent evs d h :
  Forall silent d -> pending env w evs h -> pending env w evs (d ++ h).
Proof.
  intros F [P1 P2]. split.
  - now rewrite consumed_silent, emitted_silent.
  - now apply publishOK_silent.
Qed.

Lemma pending_next evs e pos h :
  pending env w evs h ->
  pending env w (evs ++ [e]) (IterNext (Some (sorter.ItEvent e pos)) :: h).
Proof.
  intros [P1 P2]. split; [ | exact P2 ].
  unfold consumed, emitted in *. rewrite !proj_cons, P1. cbn.
  rewrite ?app_nil_r, <- ?app_assoc. reflexivity.
Qed.

Lemma pending_emit evs sink rows h :
  pending env w evs h -> pending env w [] (EmitRowChangedEvent sink evs rows :: h).
Proof.
  intros [P1 P2]. split; [ | exact P2 ].
  unfold consumed, emitted in *. rewrite !proj_cons, P1. cbn.
  rewrite ?app_nil_r, <- ?app_assoc. reflexivity.
Qed.

Lemma pending_publish sink rts res h :
  pending env w [] h -> publishedFor env w rts h ->
  pending env w [] (SinkUpdateResolvedTs sink rts res :: h).
Proof.
  intros [P1 P2] F. rewrite app_nil_r in P1. split.
  - unfold consumed, emitted in *. rewrite !proj_cons, P1. cbn.
    rewrite ?app_nil_r. reflexivity.
  - simpl. auto.
Qed.

(** What [publishOK] says of each publication. *)
Lemma publishOK_split d :
  publishOK env w d ->
  forall post sink rts res older,
    d = post ++ SinkUpdateResolvedTs sink rts res :: older ->
    consumed older = emitted older /\ publishedFor env w rts older.
Proof.
  intros P post. revert d P.
  induction post as [| c post IH]; intros d P sink rts res older ->.
  - simpl in P. tauto.
  - apply (IH (post ++ SinkUpdateResolvedTs sink rts res :: older)) with sink res;
      [ | reflexivity ].
    destruct c; simpl in P; tauto.
Qed.

End Published.

Section Flushing.

Variable env : Env.
Variable w : workerImpl.
Variable t : tableSinkTask.

Lemma isVerify_silent vs : Forall isVerify vs -> Forall silent vs.
Proof. intros F. eapply Forall_impl; [ | exact F ]. intros []; simpl; tauto. Qed.

Lemma flushRun_pending evs r d h :
  flushRun t evs r d -> pending env w evs h ->
  match r with
  | Ok _ => pending env w [] (d ++ h)
  | _ => publishOK env w (d ++ h)
  end.
Proof.
  intros R P. inv R.
  - apply (publishOK_silent env w (_ :: vs)); [ | apply P ].
    constructor; [exact I | now apply isVerify_silent].
  - simpl. apply pending_emit. apply pending_silent; [now apply isVerify_silent | exact P].
Qed.

Lemma flushRun_lastNext evs r d h : flushRun t evs r d -> lastNext (d ++ h) = lastNext h.
Proof. intros R. apply lastNext_inBody, sinkCall_inBody, (flushRun_sinkCall _ _ _ _ R). Qed.

Lemma largeRun_lastNext ts lts r d h :
  largeRun w t ts lts r d -> lastNext (d ++ h) = lastNext h.
Proof. intros R. apply lastNext_inBody, sinkCall_inBody, (largeRun_sinkCall _ _ _ _ _ _ R). Qed.

Lemma publishRun_pending e pos size r d h :
  publishRun w t (model.CRTs e) size r d -> pending env w [] h ->
  lastNext h = Some (e, pos) -> (splitTxn w = false -> Valid env pos = true) ->
  pending env w [] (d ++ h).
Proof.
  intros R P L V. inversion R as [rts res Ets Emode Er Ed]. simpl.
  assert (Sa : Forall sinkCall (Record_ (tableID t) rts size :: allocEntries w t rts)).
  { unfold allocEntries. destruct (splitTxn w); repeat constructor. }
  apply pending_publish.
  - apply (pending_silent env w [] (_ :: allocEntries w t rts)); [ | exact P ].
    unfold allocEntries. destruct (splitTxn w); repeat constructor.
  - exists e, pos. split; [ | split ].
    + rewrite <- L. apply (lastNext_inBody (_ :: allocEntries w t rts)).
      now apply sinkCall_inBody.
    + exact Ets.
    + intros S. split; [auto | ]. rewrite Emode. unfold modeOf. now rewrite S.
Qed.

Lemma largeRun_pending e pos lts r d h :
  largeRun w t (model.CRTs e) lts r d -> pending env w [] h ->
  lastNext h = Some (e, pos) -> (splitTxn w = false -> Valid env pos = true) ->
  pending env w [] (d ++ h).
Proof. intros R P L V. inv R; eauto using publishRun_pending. Qed.

Lemma resetEntries_silent : Forall silent (resetEntries w t).
Proof. unfold resetEntries. destruct (splitTxn w); repeat constructor. Qed.

Lemma consumeRun_pending e pos l l1 d h :
  consumeRun env e l (Ok l1) d -> pending env w (events l) h ->
  pending env w (events l1) (d ++ IterNext (Some (sorter.ItEvent e pos)) :: h) /\
  lastNext (d ++ IterNext (Some (sorter.ItEvent e pos)) :: h) = Some (e, pos).
Proof.
  intros R P. inv R. simpl. split.
  - apply pending_silent; [apply Forall_repeat; exact I | now apply pending_next].
  - rewrite lastNext_inBody; [reflexivity | apply Forall_repeat; exact I].
Qed.

Lemma batchRun_pending e pos l r d h :
  batchRun w t e l r d -> pending env w (events l) h -> lastNext h = Some (e, pos) ->
  match r with
  | Ok l' => pending env w (events l') (d ++ h)
  | _ => publishOK env w (d ++ h)
  end.
Proof.
  intros R P L.
  assert (V : forall c, splitTxn w && c = true -> splitTxn w = false -> Valid env pos = true).
  { intros c Hc S. rewrite S in Hc. discriminate. }
  inversion R as [C Er Ed | err dF C F Er Ed | size dF err dL C F G Er Ed
                  | size dF lts dL C F G Er Ed]; subst; simpl.
  - exact P.
  - apply (flushRun_pending _ _ _ h F P).
  - rewrite <- app_assoc.
    refine (proj2 (largeRun_pending _ pos _ _ _ _ G (flushRun_pending _ _ _ h F P)
                     _ (V _ C))).
    now rewrite (flushRun_lastNext _ _ _ _ F).
  - rewrite <- app_assoc.
    refine (largeRun_pending _ pos _ _ _ _ G (flushRun_pending _ _ _ h F P) _ (V _ C)).
    now rewrite (flushRun_lastNext _ _ _ _ F).
Qed.

Lemma boundaryRun_pending e pos l r d h :
  boundaryRun w t e pos l r d -> pending env w (events l) h ->
  lastNext h = Some (e, pos) -> Valid env pos = true ->
  match r with
  | Ok (_, l') => pending env w (events l') (d ++ h)
  | _ => publishOK env w (d ++ h)
  end.
Proof.
  intros R P L V.
  pose proof (pending_silent env w _ _ _ resetEntries_silent P) as P0.
  assert (L0 : lastNext (resetEntries w t ++ h) = Some (e, pos)).
  { rewrite <- L. apply lastNext_inBody, sinkCall_inBody, resetEntries_sinkCall. }
  assert (L1 : forall r' dF, flushRun t (events l) r' dF ->
                 lastNext (dF ++ resetEntries w t ++ h) = Some (e, pos)).
  { intros r' dF F. now rewrite (flushRun_lastNext _ _ _ _ F). }
  assert (L2 : forall ts lts r1 r2 dL dF,
                 largeRun w t ts lts r1 dL -> flushRun t (events l) r2 dF ->
                 lastNext ((IsExceed true :: dL) ++ dF ++ resetEntries w t ++ h)
                 = Some (e, pos)).
  { intros ts lts r1 r2 dL dF G F. simpl.
    now rewrite (largeRun_lastNext _ _ _ _ _ G), (flushRun_lastNext _ _ _ _ F). }
  inversion R as [err dF F Er Ed | size dF err dL F G Er Ed | size dF lts dL F G Er Ed
                  | size dF lts dL dP F G Pb Er Ed | size dF lts dL err dP F G Pb Er Ed];
    subst; simpl; rewrite <- ?app_assoc; simpl; rewrite <- ?app_assoc.
  - apply (flushRun_pending _ _ _ _ F P0).
  - exact (proj2 (largeRun_pending _ pos _ _ _ _ G (flushRun_pending _ _ _ _ F P0)
                    (L1 _ _ F) (fun _ => V))).
  - apply (pending_silent env w [] [IsExceed false]); [repeat constructor | ].
    exact (largeRun_pending _ pos _ _ _ _ G (flushRun_pending _ _ _ _ F P0)
             (L1 _ _ F) (fun _ => V)).
  - refine (publishRun_pending _ pos _ _ _ _ Pb _ (L2 _ _ _ _ _ _ G F) (fun _ => V)).
    apply (pending_silent env w [] [IsExceed true]); [repeat constructor | ].
    exact (largeRun_pending _ pos _ _ _ _ G (flushRun_pending _ _ _ _ F P0)
             (L1 _ _ F) (fun _ => V)).
  - refine (proj2 (publishRun_pending _ pos _ _ _ _ Pb _ (L2 _ _ _ _ _ _ G F)
                     (fun _ => V))).
    apply (pending_silent env w [] [IsExceed true]); [repeat constructor | ].
    exact (largeRun_pending _ pos _ _ _ _ G (flushRun_pending _ _ _ _ F P0)
             (L1 _ _ F) (fun _ => V)).
Qed.

Lemma boundaryRun_lastNext e pos l r d h :
  boundaryRun w t e pos l r d -> lastNext (d ++ h) = lastNext h.
Proof. intros R. apply lastNext_inBody. eapply boundaryRun_inBody. exact R. Qed.

Lemma bodyRun_pending e pos l b d h :
  bodyRun env w t e pos l b d -> pending env w (events l) h ->
  match b with
  | Goes l' | Stops l' =>
      pending env w (events l') (d ++ IterNext (Some (sorter.ItEvent e pos)) :: h)
  | _ => publishOK env w (d ++ IterNext (Some (sorter.ItEvent e pos)) :: h)
  end.
Proof.
  intros R P.
  inversion R as [d0 C Eb Ed | l1 d0 l2 dS C V S Eb Ed | l1 d0 err dS C V S Eb Ed
                  | l1 d0 err dB C V Bd Eb Ed | l1 d0 l2 dB C V Bd Eb Ed
                  | l1 d0 l2 dB l3 dS C V Bd S Eb Ed
                  | l1 d0 l2 dB err dS C V Bd S Eb Ed];
    subst; rewrite <- ?app_assoc;
    try (destruct (consumeRun_pending _ pos _ _ _ _ C P) as [P1 L1]).
  - inv C. apply publishOK_silent; [apply Forall_repeat; exact I | ]. apply P.
  - apply (batchRun_pending _ pos _ _ _ _ S P1 L1).
  - apply (batchRun_pending _ pos _ _ _ _ S P1 L1).
  - apply (boundaryRun_pending _ _ _ _ _ _ Bd P1 L1 V).
  - apply (boundaryRun_pending _ _ _ _ _ _ Bd P1 L1 V).
  - apply (batchRun_pending _ pos _ _ _ _ S).
    + apply (boundaryRun_pending _ _ _ _ _ _ Bd P1 L1 V).
    + now rewrite (boundaryRun_lastNext _ _ _ _ _ _ Bd).
  - apply (batchRun_pending _ pos _ _ _ _ S).
    + apply (boundaryRun_pending _ _ _ _ _ _ Bd P1 L1 V).
    + now rewrite (boundaryRun_lastNext _ _ _ _ _ _ Bd).
Qed.

Lemma loopRun_publishOK items l r d :
  loopRun env w t items l r d ->
  forall h, pending env w (events l) h -> publishOK env w (d ++ h).
Proof.
  induction 1 as [l | err rest l | e pos rest l l1 d B | e pos rest l err d B
                  | e pos rest l d B | e pos rest l l1 d r d' B R IH];
    intros h P; rewrite <- ?app_assoc; simpl.
  - apply P.
  - apply P.
  - apply (bodyRun_pending _ _ _ _ _ h B P).
  - apply (bodyRun_pending _ _ _ _ _ h B P).
  - apply (bodyRun_pending _ _ _ _ _ h B P).
  - apply IH. apply (bodyRun_pending _ _ _ _ _ h B P).
Qed.

Lemma taskRun_publishOK B items r d : taskRun env w t B items r d -> publishOK env w d.
Proof.
  assert (P0 : pending env w (events (initLocals env)) (openEntries t B)).
  { split; [reflexivity | exact I]. }
  intros R. inv R; simpl;
    match goal with
    | H : loopRun _ _ _ _ _ _ _ |- _ => exact (loopRun_publishOK _ _ _ _ H _ P0)
    end.
Qed.

End Flushing.

(** ** The refund (C5) *)

Lemma sumZ_app l1 l2 : sumZ (l1 ++ l2) = sumZ l1 + sumZ l2.
Proof. induction l1 as [| x l1 IH]; simpl; [reflexivity | rewrite IH; ring]. Qed.

Lemma acquired_app d h : acquired (d ++ h) = acquired h + acquired d.
Proof. unfold acquired. now rewrite proj_app, sumZ_app. Qed.

Lemma consumedBytes_app d h : consumedBytes (d ++ h) = consumedBytes h + consumedBytes d.
Proof. unfold consumedBytes, consumed. now rewrite proj_app, map_app, sumZ_app. Qed.

Lemma acquired_frugal d : Forall frugal d -> acquired d = 0.
Proof.
  intros F. unfold acquired. rewrite proj_none; [reflexivity | ].
  eapply Forall_impl; [ | exact F ]. intros c Hc.
  destruct c; try reflexivity. contradiction.
Qed.

Lemma consumedBytes_frugal d : Forall frugal d -> consumedBytes d = 0.
Proof.
  intros F. unfold consumedBytes, consumed. rewrite proj_none; [reflexivity | ].
  eapply Forall_impl; [ | exact F ]. intros c Hc.
  destruct c as [| | [[e pos | err] |] | | | | | | | | | | |]; try reflexivity.
  contradiction.
Qed.

Lemma consumedBytes_inBody d : Forall inBody d -> consumedBytes d = 0.
Proof.
  intros F. unfold consumedBytes, consumed. rewrite proj_none; [reflexivity | ].
  eapply Forall_impl; [ | exact F ]. intros []; simpl; tauto.
Qed.

Lemma refunds_inLoop d : Forall inLoop d -> refunds d = [].
Proof.
  intros F. unfold refunds. rewrite proj_none; [reflexivity | ].
  eapply Forall_impl; [ | exact F ]. intros []; simpl; tauto.
Qed.

Lemma acquired_repeat n k : acquired (repeat (ForceAcquire n) k) = Z.of_nat k * n.
Proof.
  induction k as [| k IH]; [reflexivity | ].
  change (repeat (ForceAcquire n) (S k)) with ([ForceAcquire n] ++ repeat (ForceAcquire n) k).
  rewrite acquired_app, IH, Nat2Z.inj_succ.
  change (acquired [ForceAcquire n]) with (n + 0). lia.
Qed.

Lemma balanced_frugal env a d h : Forall frugal d -> balanced env a h -> balanced env a (d ++ h).
Proof.
  intros F (B1 & B2 & B3). unfold balanced.
  rewrite acquired_app, consumedBytes_app, (acquired_frugal d), (consumedBytes_frugal d)
    by exact F.
  repeat split; lia.
Qed.

Section Refunding.

Variable env : Env.
Variable w : workerImpl.
Variable t : tableSinkTask.

Hypothesis unit_fits : 0 < defaultMemoryUsage env <= maxInt.

Lemma consumeRun_balanced e pos l l1 d h :
  itemOK env (sorter.ItEvent e pos) ->
  consumeRun env e l (Ok l1) d -> balanced env (availableMem l) h ->
  balanced env (availableMem l1) (d ++ IterNext (Some (sorter.ItEvent e pos)) :: h).
Proof.
  intros [Hb Hfit] R (B1 & B2 & B3).
  inversion R as [k N X Er Ed | ]; subst. cbn [availableMem].
  assert (Hab : wrapInt (availableMem l - bytesOf e) = availableMem l - bytesOf e).
  { apply wrapInt_id. unfold isInt, minInt, maxInt in *. lia. }
  pose proof (acquire_exact env _ _ k unit_fits N) as Ex. rewrite Hab in Ex.
  rewrite (Ex k (le_n k)) in X |- *.
  assert (Hk : availableMem l - bytesOf e + Z.of_nat k * defaultMemoryUsage env
               <= defaultMemoryUsage env).
  { destruct k as [| k]; [simpl; lia | ].
    specialize (N k (Nat.lt_succ_diag_r k)). rewrite Ex in N by lia. lia. }
  unfold balanced.
  rewrite acquired_app, consumedBytes_app, acquired_repeat.
  rewrite (consumedBytes_inBody (repeat _ k)) by (apply Forall_repeat; exact I).
  change (IterNext (Some (sorter.ItEvent e pos)) :: h)
    with ([IterNext (Some (sorter.ItEvent e pos))] ++ h).
  rewrite acquired_app, consumedBytes_app.
  change (acquired [IterNext (Some (sorter.ItEvent e pos))]) with 0.
  change (consumedBytes [IterNext (Some (sorter.ItEvent e pos))]) with (bytesOf e + 0).
  repeat split; lia.
Qed.

Lemma batchRun_availableMem e l l1 d :
  batchRun w t e l (Ok l1) d -> availableMem l1 = availableMem l.
Proof. intros R. now inv R. Qed.

Lemma boundaryRun_availableMem e pos l c l1 d :
  boundaryRun w t e pos l (Ok (c, l1)) d -> availableMem l1 = availableMem l.
Proof. intros R. now inv R. Qed.

Lemma batchRun_frugal e l r d : batchRun w t e l r d -> Forall frugal d.
Proof.
  intros R. apply batchRun_sinkCall in R.
  eapply Forall_impl; [ | exact R ]. intros []; simpl; tauto.
Qed.

Lemma boundaryRun_frugal e pos l r d : boundaryRun w t e pos l r d -> Forall frugal d.
Proof. apply boundaryRun_calls; [intros []; simpl; tauto | intros; exact I]. Qed.

Lemma bodyRun_balanced e pos l b d h :
  itemOK env (sorter.ItEvent e pos) ->
  bodyRun env w t e pos l b d -> balanced env (availableMem l) h ->
  forall l', b = Goes l' \/ b = Stops l' ->
    balanced env (availableMem l') (d ++ IterNext (Some (sorter.ItEvent e pos)) :: h).
Proof.
  intros Hok R B l' [-> | ->]; inv R; rewrite <- ?app_assoc;
    repeat match goal with
           | H : batchRun _ _ _ _ (Ok _) _ |- _ =>
               rewrite (batchRun_availableMem _ _ _ _ H);
               apply batchRun_frugal in H
           | H : boundaryRun _ _ _ _ _ (Ok _) _ |- _ =>
               rewrite (boundaryRun_availableMem _ _ _ _ _ _ H);
               apply boundaryRun_frugal in H
           end;
    repeat (apply balanced_frugal; [assumption | ]);
    eapply consumeRun_balanced; eassumption.
Qed.

Lemma loopRun_balanced items l r d :
  loopRun env w t items l r d ->
  Forall (itemOK env) items ->
  forall h, balanced env (availableMem l) h ->
  forall l', r = Exhausted l' \/ r = Stopped l' ->
    balanced env (availableMem l') (d ++ h).
Proof.
  induction 1 as [l | err rest l | e pos rest l l1 d B | e pos rest l err d B
                  | e pos rest l d B | e pos rest l l1 d r d' B R IH];
    intros Fi h Bal l' Hr; try (destruct Hr; discriminate).
  - destruct Hr as [Hr | Hr]; inv Hr.
    apply balanced_frugal; [repeat constructor | exact Bal].
  - destruct Hr as [Hr | Hr]; inv Hr. rewrite <- app_assoc.
    inv Fi. eapply bodyRun_balanced; eauto.
  - rewrite <- !app_assoc. inv Fi. apply IH; [assumption | | exact Hr].
    eapply bodyRun_balanced; eauto.
Qed.

Lemma taskRun_refund B items r d :
  Forall (itemOK env) items ->
  taskRun env w t B items r d ->
  (forall n, In (Refund n) d ->
     refunds d = [n] /\
     n = defaultMemoryUsage env + acquired d - consumedBytes d /\
     0 <= n <= defaultMemoryUsage env + acquired d) /\
  (r = Ok tt -> exists n, In (Refund n) d).
Proof.
  intros Fi R.
  assert (B0 : balanced env (availableMem (initLocals env)) (openEntries t B)).
  { unfold balanced. cbn. lia. }
  assert (N : forall dl, Forall inLoop dl -> forall n, ~ In (Refund n) (dl ++ openEntries t B)).
  { intros dl F n Hin. apply in_app_or in Hin. destruct Hin as [Hin | Hin].
    - rewrite Forall_forall in F. exact (F _ Hin).
    - simpl in Hin. destruct Hin as [Hin | [Hin | []]]; discriminate. }
  assert (D : forall dl l c,
            Forall inLoop dl ->
            balanced env (availableMem l) (dl ++ openEntries t B) ->
            forall n, In (Refund n) (endEntries t l c ++ dl ++ openEntries t B) ->
              refunds (endEntries t l c ++ dl ++ openEntries t B) = [n] /\
              n = defaultMemoryUsage env
                  + acquired (endEntries t l c ++ dl ++ openEntries t B)
                  - consumedBytes (endEntries t l c ++ dl ++ openEntries t B) /\
              0 <= n <= defaultMemoryUsage env
                        + acquired (endEntries t l c ++ dl ++ openEntries t B)).
  { intros dl l c F (B1 & B2 & B3) n Hin.
    assert (U : wrapU64 (availableMem l) = availableMem l).
    { apply wrapU64_id. unfold isUint64, maxUint64, maxInt in *. lia. }
    simpl in Hin. destruct Hin as [Hin | [Hin | [Hin | Hin]]]; try discriminate;
      [ | exfalso; exact (N dl F n Hin) ].
    inv Hin. rewrite U.
    rewrite acquired_app, consumedBytes_app.
    unfold refunds. rewrite !proj_app.
    fold (refunds dl). rewrite (refunds_inLoop dl F).
    change (proj _ (openEntries t B)) with (@nil Z).
    change (proj _ (endEntries t l c)) with [wrapU64 (availableMem l)].
    change (acquired (endEntries t l c)) with 0.
    change (consumedBytes (endEntries t l c)) with 0.
    rewrite U. repeat split; try reflexivity; lia. }
  inversion R as [l dl c Lp | l dl c Lp | err dl Lp | dl Lp]; subst;
    pose proof (loopRun_inLoop _ _ _ _ _ _ _ Lp) as F.
  - split.
    + apply D; [exact F | ]. eapply loopRun_balanced; eauto.
    + intros _. eexists. simpl. eauto.
  - split.
    + apply D; [exact F | ]. eapply loopRun_balanced; eauto.
    + intros _. eexists. simpl. eauto.
  - split; [ | discriminate ]. intros n Hin. exfalso. exact (N dl F n Hin).
  - split; [ | discriminate ]. intros n Hin. exfalso. exact (N dl F n Hin).
Qed.

End Refunding.

(** C5, as amended: in a task whose events have sizes that are not negative
    and fit an [int] together with one grant unit, the amount refunded is
    the one grant unit the task starts with plus the bytes it
    force-acquired, less the bytes of all the events read from the cursor,
    flushed or not; it is not negative and at most what was granted; there
    is one refund, and a task that returns [nil] has made it. *)
Theorem refund_balance env w t h :
  0 < defaultMemoryUsage env <= maxInt ->
  (forall h' tid lower upper, Forall (itemOK env) (fetchByTable env h' tid lower upper)) ->
  exists d,
    snd (runTask env w t h) = d ++ h /\
    (forall n, In (Refund n) d ->
       refunds d = [n] /\
       n = defaultMemoryUsage env + acquired d - consumedBytes d /\
       0 <= n <= defaultMemoryUsage env + acquired d) /\
    (fst (runTask env w t h) = Ok tt -> exists n, In (Refund n) d).
Proof.
  intros HD Hitems.
  destruct (runTask_taskRun env w t h) as (d & E & R).
  exists d. split; [exact E | ].
  eapply taskRun_refund; [exact HD | apply Hitems | exact R].
Qed.

Lemma refund_balance_witness :
  exists d,
    snd (runTask (exampleEnv 100 20 [boundary 30; inside 40] never)
                 (exampleWorker false 2) exampleTask []) = d ++ [] /\
    refunds d = [30] /\
    30 = 100 + acquired d - consumedBytes d /\
    0 <= 30 <= 100 + acquired d.
Proof.
  destruct (refund_balance (exampleEnv 100 20 [boundary 30; inside 40] never)
              (exampleWorker false 2) exampleTask []) as (d & E & F & _).
  - change (0 < 100 <= 2 ^ 63 - 1). lia.
  - intros h' tid lower upper. repeat constructor; cbv; intros X; discriminate X.
  - exists d. split; [exact E | ]. apply F.
    rewrite app_nil_r in E. rewrite <- E. vm_compute. tauto.
Defined.

(** C5 as stated fails: the cursor yields a transaction of 30 bytes and then
    40 bytes of a transaction that is not complete.  The task holds its
    grant unit of 100 bytes and force-acquires nothing; it flushes 30 bytes
    and records none; it refunds 30 bytes, which is neither what it held
    less what it flushed nor what it held less what it recorded. *)
Lemma refund_not_flushed_bytes :
  let h := snd (runTask (exampleEnv 100 20 [boundary 30; inside 40] never)
                        (exampleWorker false 2) exampleTask []) in
  refunds h = [30] /\
  acquired h = 0 /\ emittedBytes h = 30 /\ recordedBytes h = 0 /\
  30 <> 100 + acquired h - emittedBytes h /\
  30 <> 100 + acquired h - recordedBytes h /\
  30 <> acquired h - emittedBytes h.
Proof. vm_compute. repeat split; discriminate. Qed.

(** ** Stopping on an exceeded quota (C4) *)

Lemma split_app {A} (l1 l2 post older : list A) x :
  l1 ++ l2 = post ++ x :: older ->
  (exists o1, l1 = post ++ x :: o1 /\ older = o1 ++ l2) \/
  (exists p2, l2 = p2 ++ x :: older /\ post = l1 ++ p2).
Proof.
  revert post. induction l1 as [| a l1 IH]; intros post E.
  - right. exists post. auto.
  - destruct post as [| b post]; simpl in E; inversion E; subst.
    + left. exists l1. auto.
    + destruct (IH post H1) as [(o1 & -> & ->) | (p2 & -> & ->)].
      * left. exists o1. auto.
      * right. exists p2. auto.
Qed.

Lemma calm_no_split d post older :
  Forall calm d -> d <> post ++ IsExceed true :: older.
Proof.
  intros F ->. apply Forall_app in F. destruct F as [_ F].
  inversion F as [| c l Hc]. exact Hc.
Qed.

Lemma sinkCall_calm d : Forall sinkCall d -> Forall calm d.
Proof. intros F. eapply Forall_impl; [ | exact F ]. intros []; simpl; tauto. Qed.

Lemma quiet_calm d : Forall quiet d -> Forall calm d.
Proof.
  intros F. eapply Forall_impl; [ | exact F ].
  intros c; destruct c as [| | | | | | | [|] | | | | | |]; simpl; tauto.
Qed.

Section Stopping.

Variable env : Env.
Variable w : workerImpl.
Variable t : tableSinkTask.

Lemma boundaryRun_exceed e pos l r d d0 :
  boundaryRun w t e pos l r d -> Forall quiet d0 -> Valid env pos = true ->
  match r with
  | Ok (Continue, _) => Forall calm (d ++ d0)
  | Ok (Break, l') => meetsExceed env w t e pos (Stops l') (d ++ d0)
  | Err err => Forall calm (d ++ d0) \/ meetsExceed env w t e pos (Aborts err) (d ++ d0)
  | Spin => False
  end.
Proof.
  intros R F0 V.
  pose proof (quiet_calm _ F0) as C0.
  assert (I0 : Forall inBody d0).
  { eapply Forall_impl; [ | exact F0 ].
    intros c; destruct c as [| | | | | | | [|] | | | | | |]; simpl; tauto. }
  pose proof (sinkCall_calm _ (resetEntries_sinkCall w t)) as Cr.
  assert (Ir : Forall inBody (resetEntries w t)).
  { eapply Forall_impl; [ | exact (resetEntries_sinkCall w t) ]. intros []; simpl; tauto. }
  assert (SI : forall x, Forall sinkCall x -> Forall inBody x).
  { intros x Fx. eapply Forall_impl; [ | exact Fx ]. intros []; simpl; tauto. }
  inv R;
    repeat match goal with
           | H : flushRun _ _ _ _ |- _ =>
               apply flushRun_sinkCall in H;
               pose proof (sinkCall_calm _ H); apply SI in H
           | H : largeRun _ _ _ _ _ _ |- _ =>
               apply largeRun_sinkCall in H;
               pose proof (sinkCall_calm _ H); apply SI in H
           end.
  - left. forall_calls.
  - left. forall_calls.
  - forall_calls.
  - exists dP, (dL ++ dF ++ resetEntries w t ++ d0), lts.
    split; [same_history | ]. split; [forall_calls | ]. split; [forall_calls | ].
    split; [exact V | ]. left. eauto.
  - right. exists dP, (dL ++ dF ++ resetEntries w t ++ d0), lts.
    split; [same_history | ]. split; [forall_calls | ]. split; [forall_calls | ].
    split; [exact V | ]. right. eauto.
Qed.

Lemma bodyRun_exceed e pos l b d :
  bodyRun env w t e pos l b d ->
  (Forall calm d /\ forall l', b <> Stops l') \/ meetsExceed env w t e pos b d.
Proof.
  intros R. inv R;
    repeat match goal with
           | H : consumeRun _ _ _ _ _ |- _ => apply consumeRun_quiet in H
           | H : batchRun _ _ _ _ _ _ |- _ =>
               apply batchRun_sinkCall, sinkCall_calm in H
           end.
  - left. split; [now apply quiet_calm | discriminate].
  - left. split; [ | discriminate ]. apply Forall_app. split; [assumption | now apply quiet_calm].
  - left. split; [ | discriminate ]. apply Forall_app. split; [assumption | now apply quiet_calm].
  - destruct (boundaryRun_exceed _ _ _ _ _ _ H1 H H0) as [C | M].
    + left. split; [exact C | discriminate].
    + right. exact M.
  - right. exact (boundaryRun_exceed _ _ _ _ _ _ H1 H H0).
  - left. split; [ | discriminate ].
    pose proof (boundaryRun_exceed _ _ _ _ _ _ H1 H H0) as C. simpl in C.
    apply Forall_app. split; assumption.
  - left. split; [ | discriminate ].
    pose proof (boundaryRun_exceed _ _ _ _ _ _ H1 H H0) as C. simpl in C.
    apply Forall_app. split; assumption.
Qed.

Lemma loopRun_exceed items l r d :
  loopRun env w t items l r d ->
  forall post older, d = post ++ IsExceed true :: older ->
    exists e pos lts,
      lastNext older = Some (e, pos) /\ Valid env pos = true /\
      ((exists l', r = Stopped l' /\ lastPos l' = pos /\
                   publishRun w t (model.CRTs e) lts (Ok tt) post) \/
       (exists err, r = Aborted err /\
                    publishRun w t (model.CRTs e) lts (Err err) post)).
Proof.
  assert (M : forall e pos b db post older,
            meetsExceed env w t e pos b db ->
            db ++ [IterNext (Some (sorter.ItEvent e pos))] = post ++ IsExceed true :: older ->
            exists lts,
              lastNext older = Some (e, pos) /\ Valid env pos = true /\
              ((exists l', b = Stops l' /\ lastPos l' = pos /\
                           publishRun w t (model.CRTs e) lts (Ok tt) post) \/
               (exists err, b = Aborts err /\
                            publishRun w t (model.CRTs e) lts (Err err) post))).
  { clear. intros e pos b db post older (dP & ob & lts & -> & Co & Io & V & P) E.
    assert (CP : Forall calm dP).
    { destruct P as [(l' & _ & _ & P) | (err & _ & P)];
        apply publishRun_sinkCall, sinkCall_calm in P; exact P. }
    rewrite <- app_assoc in E. simpl in E.
    apply split_app in E. destruct E as [(o1 & E & _) | (p2 & E & ->)].
    { exfalso. exact (calm_no_split _ _ _ CP E). }
    destruct p2 as [| c p2]; simpl in E.
    2: { exfalso. inversion E as [[Hc E']]. subst c.
         assert (F : Forall calm (ob ++ [IterNext (Some (sorter.ItEvent e pos))])).
         { apply Forall_app. split; [exact Co | repeat constructor]. }
         exact (calm_no_split _ _ _ F E'). }
    inversion E as [E']. subst older. rewrite app_nil_r.
    exists lts. split; [ | split; [exact V | exact P] ].
    now rewrite lastNext_inBody. }
  induction 1 as [l | err rest l | e pos rest l l1 d B | e pos rest l err d B
                  | e pos rest l d B | e pos rest l l1 d r d' B R IH];
    intros post older E.
  - exfalso. refine (calm_no_split _ _ _ _ E). repeat constructor.
  - exfalso. refine (calm_no_split _ _ _ _ E). repeat constructor.
  - destruct (bodyRun_exceed _ _ _ _ _ B) as [[_ N] | Me].
    { exfalso. exact (N l1 eq_refl). }
    destruct (M _ _ _ _ _ _ Me E) as (lts & L & V & [(l' & El & P) | (err & El & P)]).
    + inv El. exists e, pos, lts. split; [exact L | ]. split; [exact V | ].
      left. exists l'. tauto.
    + discriminate.
  - destruct (bodyRun_exceed _ _ _ _ _ B) as [[C _] | Me].
    { exfalso. refine (calm_no_split _ _ _ _ E).
      apply Forall_app. split; [exact C | repeat constructor]. }
    destruct (M _ _ _ _ _ _ Me E) as (lts & L & V & [(l' & El & P) | (err' & El & P)]).
    + discriminate.
    + inv El. exists e, pos, lts. split; [exact L | ]. split; [exact V | ].
      right. exists err'. tauto.
  - destruct (bodyRun_exceed _ _ _ _ _ B) as [[C _] | Me].
    { exfalso. refine (calm_no_split _ _ _ _ E).
      apply Forall_app. split; [exact C | repeat constructor]. }
    destruct Me as (dP & ob & lts & _ & _ & _ & _ & [(l' & El & _) | (err & El & _)]);
      discriminate.
  - assert (C : Forall calm (d ++ [IterNext (Some (sorter.ItEvent e pos))])).
    { apply Forall_app. split; [ | repeat constructor ].
      apply quiet_calm. eapply bodyRun_quiet. exact B. }
    apply split_app in E. destruct E as [(o1 & E & ->) | (p2 & E & _)].
    2: { exfalso. exact (calm_no_split _ _ _ C E). }
    destruct (IH _ _ E) as (e' & pos' & lts & L & V & P).
    exists e', pos', lts. split; [now apply lastNext_app | ]. split; [exact V | exact P].
Qed.

End Stopping.






(** * More properties of the worker *)

(** ** A rule for what every history of a task satisfies *)

Section Invariant.

Variable env : Env.
Variable w : workerImpl.
Variable t : tableSinkTask.
Variable Inv : History -> Prop.

Hypothesis Inv_plain : forall c h, plainCall c -> Inv h -> Inv (c :: h).
Hypothesis Inv_reset : forall h, Inv h -> Inv (resetEntries w t ++ h).
Hypothesis Inv_publish :
  forall ts size r dP h, publishRun w t ts size r dP -> Inv h -> Inv (dP ++ h).

Lemma Inv_plains d h : Forall plainCall d -> Inv h -> Inv (d ++ h).
Proof. induction 1 as [| c d Hc F IH]; intros H; simpl; auto. Qed.

Lemma flushRun_inv evs r d h : flushRun t evs r d -> Inv h -> Inv (d ++ h).
Proof.
  intros R H. apply Inv_plains; [ | exact H ].
  inv R; (constructor; [exact I | ]);
    (eapply Forall_impl; [ | eassumption ]); intros []; simpl; tauto.
Qed.

Lemma largeRun_inv ts lts r d h : largeRun w t ts lts r d -> Inv h -> Inv (d ++ h).
Proof. intros R H. inv R; eauto. Qed.

Lemma consumeRun_inv e l r d h : consumeRun env e l r d -> Inv h -> Inv (d ++ h).
Proof. intros R H. apply Inv_plains; [ | exact H ]. inv R; apply Forall_repeat; exact I. Qed.

Lemma batchRun_inv e l r d h : batchRun w t e l r d -> Inv h -> Inv (d ++ h).
Proof.
  intros R H. inv R; rewrite <- ?app_assoc; eauto using flushRun_inv, largeRun_inv.
Qed.

Lemma boundaryRun_inv e pos l r d h : boundaryRun w t e pos l r d -> Inv h -> Inv (d ++ h).
Proof.
  intros R H.
  assert (X : forall b h', Inv h' -> Inv (IsExceed b :: h')).
  { intros b h'. now apply Inv_plain. }
  inv R; rewrite <- ?app_assoc; simpl; rewrite <- ?app_assoc;
    eauto 10 using flushRun_inv, largeRun_inv.
Qed.

Lemma bodyRun_inv e pos l b d h : bodyRun env w t e pos l b d -> Inv h -> Inv (d ++ h).
Proof.
  intros R H. inv R; rewrite <- ?app_assoc;
    eauto 10 using consumeRun_inv, batchRun_inv, boundaryRun_inv.
Qed.

Lemma loopRun_inv items l r d :
  loopRun env w t items l r d -> forall h, Inv h -> Inv (d ++ h).
Proof.
  induction 1 as [l | err rest l | e pos rest l l1 d B | e pos rest l err d B
                  | e pos rest l d B | e pos rest l l1 d r d' B R IH];
    intros h H; rewrite <- ?app_assoc; simpl;
    try (apply IH); try (eapply bodyRun_inv; [eassumption | ]);
    now apply Inv_plain.
Qed.

Hypothesis Inv_open : forall B, Inv (openEntries t B).
Hypothesis Inv_end : forall l c h, Inv h -> Inv (endEntries t l c ++ h).

Lemma taskRun_inv B items r d : taskRun env w t B items r d -> Inv d.
Proof.
  intros R. inv R; try apply Inv_end; eapply loopRun_inv; eauto.
Qed.

End Invariant.

(** ** Batch identifiers and the record of a publication *)

Lemma recordedFirst_split w t d :
  recordedFirst w t d ->
  forall post sink rts res older,
    d = post ++ SinkUpdateResolvedTs sink rts res :: older ->
    sink = tableSink t /\ model.Mode rts = modeOf w /\
    exists size older',
      older = Record_ (tableID t) rts size :: allocEntries w t rts ++ older'.
Proof.
  intros P post. revert d P.
  induction post as [| c post IH]; intros d P sink rts res older ->.
  - simpl in P. tauto.
  - apply (IH (post ++ SinkUpdateResolvedTs sink rts res :: older)) with res;
      [ | reflexivity ].
    destruct c; simpl in P; tauto.
Qed.

Lemma taskRun_recordedFirst env w t B items r d :
  taskRun env w t B items r d -> recordedFirst w t d.
Proof.
  apply taskRun_inv.
  - intros c h Hc H. destruct c; simpl in *; try contradiction; exact H.
  - intros h H. unfold resetEntries. destruct (splitTxn w); exact H.
  - intros ts size r' dP h R H. inv R. simpl. split.
    + split; [reflexivity | ]. split; [assumption | ]. eauto.
    + unfold allocEntries. destruct (splitTxn w); exact H.
  - intros B'. exact I.
  - intros l c h H. exact H.
Qed.

(** X1: Every publication of a resolved timestamp goes to the sink of the task
    and comes right after the record, with the quota, of the same resolved
    timestamp for the table of the task; when the worker splits
    transactions the resolved timestamp is in batch mode and the call before
    the record is the allocation that answered its batch identifier. *)
Theorem published_after_record env w t h :
  exists d,
    snd (runTask env w t h) = d ++ h /\
    forall post sink rts res older,
      d = post ++ SinkUpdateResolvedTs sink rts res :: older ->
      sink = tableSink t /\
      exists size older',
        older = Record_ (tableID t) rts size :: older' /\
        (splitTxn w = true ->
         model.Mode rts = model.BatchResolvedMode /\
         exists older'',
           older' = AllocateBatchID (tableID t) (model.BatchID rts) :: older'').
Proof.
  destruct (runTask_taskRun env w t h) as (d & E & R).
  exists d. split; [exact E | ].
  intros post sink rts res older Ed.
  destruct (recordedFirst_split w t d (taskRun_recordedFirst _ _ _ _ _ _ _ R)
              _ _ _ _ _ Ed) as (Es & Em & size & older' & ->).
  split; [exact Es | ]. exists size, (allocEntries w t rts ++ older').
  split; [reflexivity | ]. intros S.
  unfold modeOf in Em. unfold allocEntries. rewrite S in *.
  split; [exact Em | ]. exists older'. reflexivity.
Qed.

Lemma published_after_record_witness :
  exists d post rts res size older'',
    snd (runTask (exampleEnv 100 20 [boundary 10] always) (exampleWorker true 2)
                 exampleTask []) = d ++ [] /\
    d = post ++ SinkUpdateResolvedTs 1%nat rts res
          :: Record_ 1 rts size :: AllocateBatchID 1 (model.BatchID rts) :: older'' /\
    model.Mode rts = model.BatchResolvedMode.
Proof.
  destruct (published_after_record (exampleEnv 100 20 [boundary 10] always)
              (exampleWorker true 2) exampleTask []) as (d & E & P).
  pose proof E as E'. rewrite app_nil_r in E'. vm_compute in E'. subst d.
  match type of E with
  | _ = (?a :: ?b :: ?c :: SinkUpdateResolvedTs ?s ?r ?x :: ?o) ++ [] =>
      destruct (P [a; b; c] s r x o eq_refl) as (_ & size & older' & Eo & S);
      destruct (S eq_refl) as (Em & older'' & Eo');
      exists (a :: b :: c :: SinkUpdateResolvedTs s r x :: o), [a; b; c], r, x,
             size, older''
  end.
  split; [exact E | ]. split; [ | exact Em ].
  rewrite Eo, Eo'. reflexivity.
Defined.

(** X2: A worker that does not split transactions never resets nor allocates
    a batch identifier. *)
Theorem no_batch_id_without_split env w t h :
  splitTxn w = false ->
  exists d, snd (runTask env w t h) = d ++ h /\ Forall noBatchID d.
Proof.
  intros S. destruct (runTask_taskRun env w t h) as (d & E & R).
  exists d. split; [exact E | ].
  revert R. apply taskRun_inv.
  - intros c h' Hc H. constructor; [ | exact H ]. destruct c; simpl in *; tauto.
  - intros h' H. unfold resetEntries. now rewrite S.
  - intros ts size r' dP h' R H. inv R. unfold allocEntries. rewrite S.
    simpl. repeat (constructor; [exact I | ]). exact H.
  - intros B. repeat constructor.
  - intros l c h' H. simpl. repeat (constructor; [exact I | ]). exact H.
Qed.

Lemma no_batch_id_without_split_witness :
  exists d,
    snd (runTask (exampleEnv 100 20 [inside 10; boundary 10] always)
                 (exampleWorker false 2) exampleTask []) = d ++ [] /\
    Forall noBatchID d.
Proof.
  apply (no_batch_id_without_split (exampleEnv 100 20 [inside 10; boundary 10] always)
           (exampleWorker false 2) exampleTask []).
  reflexivity.
Defined.

(** ** A flush emits the whole batch or nothing *)

Lemma verifyEvents_calls env t evs : forall size acc h,
  (exists split,
     map fst split = evs /\
     verifyEvents env t evs size acc h
     = (Ok (batchBytes evs size, acc ++ List.concat (map snd split)),
        rev (verifyCalls (tableSink t) split) ++ h)) \/
  (exists split e rest err,
     evs = map fst split ++ e :: rest /\
     verifyEvents env t evs size acc h
     = (Err err,
        VerifyAndTrySplitEvent (tableSink t) e (inl err)
          :: rev (verifyCalls (tableSink t) split) ++ h)).
Proof.
  induction evs as [| e evs IH]; intros size acc h; simpl.
  - left. exists []. simpl. now rewrite app_nil_r.
  - destruct (verifyAndTrySplitEvent env h (tableSink t) e) as [err | rs] eqn:V.
    + right. exists [], e, evs, err. auto.
    + destruct (IH (wrapInt (size + bytesOf e)) (acc ++ rs)
                  (VerifyAndTrySplitEvent (tableSink t) e (inr rs) :: h))
        as [(split & Es & ->) | (split & e' & rest & err & Es & ->)].
      * left. exists ((e, rs) :: split). simpl. split; [now rewrite Es | ].
        now rewrite <- !app_assoc.
      * right. exists ((e, rs) :: split), e', rest, err. simpl.
        split; [now rewrite Es | ]. now rewrite <- !app_assoc.
Qed.

(** X3: [emitEventsToTableSink] validates the events of the batch in their
    order.  When every validation succeeds it emits, in one call, the rows
    of the events in that order, and returns the size of the batch.  When
    a validation answers an error it returns the error without validating
    the events after that one and without emitting a row, not even the rows
    of the events validated before. *)
Theorem emit_whole_or_nothing env t evs h :
  (exists split,
     map fst split = evs /\
     emitEventsToTableSink env t evs h
     = (Ok (emitSize evs),
        EmitRowChangedEvent (tableSink t) evs (List.concat (map snd split))
          :: rev (verifyCalls (tableSink t) split) ++ h)) \/
  (exists split e rest err,
     evs = map fst split ++ e :: rest /\
     emitEventsToTableSink env t evs h
     = (Err err,
        VerifyAndTrySplitEvent (tableSink t) e (inl err)
          :: rev (verifyCalls (tableSink t) split) ++ h)).
Proof.
  unfold emitEventsToTableSink, bind.
  destruct (verifyEvents_calls env t evs 0 [] h)
    as [(split & Es & ->) | (split & e & rest & err & Es & ->)].
  - left. exists split. split; [exact Es | reflexivity].
  - right. exists split, e, rest, err. split; [exact Es | reflexivity].
Qed.

(** ** The events are flushed in the order of the cursor *)

Lemma consumed_cons c h :
  consumed (c :: h)
  = consumed h ++ match c with
                  | IterNext (Some (sorter.ItEvent e _)) => [e]
                  | _ => []
                  end.
Proof. unfold consumed. now rewrite proj_cons. Qed.

Lemma emitted_cons c h :
  emitted (c :: h)
  = emitted h ++ match c with EmitRowChangedEvent _ batch _ => batch | _ => [] end.
Proof. unfold emitted. now rewrite proj_cons. Qed.

Lemma kept_mute_cons evs c h : mute c -> kept evs h -> kept evs (c :: h).
Proof.
  intros Hc [K O].
  assert (K' : consumed (c :: h) = emitted (c :: h) ++ evs).
  { rewrite consumed_cons, emitted_cons, K.
    destruct c as [| | [[e pos | err] |] | | | | | | | | | | |];
      simpl in Hc; try contradiction; now rewrite !app_nil_r. }
  split; [exact K' | ]. split; [eauto | exact O].
Qed.

Lemma kept_mute evs d h : Forall mute d -> kept evs h -> kept evs (d ++ h).
Proof. induction 1 as [| c d Hc F IH]; intros K; simpl; auto using kept_mute_cons. Qed.

Lemma kept_next evs e pos h :
  kept evs h -> kept (evs ++ [e]) (IterNext (Some (sorter.ItEvent e pos)) :: h).
Proof.
  intros [K O].
  assert (K' : consumed (IterNext (Some (sorter.ItEvent e pos)) :: h)
               = emitted (IterNext (Some (sorter.ItEvent e pos)) :: h) ++ evs ++ [e]).
  { rewrite consumed_cons, emitted_cons, K. now rewrite app_nil_r, app_assoc. }
  split; [exact K' | ]. split; [eauto | exact O].
Qed.

Lemma kept_emit evs sink rows h :
  kept evs h -> kept [] (EmitRowChangedEvent sink evs rows :: h).
Proof.
  intros [K O].
  assert (K' : consumed (EmitRowChangedEvent sink evs rows :: h)
               = emitted (EmitRowChangedEvent sink evs rows :: h) ++ []).
  { rewrite consumed_cons, emitted_cons, K. now rewrite !app_nil_r. }
  split; [exact K' | ]. split; [eauto | exact O].
Qed.

Lemma orderly_split d :
  orderly d ->
  forall post older, d = post ++ older ->
    exists rest, consumed older = emitted older ++ rest.
Proof.
  intros O post. revert d O.
  induction post as [| c post IH]; intros d O older ->.
  - destruct older as [| c older]; [exists []; reflexivity | ]. apply O.
  - apply (IH (post ++ older)); [apply O | reflexivity].
Qed.

Lemma sinkCall_mute vs : Forall isVerify vs -> Forall mute vs.
Proof. intros F. eapply Forall_impl; [ | exact F ]. intros []; simpl; tauto. Qed.

Section Ordering.

Variable env : Env.
Variable w : workerImpl.
Variable t : tableSinkTask.

Lemma flushRun_kept evs r d h :
  flushRun t evs r d -> kept evs h ->
  match r with
  | Ok _ => kept [] (d ++ h)
  | _ => kept evs (d ++ h)
  end.
Proof.
  intros R K. inv R; simpl.
  - apply kept_mute_cons; [exact I | ]. apply kept_mute; [now apply sinkCall_mute | exact K].
  - apply kept_emit. apply kept_mute; [now apply sinkCall_mute | exact K].
Qed.

Lemma publishRun_kept ts size r d evs h :
  publishRun w t ts size r d -> kept evs h -> kept evs (d ++ h).
Proof.
  intros R K. inv R. apply kept_mute; [ | exact K ].
  unfold allocEntries. destruct (splitTxn w); repeat constructor.
Qed.

Lemma largeRun_kept ts lts r d evs h :
  largeRun w t ts lts r d -> kept evs h -> kept evs (d ++ h).
Proof. intros R K. inv R; eauto using publishRun_kept. Qed.

Lemma resetEntries_mute : Forall mute (resetEntries w t).
Proof. unfold resetEntries. destruct (splitTxn w); repeat constructor. Qed.

Lemma consumeRun_kept e pos l r d h :
  consumeRun env e l r d -> kept (events l) h ->
  match r with
  | Ok l1 => kept (events l1) (d ++ IterNext (Some (sorter.ItEvent e pos)) :: h)
  | _ => exists evs, kept evs (d ++ IterNext (Some (sorter.ItEvent e pos)) :: h)
  end.
Proof.
  intros R K. inv R.
  - simpl. apply kept_mute; [apply Forall_repeat; exact I | now apply kept_next].
  - eexists. apply kept_mute; [apply Forall_repeat; exact I | ].
    apply kept_next. exact K.
Qed.

Lemma batchRun_kept e l r d h :
  batchRun w t e l r d -> kept (events l) h ->
  match r with
  | Ok l' => kept (events l') (d ++ h)
  | _ => exists evs, kept evs (d ++ h)
  end.
Proof.
  intros R K.
  inversion R as [C Er Ed | err dF C F Er Ed | size dF err dL C F G Er Ed
                  | size dF lts dL C F G Er Ed]; subst; simpl;
    rewrite <- ?app_assoc.
  - exact K.
  - eexists. apply (flushRun_kept _ _ _ _ F K).
  - eexists. apply (largeRun_kept _ _ _ _ _ _ G), (flushRun_kept _ _ _ _ F K).
  - apply (largeRun_kept _ _ _ _ _ _ G), (flushRun_kept _ _ _ _ F K).
Qed.

Lemma boundaryRun_kept e pos l r d h :
  boundaryRun w t e pos l r d -> kept (events l) h ->
  match r with
  | Ok (_, l') => kept (events l') (d ++ h)
  | _ => exists evs, kept evs (d ++ h)
  end.
Proof.
  intros R K.
  pose proof (kept_mute _ _ _ resetEntries_mute K) as K0.
  inversion R as [err dF F Er Ed | size dF err dL F G Er Ed | size dF lts dL F G Er Ed
                  | size dF lts dL dP F G Pb Er Ed | size dF lts dL err dP F G Pb Er Ed];
    subst; simpl; rewrite <- ?app_assoc; simpl; rewrite <- ?app_assoc.
  - eexists. apply (flushRun_kept _ _ _ _ F K0).
  - eexists. apply (largeRun_kept _ _ _ _ _ _ G), (flushRun_kept _ _ _ _ F K0).
  - apply kept_mute_cons; [exact I | ].
    apply (largeRun_kept _ _ _ _ _ _ G), (flushRun_kept _ _ _ _ F K0).
  - apply (publishRun_kept _ _ _ _ _ _ Pb). apply kept_mute_cons; [exact I | ].
    apply (largeRun_kept _ _ _ _ _ _ G), (flushRun_kept _ _ _ _ F K0).
  - eexists. apply (publishRun_kept _ _ _ _ _ _ Pb). apply kept_mute_cons; [exact I | ].
    apply (largeRun_kept _ _ _ _ _ _ G), (flushRun_kept _ _ _ _ F K0).
Qed.

Lemma bodyRun_kept e pos l b d h :
  bodyRun env w t e pos l b d -> kept (events l) h ->
  match b with
  | Goes l' | Stops l' =>
      kept (events l') (d ++ IterNext (Some (sorter.ItEvent e pos)) :: h)
  | _ => exists evs, kept evs (d ++ IterNext (Some (sorter.ItEvent e pos)) :: h)
  end.
Proof.
  intros R K.
  inversion R as [d0 C Eb Ed | l1 d0 l2 dS C V S Eb Ed | l1 d0 err dS C V S Eb Ed
                  | l1 d0 err dB C V Bd Eb Ed | l1 d0 l2 dB C V Bd Eb Ed
                  | l1 d0 l2 dB l3 dS C V Bd S Eb Ed
                  | l1 d0 l2 dB err dS C V Bd S Eb Ed];
    subst; rewrite <- ?app_assoc;
    pose proof (consumeRun_kept _ pos _ _ _ _ C K) as K1; simpl in K1.
  - exact K1.
  - apply (batchRun_kept _ _ _ _ _ S K1).
  - apply (batchRun_kept _ _ _ _ _ S K1).
  - apply (boundaryRun_kept _ _ _ _ _ _ Bd K1).
  - apply (boundaryRun_kept _ _ _ _ _ _ Bd K1).
  - apply (batchRun_kept _ _ _ _ _ S), (boundaryRun_kept _ _ _ _ _ _ Bd K1).
  - apply (batchRun_kept _ _ _ _ _ S), (boundaryRun_kept _ _ _ _ _ _ Bd K1).
Qed.

Lemma loopRun_kept items l r d :
  loopRun env w t items l r d ->
  forall h, kept (events l) h ->
    exists evs,
      kept evs (d ++ h) /\
      forall l', r = Exhausted l' \/ r = Stopped l' -> evs = events l'.
Proof.
  induction 1 as [l | err rest l | e pos rest l l1 d B | e pos rest l err d B
                  | e pos rest l d B | e pos rest l l1 d r d' B R IH];
    intros h K; rewrite <- ?app_assoc; simpl;
    try pose proof (bodyRun_kept _ _ _ _ _ h B K) as K1; simpl in *.
  - exists (events l). split; [now apply kept_mute_cons | ].
    intros l' [E | E]; now inv E.
  - exists (events l). split; [now apply kept_mute_cons | ].
    intros l' [E | E]; discriminate.
  - exists (events l1). split; [exact K1 | ]. intros l' [E | E]; now inv E.
  - destruct K1 as (evs & K1). exists evs. split; [exact K1 | ].
    intros l' [E | E]; discriminate.
  - destruct K1 as (evs & K1). exists evs. split; [exact K1 | ].
    intros l' [E | E]; discriminate.
  - apply IH. exact K1.
Qed.

Lemma taskRun_kept B items r d :
  taskRun env w t B items r d -> exists evs, kept evs d.
Proof.
  assert (K0 : kept (events (initLocals env)) (openEntries t B)).
  { split; [reflexivity | ]. simpl. repeat split; exists []; reflexivity. }
  intros R.
  inversion R as [l dl c Lp | l dl c Lp | err dl Lp | dl Lp]; subst;
    destruct (loopRun_kept _ _ _ _ Lp _ K0) as (evs & K & _); exists evs;
    try exact K;
    apply (kept_mute evs (endEntries t l c)); try exact K; repeat constructor.
Qed.

Lemma sinceBoundary_inBody d h :
  Forall inBody d -> sinceBoundary env (d ++ h) = sinceBoundary env h.
Proof.
  induction 1 as [| c d Hc F IH]; [reflexivity | ].
  simpl. destruct c as [| | [[e pos | err] |] | | | | | | | | | | |];
    simpl in Hc; try contradiction; exact IH.
Qed.

Lemma batchRun_idle e l r d :
  flushesAtBoundaries w -> batchCount l = 0 -> batchRun w t e l r d ->
  r = Ok l /\ d = [].
Proof.
  intros Hw Hc R.
  assert (C : splitTxn w && (batchSize w <=? wrapU64 (batchCount l)) = false).
  { rewrite Hc. destruct Hw as [-> | Hb]; [reflexivity | ].
    apply andb_false_iff. right. apply Z.leb_gt. change (wrapU64 0) with 0. lia. }
  inv R; try congruence. split; reflexivity.
Qed.

Lemma boundaryRun_events e pos l c l' d :
  boundaryRun w t e pos l (Ok (c, l')) d ->
  events l' = [] /\ batchCount l' = batchCount l.
Proof. intros R. inv R; split; reflexivity. Qed.

Lemma bodyRun_tail e pos l b d h :
  flushesAtBoundaries w ->
  bodyRun env w t e pos l b d ->
  batchCount l = 0 -> events l = sinceBoundary env h ->
  forall l', b = Goes l' \/ b = Stops l' ->
    batchCount l' = 0 /\
    events l' = sinceBoundary env (d ++ IterNext (Some (sorter.ItEvent e pos)) :: h).
Proof.
  intros Hw R Hc He l' Hb.
  rewrite (sinceBoundary_inBody d _ (bodyRun_inBody _ _ _ _ _ _ _ _ R)). simpl.
  inversion R as [d0 C Eb Ed | l1 d0 l2 dS C V S Eb Ed | l1 d0 err dS C V S Eb Ed
                  | l1 d0 err dB C V Bd Eb Ed | l1 d0 l2 dB C V Bd Eb Ed
                  | l1 d0 l2 dB l3 dS C V Bd S Eb Ed
                  | l1 d0 l2 dB err dS C V Bd S Eb Ed];
    subst; destruct Hb as [Hb | Hb]; try discriminate; inv Hb; rewrite V;
    inv C; simpl in *.
  - match goal with
    | S : batchRun _ _ _ ?x _ _ |- _ =>
        destruct (batchRun_idle _ x _ _ Hw Hc S) as [E _]
    end.
    inv E. simpl. now rewrite He.
  - apply boundaryRun_events in Bd. simpl in Bd. destruct Bd as [-> ->]. auto.
  - apply boundaryRun_events in Bd. simpl in Bd. destruct Bd as [E1 E2].
    rewrite Hc in E2.
    destruct (batchRun_idle _ _ _ _ Hw E2 S) as [E _]. inv E. auto.
Qed.

Lemma loopRun_tail items l r d :
  flushesAtBoundaries w ->
  loopRun env w t items l r d ->
  forall h, batchCount l = 0 -> events l = sinceBoundary env h ->
    forall l', r = Exhausted l' \/ r = Stopped l' ->
      events l' = sinceBoundary env (d ++ h).
Proof.
  intros Hw.
  induction 1 as [l | err rest l | e pos rest l l1 d B | e pos rest l err d B
                  | e pos rest l d B | e pos rest l l1 d r d' B R IH];
    intros h Hc He l' Hr; rewrite <- ?app_assoc; simpl.
  - destruct Hr as [E | E]; inv E. exact He.
  - destruct Hr as [E | E]; discriminate.
  - destruct Hr as [E | E]; inv E.
    apply (bodyRun_tail _ _ _ _ _ h Hw B Hc He). now right.
  - destruct Hr as [E | E]; discriminate.
  - destruct Hr as [E | E]; discriminate.
  - destruct (bodyRun_tail _ _ _ _ _ h Hw B Hc He l1 (or_introl eq_refl)) as [Hc1 He1].
    apply (IH _ Hc1 He1 _ Hr).
Qed.

Lemma taskRun_tail B items r d :
  flushesAtBoundaries w ->
  taskRun env w t B items r d ->
  forall c older, d = IterClose c :: older ->
    consumed d = emitted d ++ sinceBoundary env d.
Proof.
  assert (K0 : kept (events (initLocals env)) (openEntries t B)).
  { split; [reflexivity | ]. simpl. repeat split; exists []; reflexivity. }
  intros Hw R c0 older E.
  assert (done_ : forall l dl c,
             loopRun env w t items (initLocals env) (Exhausted l) dl \/
             loopRun env w t items (initLocals env) (Stopped l) dl ->
             consumed (endEntries t l c ++ dl ++ openEntries t B)
             = emitted (endEntries t l c ++ dl ++ openEntries t B)
               ++ sinceBoundary env (endEntries t l c ++ dl ++ openEntries t B)).
  { intros l dl c Lp.
    assert (exists r, loopRun env w t items (initLocals env) r dl /\
                      (r = Exhausted l \/ r = Stopped l)) as (r0 & Lp0 & Er).
    { destruct Lp as [Lp | Lp]; eauto. }
    destruct (loopRun_kept _ _ _ _ Lp0 _ K0) as (evs & K & El).
    rewrite (El l Er) in K.
    rewrite (loopRun_tail _ _ _ _ Hw Lp0 (openEntries t B) eq_refl eq_refl l Er) in K.
    apply (kept_mute _ (endEntries t l c)) in K; [ | repeat constructor ].
    apply K. }
  revert E.
  inversion R as [l dl c Lp | l dl c Lp | err dl Lp | dl Lp]; subst; auto; intros E.
  - apply loopRun_inLoop in Lp. destruct dl as [| x dl]; [discriminate | ].
    inv E. inv Lp. contradiction.
  - apply loopRun_inLoop in Lp. destruct dl as [| x dl]; [discriminate | ].
    inv E. inv Lp. contradiction.
Qed.

End Ordering.

(** X4: At every moment of a task, whatever its ending, the events flushed
    to the table sink so far are the first of the events read from the cursor
    so far, in the order of the cursor: the worker never flushes an event
    twice, never skips one and never reorders. *)
Theorem flushed_in_cursor_order :
  forall env w t h,
  exists d,
    snd (runTask env w t h) = d ++ h /\
    forall post older, d = post ++ older ->
      exists rest, consumed older = emitted older ++ rest.
Proof.
  intros env w t h.
  destruct (runTask_taskRun env w t h) as (d & E & R).
  exists d. split; [exact E | ].
  destruct (taskRun_kept _ _ _ _ _ _ _ R) as (evs & _ & O).
  now apply orderly_split.
Qed.

(** X5: When the worker flushes only at transaction boundaries (it does not
    split transactions, or its batch size is at least 1), a task that closes
    its cursor has flushed every event it read except the ones read after
    the last transaction boundary: exactly those are dropped. *)
Theorem unfinished_transaction_dropped :
  forall env w t h,
    flushesAtBoundaries w ->
    exists d,
      snd (runTask env w t h) = d ++ h /\
      forall c older, d = IterClose c :: older ->
        consumed d = emitted d ++ sinceBoundary env d.
Proof.
  intros env w t h Hw.
  destruct (runTask_taskRun env w t h) as (d & E & R).
  exists d. split; [exact E | ].
  eapply taskRun_tail; eassumption.
Qed.


Lemma unfinished_transaction_dropped_witness :
  exists d,
    snd (runTask (exampleEnv 100 20 [inside 10; boundary 10; inside 10] never)
                 (exampleWorker false 2) exampleTask []) = d ++ [] /\
    forall c older, d = IterClose c :: older ->
      consumed d
      = emitted d
        ++ sinceBoundary (exampleEnv 100 20 [inside 10; boundary 10; inside 10] never) d.
Proof.
  apply (unfinished_transaction_dropped
           (exampleEnv 100 20 [inside 10; boundary 10; inside 10] never)
           (exampleWorker false 2) exampleTask []).
  left. reflexivity.
Defined.


(** ** What is recorded with the quota *)

Lemma wrapU64_wrapInt z : wrapU64 (wrapInt z) = wrapU64 z.
Proof.
  destruct (wrapInt_cong z) as [q ->]. unfold wrapU64. apply Z_mod_plus_full.
Qed.

Lemma wrapU64_add a b : wrapU64 (wrapU64 a + wrapU64 b) = wrapU64 (a + b).
Proof. unfold wrapU64. now rewrite <- Zplus_mod. Qed.

Lemma wrapU64_twice a : wrapU64 (wrapU64 a) = wrapU64 a.
Proof. unfold wrapU64. apply Zmod_mod. Qed.

Lemma wrapU64_paid a : wrapU64 (a - wrapU64 a) = 0.
Proof.
  unfold wrapU64. rewrite Zminus_mod, Zmod_mod, Z.sub_diag. reflexivity.
Qed.

Lemma batchBytes_sum evs : forall s,
  wrapU64 (batchBytes evs s) = wrapU64 (s + sumZ (map bytesOf evs)).
Proof.
  unfold batchBytes.
  induction evs as [| e evs IH]; intros s; simpl.
  - now rewrite Z.add_0_r.
  - rewrite IH. rewrite <- wrapU64_add, wrapU64_wrapInt, wrapU64_add.
    f_equal. ring.
Qed.

Lemma emittedBytes_cons c h :
  emittedBytes (c :: h)
  = emittedBytes h + match c with
                     | EmitRowChangedEvent _ batch _ => sumZ (map bytesOf batch)
                     | _ => 0
                     end.
Proof.
  unfold emittedBytes. rewrite emitted_cons, map_app, sumZ_app.
  destruct c; reflexivity.
Qed.

Lemma recordedBytes_cons c h :
  recordedBytes (c :: h)
  = recordedBytes h + match c with Record_ _ _ size => size | _ => 0 end.
Proof.
  unfold recordedBytes. rewrite proj_cons, sumZ_app.
  destruct c; simpl; ring.
Qed.

Lemma owed_cons lts c h : unrecorded c -> owed lts h -> owed lts (c :: h).
Proof.
  intros Hc [E O]. split.
  - rewrite emittedBytes_cons, recordedBytes_cons.
    destruct c; simpl in Hc; try contradiction; now rewrite !Z.add_0_r.
  - destruct c; simpl in Hc; try contradiction; exact O.
Qed.

Lemma owed_app lts d h : Forall unrecorded d -> owed lts h -> owed lts (d ++ h).
Proof. induction 1; intros O; simpl; auto using owed_cons. Qed.

Lemma isVerify_unrecorded vs : Forall isVerify vs -> Forall unrecorded vs.
Proof. intros F. eapply Forall_impl; [ | exact F ]. intros []; simpl; tauto. Qed.

Lemma recordsOK_split d :
  recordsOK d ->
  forall post tid rts size older,
    d = post ++ Record_ tid rts size :: older ->
    size = wrapU64 (emittedBytes older - recordedBytes older).
Proof.
  intros O post. revert d O.
  induction post as [| c post IH]; intros d O tid rts size older ->.
  - apply O.
  - apply (IH (post ++ Record_ tid rts size :: older)) with (tid := tid) (rts := rts);
      [ | reflexivity ].
    destruct c; simpl in O; tauto.
Qed.

Section Recording.

Variable env : Env.
Variable w : workerImpl.
Variable t : tableSinkTask.

Lemma flushRun_owed evs r d lts h :
  flushRun t evs r d -> owed lts h ->
  match r with
  | Ok size => owed (wrapU64 (lts + size)) (d ++ h)
  | _ => recordsOK (d ++ h)
  end.
Proof.
  intros R O. inv R; simpl.
  - apply (owed_app lts vs h); [now apply isVerify_unrecorded | exact O].
  - apply (owed_app lts vs h) in O; [ | now apply isVerify_unrecorded ].
    destruct O as [E O]. split; [ | exact O ].
    rewrite emittedBytes_cons, recordedBytes_cons, Z.add_0_r.
    unfold emitSize. rewrite batchBytes_sum, E, wrapU64_add.
    f_equal. ring.
Qed.

Lemma allocEntries_unrecorded rts : Forall unrecorded (allocEntries w t rts).
Proof. unfold allocEntries. destruct (splitTxn w); repeat constructor. Qed.

Lemma resetEntries_unrecorded : Forall unrecorded (resetEntries w t).
Proof. unfold resetEntries. destruct (splitTxn w); repeat constructor. Qed.

Lemma publishRun_owed ts lts r d h :
  publishRun w t ts lts r d -> owed lts h -> owed 0 (d ++ h).
Proof.
  intros R O. inv R. simpl.
  apply (owed_app lts _ h (allocEntries_unrecorded rts)) in O.
  destruct O as [E O].
  apply owed_cons; [exact I | ]. split.
  - rewrite emittedBytes_cons, recordedBytes_cons, Z.add_0_r. rewrite E.
    symmetry. rewrite Z.sub_add_distr. apply wrapU64_paid.
  - simpl. split; [exact E | exact O].
Qed.

Lemma largeRun_owed ts lts r d h :
  largeRun w t ts lts r d -> owed lts h ->
  match r with
  | Ok lts' => owed lts' (d ++ h) /\ lts' < maxUpdateIntervalSize
  | _ => recordsOK (d ++ h)
  end.
Proof.
  intros R O. inv R.
  - split; assumption.
  - split; [eapply publishRun_owed; eassumption | reflexivity].
  - eapply publishRun_owed; eassumption.
Qed.

Lemma consumeRun_owed e pos l l1 d h :
  consumeRun env e l (Ok l1) d -> owed (lastTotalSize l) h ->
  owed (lastTotalSize l1) (d ++ IterNext (Some (sorter.ItEvent e pos)) :: h) /\
  lastTotalSize l1 = lastTotalSize l.
Proof.
  intros R O. inv R. simpl. split; [ | reflexivity ].
  apply owed_app; [apply Forall_repeat; exact I | ]. now apply owed_cons.
Qed.

Lemma batchRun_owed e l r d h :
  batchRun w t e l r d -> owed (lastTotalSize l) h ->
  match r with
  | Ok l' => owed (lastTotalSize l') (d ++ h) /\
             (lastTotalSize l < maxUpdateIntervalSize ->
              lastTotalSize l' < maxUpdateIntervalSize)
  | _ => recordsOK (d ++ h)
  end.
Proof.
  intros R O.
  inversion R as [C Er Ed | err dF C F Er Ed | size dF err dL C F G Er Ed
                  | size dF lts dL C F G Er Ed]; subst; simpl;
    rewrite <- ?app_assoc;
    try pose proof (flushRun_owed _ _ _ _ h F O) as O1; simpl in *.
  - split; [exact O | tauto].
  - exact O1.
  - apply (largeRun_owed _ _ _ _ _ G O1).
  - destruct (largeRun_owed _ _ _ _ _ G O1) as [O2 L]. split; [exact O2 | tauto].
Qed.

Lemma boundaryRun_owed e pos l r d h :
  boundaryRun w t e pos l r d -> owed (lastTotalSize l) h ->
  match r with
  | Ok (c, l') => owed (lastTotalSize l') (d ++ h) /\
                  lastTotalSize l' < maxUpdateIntervalSize /\
                  (c = Break -> lastTotalSize l' = 0)
  | _ => recordsOK (d ++ h)
  end.
Proof.
  intros R O.
  pose proof (owed_app _ _ _ resetEntries_unrecorded O) as O0.
  inversion R as [err dF F Er Ed | size dF err dL F G Er Ed | size dF lts dL F G Er Ed
                  | size dF lts dL dP F G Pb Er Ed | size dF lts dL err dP F G Pb Er Ed];
    subst; simpl; rewrite <- ?app_assoc; simpl; rewrite <- ?app_assoc;
    pose proof (flushRun_owed _ _ _ _ _ F O0) as O1; simpl in O1;
    try pose proof (largeRun_owed _ _ _ _ _ G O1) as O2; simpl in *.
  - exact O1.
  - exact O2.
  - destruct O2 as [O2 L]. repeat split; try assumption; try discriminate.
    + rewrite emittedBytes_cons, recordedBytes_cons, !Z.add_0_r. apply O2.
    + apply O2.
  - destruct O2 as [O2 L].
    apply (owed_cons _ (IsExceed true)) in O2; [ | exact I ].
    pose proof (publishRun_owed _ _ _ _ _ Pb O2) as O3.
    repeat split; try apply O3; reflexivity.
  - destruct O2 as [O2 L].
    apply (owed_cons _ (IsExceed true)) in O2; [ | exact I ].
    apply (publishRun_owed _ _ _ _ _ Pb O2).
Qed.

Lemma bodyRun_owed e pos l b d h :
  bodyRun env w t e pos l b d -> owed (lastTotalSize l) h ->
  match b with
  | Goes l' =>
      owed (lastTotalSize l') (d ++ IterNext (Some (sorter.ItEvent e pos)) :: h) /\
      (lastTotalSize l < maxUpdateIntervalSize ->
       lastTotalSize l' < maxUpdateIntervalSize)
  | Stops l' =>
      owed (lastTotalSize l') (d ++ IterNext (Some (sorter.ItEvent e pos)) :: h) /\
      lastTotalSize l' = 0
  | Aborts _ => recordsOK (d ++ IterNext (Some (sorter.ItEvent e pos)) :: h)
  | Spins => recordsOK (d ++ IterNext (Some (sorter.ItEvent e pos)) :: h)
  end.
Proof.
  intros R O.
  inversion R as [d0 C Eb Ed | l1 d0 l2 dS C V S Eb Ed | l1 d0 err dS C V S Eb Ed
                  | l1 d0 err dB C V Bd Eb Ed | l1 d0 l2 dB C V Bd Eb Ed
                  | l1 d0 l2 dB l3 dS C V Bd S Eb Ed
                  | l1 d0 l2 dB err dS C V Bd S Eb Ed];
    subst; rewrite <- ?app_assoc;
    try (destruct (consumeRun_owed _ pos _ _ _ _ C O) as [O1 E1]);
    try pose proof (boundaryRun_owed _ _ _ _ _ _ Bd O1) as O2; simpl in *.
  - inv C.
    apply (owed_app (lastTotalSize l)); [apply Forall_repeat; exact I | ].
    now apply owed_cons.
  - pose proof (batchRun_owed _ _ _ _ _ S O1) as O2. simpl in O2.
    rewrite E1 in O2. exact O2.
  - apply (batchRun_owed _ _ _ _ _ S O1).
  - exact O2.
  - destruct O2 as (O2 & _ & Z0). split; [exact O2 | now apply Z0].
  - destruct O2 as (O2 & L & _).
    pose proof (batchRun_owed _ _ _ _ _ S O2) as O3. simpl in O3.
    split; [apply O3 | intros _; now apply O3].
  - destruct O2 as (O2 & L & _).
    apply (batchRun_owed _ _ _ _ _ S O2).
Qed.

Lemma loopRun_owed items l r d :
  loopRun env w t items l r d ->
  forall h, owed (lastTotalSize l) h ->
    recordsOK (d ++ h) /\
    forall l', r = Exhausted l' \/ r = Stopped l' ->
      owed (lastTotalSize l') (d ++ h) /\
      (lastTotalSize l < maxUpdateIntervalSize ->
       lastTotalSize l' < maxUpdateIntervalSize) /\
      (r = Stopped l' -> lastTotalSize l' = 0).
Proof.
  induction 1 as [l | err rest l | e pos rest l l1 d B | e pos rest l err d B
                  | e pos rest l d B | e pos rest l l1 d r d' B R IH];
    intros h O; rewrite <- ?app_assoc; simpl;
    try pose proof (bodyRun_owed _ _ _ _ _ h B O) as O1; simpl in *.
  - split; [apply O | ]. intros l' [E | E]; inv E.
    repeat split; try tauto; try discriminate.
    + rewrite emittedBytes_cons, recordedBytes_cons, !Z.add_0_r. apply O.
    + apply O.
  - split; [apply O | ]. intros l' [E | E]; discriminate.
  - destruct O1 as [O1 Z0]. split; [apply O1 | ].
    intros l' [E | E]; inv E. split; [exact O1 | ].
    split; [intros _; rewrite Z0; reflexivity | intros _; exact Z0].
  - split; [exact O1 | ]. intros l' [E | E]; discriminate.
  - split; [exact O1 | ]. intros l' [E | E]; discriminate.
  - destruct O1 as [O1 L1]. destruct (IH _ O1) as [Q1 Q2].
    split; [exact Q1 | ]. intros l' Hr. destruct (Q2 l' Hr) as (P1 & P2 & P3).
    repeat split; try apply P1; tauto.
Qed.

Lemma taskRun_owed B items r d :
  taskRun env w t B items r d ->
  recordsOK d /\
  forall c older, d = IterClose c :: older ->
    wrapU64 (emittedBytes d - recordedBytes d) < maxUpdateIntervalSize /\
    (In (IsExceed true) d -> wrapU64 (emittedBytes d - recordedBytes d) = 0).
Proof.
  assert (O0 : owed (lastTotalSize (initLocals env)) (openEntries t B)).
  { split; [reflexivity | exact I]. }
  assert (E0 : forall l c, Forall unrecorded (endEntries t l c)).
  { intros l c. repeat constructor. }
  intros R.
  inversion R as [l dl c Lp | l dl c Lp | err dl Lp | dl Lp]; subst;
    destruct (loopRun_owed _ _ _ _ Lp _ O0) as [Q1 Q2].
  - destruct (Q2 l (or_introl eq_refl)) as (P1 & P2 & _).
    pose proof (owed_app _ _ _ (E0 l c) P1) as [P3 P4].
    split; [exact P4 | ]. intros _ _ _. rewrite <- P3.
    split; [apply P2; reflexivity | ].
    intros Hin. exfalso. simpl in Hin.
    destruct Hin as [Hin | [Hin | [Hin | Hin]]]; try discriminate.
    apply in_app_or in Hin. destruct Hin as [Hin | Hin].
    + apply in_split in Hin. destruct Hin as (post & older & Hd).
      destruct (@loopRun_exceed env w t _ _ _ _ Lp post older Hd)
        as (e & pos & lts & _ & _ & [(l' & Er & _) | (err & Er & _)]); discriminate.
    + destruct Hin as [Hin | [Hin | []]]; discriminate.
  - destruct (Q2 l (or_intror eq_refl)) as (P1 & P2 & P5).
    pose proof (owed_app _ _ _ (E0 l c) P1) as [P3 P4].
    split; [exact P4 | ]. intros _ _ _. rewrite <- P3.
    split; [apply P2; reflexivity | ]. intros _. now apply P5.
  - split; [exact Q1 | ]. intros c older E.
    apply loopRun_inLoop in Lp. destruct dl as [| x dl]; [discriminate | ].
    inv E. inv Lp. contradiction.
  - split; [exact Q1 | ]. intros c older E.
    apply loopRun_inLoop in Lp. destruct dl as [| x dl]; [discriminate | ].
    inv E. inv Lp. contradiction.
Qed.

End Recording.

(** X6: Whatever the sizes of the events and however a task ends, each amount
    it records with the quota is, modulo 2^64, the bytes of the events it
    flushed and had not recorded before.  When the task closes its cursor,
    the bytes flushed and not recorded are, modulo 2^64, less than
    [maxUpdateIntervalSize], and none when the quota answered that it is
    exceeded. *)
Theorem records_cover_flushed :
  forall env w t h,
  exists d,
    snd (runTask env w t h) = d ++ h /\
    (forall post tid rts size older,
       d = post ++ Record_ tid rts size :: older ->
       size = wrapU64 (emittedBytes older - recordedBytes older)) /\
    (forall c older, d = IterClose c :: older ->
       wrapU64 (emittedBytes d - recordedBytes d) < maxUpdateIntervalSize /\
       (In (IsExceed true) d -> wrapU64 (emittedBytes d - recordedBytes d) = 0)).
Proof.
  intros env w t h.
  destruct (runTask_taskRun env w t h) as (d & E & R).
  exists d. split; [exact E | ].
  destruct (taskRun_owed _ _ _ _ _ _ _ R) as [O C].
  split; [now apply recordsOK_split | exact C].
Qed.


(** ** The resolved timestamps do not go back *)










(** ** A task does not hoard *)

Lemma taskRun_thrifty env w t B items r d :
  0 < defaultMemoryUsage env <= maxInt ->
  Forall (itemOK env) items ->
  taskRun env w t B items r d ->
  forall n, In (Refund n) d ->
    n <= defaultMemoryUsage env /\ acquired d <= consumedBytes d.
Proof.
  intros HD Fi R.
  assert (B0 : balanced env (availableMem (initLocals env)) (openEntries t B)).
  { unfold balanced. cbn. lia. }
  assert (N : forall dl, Forall inLoop dl -> forall n, ~ In (Refund n) (dl ++ openEntries t B)).
  { intros dl F n Hin. apply in_app_or in Hin. destruct Hin as [Hin | Hin].
    - rewrite Forall_forall in F. exact (F _ Hin).
    - simpl in Hin. destruct Hin as [Hin | [Hin | []]]; discriminate. }
  assert (D : forall dl l c,
            Forall inLoop dl ->
            balanced env (availableMem l) (dl ++ openEntries t B) ->
            forall n, In (Refund n) (endEntries t l c ++ dl ++ openEntries t B) ->
              n <= defaultMemoryUsage env /\
              acquired (endEntries t l c ++ dl ++ openEntries t B)
              <= consumedBytes (endEntries t l c ++ dl ++ openEntries t B)).
  { intros dl l c F (B1 & B2 & B3) n Hin.
    assert (U : wrapU64 (availableMem l) = availableMem l).
    { apply wrapU64_id. unfold isUint64, maxUint64, maxInt in *. lia. }
    simpl in Hin. destruct Hin as [Hin | [Hin | [Hin | Hin]]]; try discriminate;
      [ | exfalso; exact (N dl F n Hin) ].
    inv Hin. rewrite U.
    rewrite acquired_app, consumedBytes_app.
    change (acquired (endEntries t l c)) with 0.
    change (consumedBytes (endEntries t l c)) with 0.
    lia. }
  inversion R as [l dl c Lp | l dl c Lp | err dl Lp | dl Lp]; subst;
    pose proof (loopRun_inLoop _ _ _ _ _ _ _ Lp) as F.
  - apply D; [exact F | ]. eapply loopRun_balanced; eauto.
  - apply D; [exact F | ]. eapply loopRun_balanced; eauto.
  - intros n Hin. exfalso. exact (N dl F n Hin).
  - intros n Hin. exfalso. exact (N dl F n Hin).
Qed.

(** X8: In a task whose events have sizes that are not negative and fit an
    [int] together with one grant unit, the amount refunded is at most the
    one grant unit the task starts with: the bytes the task force-acquired
    are all used by the events it read. *)
Theorem refund_at_most_one_unit env w t h :
  0 < defaultMemoryUsage env <= maxInt ->
  (forall h' tid lower upper, Forall (itemOK env) (fetchByTable env h' tid lower upper)) ->
  exists d,
    snd (runTask env w t h) = d ++ h /\
    forall n, In (Refund n) d ->
      n <= defaultMemoryUsage env /\ acquired d <= consumedBytes d.
Proof.
  intros HD Hitems.
  destruct (runTask_taskRun env w t h) as (d & E & R).
  exists d. split; [exact E | ].
  eapply taskRun_thrifty; [exact HD | apply Hitems | exact R].
Qed.

Lemma refund_at_most_one_unit_witness :
  exists d,
    snd (runTask (exampleEnv 100 20 [inside 70; boundary 60; inside 40] never)
                 (exampleWorker false 2) exampleTask []) = d ++ [] /\
    30 <= 100 /\ acquired d <= consumedBytes d.
Proof.
  destruct (refund_at_most_one_unit
              (exampleEnv 100 20 [inside 70; boundary 60; inside 40] never)
              (exampleWorker false 2) exampleTask []) as (d & E & F).
  - change (0 < 100 <= 2 ^ 63 - 1). lia.
  - intros h' tid lower upper. repeat constructor; cbv; intros X; discriminate X.
  - exists d. split; [exact E | ]. apply F.
    rewrite app_nil_r in E. rewrite <- E. vm_compute. tauto.
Defined.


(** ** The tasks are served in the order they are received *)

Lemma callbackHandles_app d h :
  callbackHandles (d ++ h) = callbackHandles h ++ callbackHandles d.
Proof. unfold callbackHandles. apply proj_app. Qed.

Lemma callbackHandles_inLoop d : Forall inLoop d -> callbackHandles d = [].
Proof.
  intros F. unfold callbackHandles. apply proj_none.
  eapply Forall_impl; [ | exact F ]. intros []; simpl; tauto.
Qed.

Lemma taskRun_callbacks env w t B items r d :
  taskRun env w t B items r d ->
  (r = Ok tt -> callbackHandles d = [callback t]) /\
  (callbackHandles d = [callback t] \/ callbackHandles d = []).
Proof.
  assert (D : forall l c dl, Forall inLoop dl ->
            callbackHandles (endEntries t l c ++ dl ++ openEntries t B) = [callback t]).
  { intros l c dl F. rewrite !callbackHandles_app, (callbackHandles_inLoop dl F).
    reflexivity. }
  assert (N : forall dl, Forall inLoop dl -> callbackHandles (dl ++ openEntries t B) = []).
  { intros dl F. rewrite callbackHandles_app, (callbackHandles_inLoop dl F). reflexivity. }
  intros R.
  inversion R as [l dl c Lp | l dl c Lp | err dl Lp | dl Lp]; subst;
    pose proof (loopRun_inLoop _ _ _ _ _ _ _ Lp) as F.
  - rewrite (D l c dl F). auto.
  - rewrite (D l c dl F). auto.
  - rewrite (N dl F). split; [discriminate | auto].
  - rewrite (N dl F). split; [discriminate | auto].
Qed.

(** X9: [run] serves the tasks in the order the channel delivers them, one at a
    time: it runs the first [m] tasks of the channel and no other, each from
    the history the one before left, and calls back the first [n] of them,
    each once, in that order.  Every task run but the last returned [nil]:
    [run] starts no task after one that returned an error, and the error
    [run] returns is the error of the last task it ran.  When [run] does not
    return an error every task it ran returned [nil] and was called back;
    it blocks only with [closedChan] open and every task delivered called
    back; it returns [nil] only with [closedChan] closed. *)
Theorem run_serves_in_order :
  forall env w taskChan h,
  exists d n m,
    snd (run env w taskChan h) = d ++ h /\
    (n <= m <= List.length taskChan)%nat /\ (m <= S n)%nat /\
    callbackHandles d = map callback (firstn n taskChan) /\
    d ++ h = historyAfter env w (firstn m taskChan) h /\
    allNil env w (firstn (pred m) taskChan) h /\
    (forall x, fst (run env w taskChan h) = Ok x ->
       n = m /\ allNil env w (firstn m taskChan) h) /\
    (forall e, fst (run env w taskChan h) = Err e ->
       exists t,
         nth_error taskChan (pred m) = Some t /\ (0 < m)%nat /\
         fst (runTask env w t (historyAfter env w (firstn (pred m) taskChan) h))
         = Err e) /\
    (fst (run env w taskChan h) = Ok Blocked ->
     n = List.length taskChan /\ closedChan w = ChanOpen) /\
    (fst (run env w taskChan h) = Ok ReturnNil -> closedChan w = ChanClosed).
Proof.
  intros env w taskChan.
  induction taskChan as [| t rest IH]; intros h.
  - exists [], 0%nat, 0%nat. simpl. destruct (closedChan w) eqn:C; simpl;
      repeat split; try lia; try discriminate; auto.
  - assert (Stay : run env w (t :: rest) h = (Ok ReturnNil, h) ->
              closedChan w = ChanClosed ->
              exists d n m,
                snd (run env w (t :: rest) h) = d ++ h /\
                (n <= m <= List.length (t :: rest))%nat /\ (m <= S n)%nat /\
                callbackHandles d = map callback (firstn n (t :: rest)) /\
                d ++ h = historyAfter env w (firstn m (t :: rest)) h /\
                allNil env w (firstn (pred m) (t :: rest)) h /\
                (forall x, fst (run env w (t :: rest) h) = Ok x ->
                   n = m /\ allNil env w (firstn m (t :: rest)) h) /\
                (forall e, fst (run env w (t :: rest) h) = Err e ->
                   exists t',
                     nth_error (t :: rest) (pred m) = Some t' /\ (0 < m)%nat /\
                     fst (runTask env w t'
                            (historyAfter env w (firstn (pred m) (t :: rest)) h))
                     = Err e) /\
                (fst (run env w (t :: rest) h) = Ok Blocked ->
                 n = List.length (t :: rest) /\ closedChan w = ChanOpen) /\
                (fst (run env w (t :: rest) h) = Ok ReturnNil ->
                 closedChan w = ChanClosed)).
    { intros -> C. exists [], 0%nat, 0%nat. cbn [fst snd].
      repeat split; try (simpl; lia); try discriminate; auto. }
    assert (Go : run env w (t :: rest) h = (runTask env w t ;;; run env w rest) h ->
              exists d n m,
                snd (run env w (t :: rest) h) = d ++ h /\
                (n <= m <= List.length (t :: rest))%nat /\ (m <= S n)%nat /\
                callbackHandles d = map callback (firstn n (t :: rest)) /\
                d ++ h = historyAfter env w (firstn m (t :: rest)) h /\
                allNil env w (firstn (pred m) (t :: rest)) h /\
                (forall x, fst (run env w (t :: rest) h) = Ok x ->
                   n = m /\ allNil env w (firstn m (t :: rest)) h) /\
                (forall e, fst (run env w (t :: rest) h) = Err e ->
                   exists t',
                     nth_error (t :: rest) (pred m) = Some t' /\ (0 < m)%nat /\
                     fst (runTask env w t'
                            (historyAfter env w (firstn (pred m) (t :: rest)) h))
                     = Err e) /\
                (fst (run env w (t :: rest) h) = Ok Blocked ->
                 n = List.length (t :: rest) /\ closedChan w = ChanOpen) /\
                (fst (run env w (t :: rest) h) = Ok ReturnNil ->
                 closedChan w = ChanClosed)).
    { intros ->. unfold bind.
      destruct (runTask_taskRun env w t h) as (d1 & E1 & R1).
      apply taskRun_callbacks in R1. destruct R1 as [C1 C2].
      destruct (runTask env w t h) as [r1 h1] eqn:RT. cbn [fst snd] in *. subst h1.
      assert (One : firstn 1 (t :: rest) = [t]) by reflexivity.
      assert (Last : forall e, r1 = Err e \/ r1 = Spin ->
                exists d n m,
                  d1 ++ h = d ++ h /\
                  (n <= m <= List.length (t :: rest))%nat /\ (m <= S n)%nat /\
                  callbackHandles d = map callback (firstn n (t :: rest)) /\
                  d ++ h = historyAfter env w (firstn m (t :: rest)) h /\
                  allNil env w (firstn (pred m) (t :: rest)) h /\
                  (forall e', r1 = Err e' ->
                     exists t',
                       nth_error (t :: rest) (pred m) = Some t' /\ (0 < m)%nat /\
                       fst (runTask env w t'
                              (historyAfter env w (firstn (pred m) (t :: rest)) h))
                       = Err e')).
      { intros e _.
        assert (H1 : d1 ++ h = historyAfter env w (firstn 1 (t :: rest)) h).
        { rewrite One. unfold historyAfter. simpl. now rewrite RT. }
        assert (HE : forall e', r1 = Err e' ->
                  exists t',
                    nth_error (t :: rest) (pred 1) = Some t' /\ (0 < 1)%nat /\
                    fst (runTask env w t'
                           (historyAfter env w (firstn (pred 1) (t :: rest)) h))
                    = Err e').
        { intros e' ->. exists t. split; [reflexivity | ]. split; [lia | ].
          unfold historyAfter. simpl. now rewrite RT. }
        destruct C2 as [C2 | C2].
        - exists d1, 1%nat, 1%nat. rewrite C2.
          split; [reflexivity | ]. split; [simpl; lia | ]. split; [lia | ].
          split; [reflexivity | ]. split; [exact H1 | ]. split; [exact I | exact HE].
        - exists d1, 0%nat, 1%nat. rewrite C2.
          split; [reflexivity | ]. split; [simpl; lia | ]. split; [lia | ].
          split; [reflexivity | ]. split; [exact H1 | ]. split; [exact I | exact HE]. }
      destruct r1 as [[] | err | ].
      - destruct (IH (d1 ++ h))
          as (d2 & n2 & m2 & E2 & L2 & M2 & K2 & A2 & N2 & O2 & F2 & B2 & X2).
        exists (d2 ++ d1), (S n2), (S m2). rewrite E2.
        split; [now rewrite app_assoc | ]. split; [simpl; lia | ]. split; [lia | ].
        split; [rewrite callbackHandles_app, (C1 eq_refl), K2; reflexivity | ].
        split.
        { rewrite <- app_assoc, A2. unfold historyAfter. simpl. now rewrite RT. }
        split.
        { simpl pred. destruct m2 as [| k]; [exact I | ].
          simpl. rewrite RT. split; [reflexivity | exact N2]. }
        split.
        { intros x Hx. destruct (O2 x Hx) as [-> Na]. split; [reflexivity | ].
          simpl. rewrite RT. split; [reflexivity | exact Na]. }
        split.
        { intros e He. destruct (F2 e He) as (t' & Nt & Pm & Ft).
          exists t'. destruct m2 as [| k]; [lia | ]. simpl pred in *.
          split; [exact Nt | ]. split; [lia | ].
          unfold historyAfter in *. simpl. rewrite RT. exact Ft. }
        split; [ | exact X2 ].
        intros Hb. destruct (B2 Hb) as [-> Hc]. split; [reflexivity | exact Hc].
      - destruct (Last err (or_introl eq_refl)) as (d & n & m & Ed & L & M & K & A & N & F).
        exists d, n, m. cbn [fst snd].
        split; [exact Ed | ]. split; [exact L | ]. split; [exact M | ].
        split; [exact K | ]. split; [exact A | ]. split; [exact N | ].
        split; [discriminate | ].
        split; [intros e He; apply F; congruence | ]. split; discriminate.
      - destruct (Last EmptyString (or_intror eq_refl))
          as (d & n & m & Ed & L & M & K & A & N & F).
        exists d, n, m. cbn [fst snd].
        split; [exact Ed | ]. split; [exact L | ]. split; [exact M | ].
        split; [exact K | ]. split; [exact A | ]. split; [exact N | ].
        split; [discriminate | ]. split; [discriminate | ]. split; discriminate. }
    destruct (closedChan w) eqn:C.
    + apply Go. simpl. now rewrite C.
    + destruct (selectClosed env h) eqn:S.
      * apply Stay; [ | reflexivity ]. simpl. now rewrite C, S.
      * apply Go. simpl. now rewrite C, S.
Qed.


(** ** The force-acquire loop ends for every size *)

(** X10: With a grant unit that is a positive [int], the force-acquire loop ends
    for an event of any size and any allowance, also where the difference
    [availableMem - size] overflows: with [s] that difference as the [int]
    the code computes, the worker force-acquires the least number [k] of
    units that makes [s + k * unit] not negative, and goes on with that
    allowance, the event appended to the pending batch. *)
Theorem force_acquire_ends env e l h :
  0 < defaultMemoryUsage env <= maxInt ->
  exists k : nat,
    consume env e l h
    = (Ok {| availableMem :=
               wrapInt (availableMem l - bytesOf e) + Z.of_nat k * defaultMemoryUsage env;
             events := events l ++ [e];
             lastPos := lastPos l; lastTotalSize := lastTotalSize l;
             batchCount := batchCount l |},
       repeat (ForceAcquire (defaultMemoryUsage env)) k ++ h) /\
    0 <= wrapInt (availableMem l - bytesOf e) + Z.of_nat k * defaultMemoryUsage env /\
    forall j, (j < k)%nat ->
              wrapInt (availableMem l - bytesOf e) + Z.of_nat j * defaultMemoryUsage env < 0.
Proof.
  intros HD.
  destruct (consume_run env e l h) as (d & E & R).
  destruct (consume env e l h) as [r h']. cbn [fst snd] in E, R. subst h'.
  inversion R as [k N X Er Ed | k N Er Ed]; subst; [ | contradiction ].
  pose proof (acquire_exact env _ _ k HD N) as Ex.
  exists k. rewrite (Ex k (le_n k)) in *.
  split; [reflexivity | ]. split; [exact X | ].
  intros j Hj. specialize (N j Hj). rewrite Ex in N by lia. exact N.
Qed.

Lemma force_acquire_ends_witness :
  exists k : nat,
    consume (exampleEnv 100 20 [] never) (exampleEvent 250)
            (initLocals (exampleEnv 100 20 [] never)) []
    = (Ok {| availableMem := wrapInt (100 - 250) + Z.of_nat k * 100;
             events := [exampleEvent 250];
             lastPos := sorter.zero; lastTotalSize := 0; batchCount := 0 |},
       repeat (ForceAcquire 100) k ++ []) /\
    0 <= wrapInt (100 - 250) + Z.of_nat k * 100 /\
    forall j, (j < k)%nat -> wrapInt (100 - 250) + Z.of_nat j * 100 < 0.
Proof.
  apply (force_acquire_ends (exampleEnv 100 20 [] never) (exampleEvent 250)
           (initLocals (exampleEnv 100 20 [] never)) []).
  change (0 < 100 <= 2 ^ 63 - 1). lia.
Defined.


(** ** Without splitting, a flush is a transaction *)

Lemma lastTxn_inBody env d h : Forall inBody d -> lastTxn env (d ++ h) = lastTxn env h.
Proof.
  induction 1 as [| c d Hc F IH]; [reflexivity | ].
  simpl. destruct c as [| | [[e pos | err] |] | | | | | | | | | | |];
    simpl in Hc; try contradiction; exact IH.
Qed.

Lemma flushOK_mute env d h : Forall mute d -> flushOK env h -> flushOK env (d ++ h).
Proof.
  induction 1 as [| c d Hc F IH]; intros O; [exact O | ].
  simpl. destruct c; simpl in Hc; try contradiction; auto.
Qed.

Lemma flushOK_split env d :
  flushOK env d ->
  forall post sink batch rows older,
    d = post ++ EmitRowChangedEvent sink batch rows :: older ->
    exists e pos,
      lastNext older = Some (e, pos) /\ Valid env pos = true /\
      batch = lastTxn env older.
Proof.
  intros O post. revert d O.
  induction post as [| c post IH]; intros d O sink batch rows older ->.
  - apply O.
  - apply (IH (post ++ EmitRowChangedEvent sink batch rows :: older)) with sink rows;
      [ | reflexivity ].
    destruct c; simpl in O; tauto.
Qed.

Section Transactions.

Variable env : Env.
Variable w : workerImpl.
Variable t : tableSinkTask.
Hypothesis at_boundaries : flushesAtBoundaries w.

Lemma publishRun_mute ts size r d : publishRun w t ts size r d -> Forall mute d.
Proof.
  intros R. inv R. unfold allocEntries. destruct (splitTxn w); repeat constructor.
Qed.

Lemma largeRun_mute ts lts r d : largeRun w t ts lts r d -> Forall mute d.
Proof. intros R. inv R; eauto using publishRun_mute. Qed.

Lemma flushRun_flushOK evs r d e pos d0 h :
  flushRun t evs r d ->
  Valid env pos = true -> evs = sinceBoundary env h ++ [e] ->
  Forall inBody d0 -> Forall mute d0 ->
  flushOK env h ->
  flushOK env (d ++ d0 ++ IterNext (Some (sorter.ItEvent e pos)) :: h).
Proof.
  intros R V Ee F0 M0 O.
  assert (Fv : forall vs, Forall isVerify vs -> Forall inBody vs).
  { intros vs Fv. eapply Forall_impl; [ | exact Fv ]. intros []; simpl; tauto. }
  assert (O1 : forall vs, Forall isVerify vs ->
            flushOK env (vs ++ d0 ++ IterNext (Some (sorter.ItEvent e pos)) :: h)).
  { intros vs Hv. apply flushOK_mute; [now apply sinkCall_mute | ].
    apply flushOK_mute; [exact M0 | exact O]. }
  inv R; simpl.
  - now apply O1.
  - split; [ | now apply O1 ].
    exists e, pos.
    rewrite (lastNext_inBody vs) by auto. rewrite (lastNext_inBody d0) by auto.
    rewrite (lastTxn_inBody env vs) by auto. rewrite (lastTxn_inBody env d0) by auto.
    simpl. auto.
Qed.

Lemma boundaryRun_flushOK e pos l r d d0 h :
  boundaryRun w t e pos l r d ->
  Valid env pos = true -> events l = sinceBoundary env h ++ [e] ->
  Forall inBody d0 -> Forall mute d0 ->
  flushOK env h ->
  flushOK env (d ++ d0 ++ IterNext (Some (sorter.ItEvent e pos)) :: h).
Proof.
  intros R V Ee F0 M0 O.
  assert (F1 : Forall inBody (resetEntries w t ++ d0)).
  { apply Forall_app. split; [ | exact F0 ].
    unfold resetEntries. destruct (splitTxn w); repeat constructor. }
  assert (M1 : Forall mute (resetEntries w t ++ d0)).
  { apply Forall_app. split; [ | exact M0 ].
    unfold resetEntries. destruct (splitTxn w); repeat constructor. }
  inversion R as [err dF F Er Ed | size dF err dL F G Er Ed | size dF lts dL F G Er Ed
                  | size dF lts dL dP F G Pb Er Ed | size dF lts dL err dP F G Pb Er Ed];
    subst; simpl; rewrite <- ?app_assoc; simpl; rewrite <- ?app_assoc;
    pose proof (flushRun_flushOK _ _ _ e pos _ h F V Ee F1 M1 O) as O1;
    rewrite <- ?app_assoc in O1;
    repeat match goal with
           | H : largeRun _ _ _ _ _ _ |- _ => apply largeRun_mute in H
           | H : publishRun _ _ _ _ _ _ |- _ => apply publishRun_mute in H
           end;
    repeat first [ exact O1 | apply flushOK_mute; [assumption | ] | progress simpl ].
Qed.

Lemma bodyRun_flushOK e pos l b d h :
  bodyRun env w t e pos l b d ->
  batchCount l = 0 -> events l = sinceBoundary env h ->
  flushOK env h ->
  flushOK env (d ++ IterNext (Some (sorter.ItEvent e pos)) :: h).
Proof.
  intros R Hc He O.
  assert (Fa : forall k, Forall inBody (repeat (ForceAcquire (defaultMemoryUsage env)) k)).
  { intros k. apply Forall_repeat. exact I. }
  assert (Fm : forall k, Forall mute (repeat (ForceAcquire (defaultMemoryUsage env)) k)).
  { intros k. apply Forall_repeat. exact I. }
  inversion R as [d0 C Eb Ed | l1 d0 l2 dS C V S Eb Ed | l1 d0 err dS C V S Eb Ed
                  | l1 d0 err dB C V Bd Eb Ed | l1 d0 l2 dB C V Bd Eb Ed
                  | l1 d0 l2 dB l3 dS C V Bd S Eb Ed
                  | l1 d0 l2 dB err dS C V Bd S Eb Ed];
    subst; rewrite <- ?app_assoc; inv C; simpl in *;
    try (match goal with
         | S : batchRun _ _ _ ?x (Ok _) _ |- _ =>
             destruct (batchRun_idle _ _ _ x _ _ at_boundaries Hc S) as [_ ->]
         | S : batchRun _ _ _ ?x (Err _) _ |- _ =>
             destruct (batchRun_idle _ _ _ x _ _ at_boundaries Hc S) as [X _];
             discriminate X
         end; simpl; now apply flushOK_mute);
    try now apply flushOK_mute.
  - eapply boundaryRun_flushOK; eauto. simpl. now rewrite He.
  - eapply boundaryRun_flushOK; eauto. simpl. now rewrite He.
  - pose proof (boundaryRun_events _ _ _ _ _ _ _ _ Bd) as [_ Ec]. simpl in Ec.
    rewrite Hc in Ec.
    destruct (batchRun_idle _ _ _ _ _ _ at_boundaries Ec S) as [_ ->]. simpl.
    eapply boundaryRun_flushOK; eauto. simpl. now rewrite He.
  - pose proof (boundaryRun_events _ _ _ _ _ _ _ _ Bd) as [_ Ec]. simpl in Ec.
    rewrite Hc in Ec.
    destruct (batchRun_idle _ _ _ _ _ _ at_boundaries Ec S) as [X _]. discriminate X.
Qed.

Lemma loopRun_flushOK items l r d :
  loopRun env w t items l r d ->
  forall h, batchCount l = 0 -> events l = sinceBoundary env h ->
    flushOK env h -> flushOK env (d ++ h).
Proof.
  induction 1 as [l | err rest l | e pos rest l l1 d B | e pos rest l err d B
                  | e pos rest l d B | e pos rest l l1 d r d' B R IH];
    intros h Hc He O; rewrite <- ?app_assoc; simpl;
    try (eapply bodyRun_flushOK; eassumption); try exact O.
  destruct (bodyRun_tail _ _ _ _ _ _ _ _ h at_boundaries B Hc He l1 (or_introl eq_refl))
    as [Hc1 He1].
  apply IH; [exact Hc1 | exact He1 | ].
  eapply bodyRun_flushOK; eassumption.
Qed.

Lemma taskRun_flushOK B items r d : taskRun env w t B items r d -> flushOK env d.
Proof.
  intros R.
  inversion R as [l dl c Lp | l dl c Lp | err dl Lp | dl Lp]; subst; simpl;
    apply (loopRun_flushOK _ _ _ _ Lp (openEntries t B)); try reflexivity; exact I.
Qed.

End Transactions.

(** X11: When the worker flushes only at transaction boundaries (it does not
    split transactions, or its batch size is at least 1), every flush of a
    task comes when the latest event read ends a transaction, and the batch
    flushed is that transaction: the events read since the boundary before,
    in their order, up to that event. *)
Theorem flush_is_transaction :
  forall env w t h,
    flushesAtBoundaries w ->
    exists d,
      snd (runTask env w t h) = d ++ h /\
      forall post sink batch rows older,
        d = post ++ EmitRowChangedEvent sink batch rows :: older ->
        exists e pos,
          lastNext older = Some (e, pos) /\ Valid env pos = true /\
          batch = lastTxn env older.
Proof.
  intros env w t h Hw.
  destruct (runTask_taskRun env w t h) as (d & E & R).
  exists d. split; [exact E | ].
  apply flushOK_split. eapply taskRun_flushOK; eassumption.
Qed.

Lemma flush_is_transaction_witness :
  exists d,
    snd (runTask (exampleEnv 100 20 [inside 10; boundary 10; inside 10] never)
                 (exampleWorker false 2) exampleTask []) = d ++ [] /\
    forall post sink batch rows older,
      d = post ++ EmitRowChangedEvent sink batch rows :: older ->
      exists e pos,
        lastNext older = Some (e, pos) /\
        Valid (exampleEnv 100 20 [inside 10; boundary 10; inside 10] never) pos = true /\
        batch = lastTxn (exampleEnv 100 20 [inside 10; boundary 10; inside 10] never) older.
Proof.
  apply (flush_is_transaction
           (exampleEnv 100 20 [inside 10; boundary 10; inside 10] never)
           (exampleWorker false 2) exampleTask []).
  left. reflexivity.
Defined.


(** ** A task touches only what is its own *)

Section Adds.

Context {A B : Type}.
Variable P : Call -> Prop.

Lemma adds_ret (a : A) : adds P (ret a).
Proof. intros h. exists []. split; [reflexivity | constructor]. Qed.

Lemma adds_fail e : adds P (@fail A e).
Proof. intros h. exists []. split; [reflexivity | constructor]. Qed.

Lemma adds_spin : adds P (@spin A).
Proof. intros h. exists []. split; [reflexivity | constructor]. Qed.

Lemma adds_tell c : P c -> adds P (tell c).
Proof. intros Hc h. exists [c]. split; [reflexivity | repeat constructor; exact Hc]. Qed.

Lemma adds_call (ask : History -> A) entry :
  (forall a, P (entry a)) -> adds P (call ask entry).
Proof.
  intros Hc h. exists [entry (ask h)]. split; [reflexivity | repeat constructor; apply Hc].
Qed.

Lemma adds_tryCall ask entry : (forall a, P (entry a)) -> adds P (tryCall ask entry).
Proof.
  intros Hc h. unfold tryCall. destruct (ask h) as [e | ].
  - exists [entry (Some e)]. split; [reflexivity | repeat constructor; apply Hc].
  - exists [entry None]. split; [reflexivity | repeat constructor; apply Hc].
Qed.

Lemma adds_bind (m : M A) (k : A -> M B) :
  adds P m -> (forall a, adds P (k a)) -> adds P (bind m k).
Proof.
  intros Hm Hk h. unfold bind. destruct (Hm h) as (d1 & E1 & F1).
  destruct (m h) as [[a | e |] h1]; cbn [snd] in *; subst h1.
  - destruct (Hk a (d1 ++ h)) as (d2 & E2 & F2).
    exists (d2 ++ d1). rewrite E2. split; [now rewrite app_assoc | ].
    apply Forall_app. split; assumption.
  - exists d1. split; [reflexivity | exact F1].
  - exists d1. split; [reflexivity | exact F1].
Qed.

End Adds.

Section Own.

Variable env : Env.
Variable w : workerImpl.
Variable t : tableSinkTask.

Lemma verifyEvents_own evs : forall size acc,
  adds (ownCall env t) (verifyEvents env t evs size acc).
Proof.
  induction evs as [| e evs IH]; intros size acc; simpl; [apply adds_ret | ].
  intros h.
  destruct (verifyAndTrySplitEvent env h (tableSink t) e) as [err | rs].
  - eexists [_]. split; [reflexivity | repeat constructor].
  - destruct (IH (wrapInt (size + bytesOf e)) (acc ++ rs)
                (VerifyAndTrySplitEvent (tableSink t) e (inr rs) :: h)) as (d & E & F).
    exists (d ++ [VerifyAndTrySplitEvent (tableSink t) e (inr rs)]).
    rewrite E. split; [now rewrite <- app_assoc | ].
    apply Forall_app. split; [exact F | repeat constructor].
Qed.

Lemma emitEventsToTableSink_own evs : adds (ownCall env t) (emitEventsToTableSink env t evs).
Proof.
  unfold emitEventsToTableSink.
  apply adds_bind; [apply verifyEvents_own | ]. intros sr.
  apply adds_bind; [now apply adds_tell | ]. intros _. apply adds_ret.
Qed.

Lemma updateTableSinkResolvedTs_own ts size :
  adds (ownCall env t) (updateTableSinkResolvedTs env w t ts size).
Proof.
  unfold updateTableSinkResolvedTs.
  apply adds_bind.
  - destruct (splitTxn w); [ | apply adds_ret ].
    apply adds_bind; [now apply adds_call | ]. intros id. apply adds_ret.
  - intros rts. apply adds_bind; [now apply adds_tell | ]. intros _.
    now apply adds_tryCall.
Qed.

Lemma updateIfLarge_own e lts : adds (ownCall env t) (updateIfLarge env w t e lts).
Proof.
  unfold updateIfLarge. destruct (maxUpdateIntervalSize <=? lts); [ | apply adds_ret ].
  apply adds_bind; [apply updateTableSinkResolvedTs_own | ]. intros _. apply adds_ret.
Qed.

Lemma acquireLoop_own b : forall fuel a, adds (ownCall env t) (acquireLoop env fuel a b).
Proof.
  induction fuel as [| fuel IH]; intros a; simpl;
    destruct (wrapInt (a - b) <? 0); try apply adds_ret; try apply adds_spin.
  apply adds_bind; [now apply adds_tell | ]. intros _. apply IH.
Qed.

Lemma consume_own e l : adds (ownCall env t) (consume env e l).
Proof.
  unfold consume. apply adds_bind; [apply acquireLoop_own | ]. intros a. apply adds_ret.
Qed.

Lemma atBoundary_own e pos l : adds (ownCall env t) (atBoundary env w t e pos l).
Proof.
  unfold atBoundary.
  apply adds_bind.
  { destruct (splitTxn w); [now apply adds_tell | apply adds_ret]. }
  intros _. apply adds_bind; [apply emitEventsToTableSink_own | ]. intros size.
  apply adds_bind; [apply updateIfLarge_own | ]. intros lts.
  apply adds_bind; [now apply adds_call | ]. intros [|]; [ | apply adds_ret ].
  apply adds_bind; [apply updateTableSinkResolvedTs_own | ]. intros _. apply adds_ret.
Qed.

Lemma atBatchSize_own e l : adds (ownCall env t) (atBatchSize env w t e l).
Proof.
  unfold atBatchSize.
  destruct (splitTxn w && (batchSize w <=? wrapU64 (batchCount l))); [ | apply adds_ret ].
  apply adds_bind; [apply emitEventsToTableSink_own | ]. intros size.
  apply adds_bind; [apply updateIfLarge_own | ]. intros lts. apply adds_ret.
Qed.

Lemma loopBody_own e pos l : adds (ownCall env t) (loopBody env w t e pos l).
Proof.
  unfold loopBody.
  apply adds_bind; [apply consume_own | ]. intros l1.
  apply adds_bind.
  { destruct (Valid env pos); [apply atBoundary_own | apply adds_ret]. }
  intros [[|] l2]; [ | apply adds_ret ].
  apply adds_bind; [apply atBatchSize_own | ]. intros l3. apply adds_ret.
Qed.

Lemma fetchLoop_own items : forall l, adds (ownCall env t) (fetchLoop env w t items l).
Proof.
  induction items as [| [e pos | err] rest IH]; intros l; simpl.
  - apply adds_bind; [now apply adds_tell | ]. intros _. apply adds_ret.
  - apply adds_bind; [now apply adds_tell | ]. intros _.
    apply adds_bind; [apply loopBody_own | ]. intros [[|] l2]; [apply IH | apply adds_ret].
  - apply adds_bind; [now apply adds_tell | ]. intros _. apply adds_fail.
Qed.

Lemma runTask_own : adds (ownCall env t) (runTask env w t).
Proof.
  unfold runTask.
  apply adds_bind; [now apply adds_call | ]. intros B.
  apply adds_bind.
  { intros h. eexists [_]. split; [reflexivity | ]. repeat constructor. }
  intros items. apply adds_bind; [apply fetchLoop_own | ]. intros l.
  apply adds_bind; [now apply adds_tell | ]. intros _.
  apply adds_bind; [now apply adds_tell | ]. intros _.
  now apply adds_tryCall.
Qed.

End Own.

(** X12: Every call [run] makes is made on behalf of one of the tasks the channel
    delivered: it reads the barrier of that task, opens the cursor on its
    table from its lower bound, validates, flushes and publishes on its
    sink, records, resets and allocates batch identifiers under its table,
    and calls its callback; every force-acquire is of one grant unit.  A
    worker does nothing on a table no task named. *)
Theorem calls_belong_to_tasks :
  forall env w taskChan h,
  exists d,
    snd (run env w taskChan h) = d ++ h /\
    Forall (fun c => exists t, In t taskChan /\ ownCall env t c) d.
Proof.
  intros env w taskChan.
  induction taskChan as [| t rest IH]; intros h.
  - exists []. simpl. destruct (closedChan w); split; try reflexivity; constructor.
  - assert (Go : exists d,
               snd ((runTask env w t ;;; run env w rest) h) = d ++ h /\
               Forall (fun c => exists t', In t' (t :: rest) /\ ownCall env t' c) d).
    { unfold bind. destruct (runTask_own env w t h) as (d1 & E1 & F1).
      assert (F1' : Forall (fun c => exists t', In t' (t :: rest) /\ ownCall env t' c) d1).
      { eapply Forall_impl; [ | exact F1 ]. intros c Hc. exists t. split; [now left | exact Hc]. }
      destruct (runTask env w t h) as [[[] | err |] h1]; cbn [snd] in *; subst h1.
      - destruct (IH (d1 ++ h)) as (d2 & E2 & F2).
        exists (d2 ++ d1). rewrite E2. split; [now rewrite app_assoc | ].
        apply Forall_app. split; [ | exact F1' ].
        eapply Forall_impl; [ | exact F2 ]. intros c (t' & Ht' & Hc).
        exists t'. split; [now right | exact Hc].
      - exists d1. split; [reflexivity | exact F1'].
      - exists d1. split; [reflexivity | exact F1']. }
    simpl. destruct (closedChan w); [exact Go | ].
    destruct (selectClosed env h); [ | exact Go ].
    exists []. split; [reflexivity | constructor].
Qed.


(** ** Splitting with a batch size of 0 *)

Section ZeroBatch.

Variable env : Env.
Variable w : workerImpl.
Variable t : tableSinkTask.
Hypothesis splits : splitTxn w = true.
Hypothesis zero : batchSize w = 0.

Lemma batchRun_fires e l l' d : batchRun w t e l (Ok l') d -> events l' = [].
Proof.
  intros R. inversion R as [C Er Ed | | | size dF lts dL C F G Er Ed]; subst;
    [ | reflexivity ].
  exfalso. rewrite splits, zero in C. simpl in C. apply Z.leb_gt in C.
  pose proof (wrapU64_isUint64 (batchCount l')) as [L _]. lia.
Qed.

Lemma bodyRun_flushed e pos l b d :
  bodyRun env w t e pos l b d ->
  forall l', b = Goes l' \/ b = Stops l' -> events l' = [].
Proof.
  intros R l' Hb.
  inversion R as [d0 C Eb Ed | l1 d0 l2 dS C V S Eb Ed | l1 d0 err dS C V S Eb Ed
                  | l1 d0 err dB C V Bd Eb Ed | l1 d0 l2 dB C V Bd Eb Ed
                  | l1 d0 l2 dB l3 dS C V Bd S Eb Ed
                  | l1 d0 l2 dB err dS C V Bd S Eb Ed];
    subst; destruct Hb as [Hb | Hb]; try discriminate; inv Hb.
  - eapply batchRun_fires; eassumption.
  - eapply boundaryRun_events; eassumption.
  - eapply batchRun_fires; eassumption.
Qed.

Lemma loopRun_flushed items l r d :
  loopRun env w t items l r d ->
  events l = [] ->
  forall l', r = Exhausted l' \/ r = Stopped l' -> events l' = [].
Proof.
  induction 1 as [l | err rest l | e pos rest l l1 d B | e pos rest l err d B
                  | e pos rest l d B | e pos rest l l1 d r d' B R IH];
    intros He l' Hr; try (destruct Hr; discriminate).
  - destruct Hr as [Hr | Hr]; inv Hr. exact He.
  - destruct Hr as [Hr | Hr]; inv Hr.
    apply (bodyRun_flushed _ _ _ _ _ B). now right.
  - apply IH; [ | exact Hr ].
    apply (bodyRun_flushed _ _ _ _ _ B). now left.
Qed.

Lemma taskRun_flushed B items r d :
  taskRun env w t B items r d ->
  forall c older, d = IterClose c :: older -> consumed d = emitted d.
Proof.
  assert (K0 : kept (events (initLocals env)) (openEntries t B)).
  { split; [reflexivity | ]. simpl. repeat split; exists []; reflexivity. }
  intros R c0 older E.
  assert (done_ : forall l dl c r0,
             loopRun env w t items (initLocals env) r0 dl ->
             r0 = Exhausted l \/ r0 = Stopped l ->
             consumed (endEntries t l c ++ dl ++ openEntries t B)
             = emitted (endEntries t l c ++ dl ++ openEntries t B)).
  { intros l dl c r0 Lp Er.
    destruct (loopRun_kept _ _ _ _ _ _ _ Lp _ K0) as (evs & K & El).
    rewrite (El l Er) in K.
    rewrite (loopRun_flushed _ _ _ _ Lp eq_refl l Er) in K.
    apply (kept_mute _ (endEntries t l c)) in K; [ | repeat constructor ].
    destruct K as [K _]. now rewrite app_nil_r in K. }
  revert E.
  inversion R as [l dl c Lp | l dl c Lp | err dl Lp | dl Lp]; subst; intros E.
  - eapply done_; [exact Lp | now left].
  - eapply done_; [exact Lp | now right].
  - apply loopRun_inLoop in Lp. destruct dl as [| x dl]; [discriminate | ].
    inv E. inv Lp. contradiction.
  - apply loopRun_inLoop in Lp. destruct dl as [| x dl]; [discriminate | ].
    inv E. inv Lp. contradiction.
Qed.

End ZeroBatch.

(** X13: A worker that splits transactions with a batch size of 0 flushes after
    every event: a task that closes its cursor has flushed every event it
    read, also the events of a transaction that is not complete.  With any
    other batch size the events after the last boundary are dropped. *)
Theorem zero_batch_flushes_all :
  forall env w t h,
    splitTxn w = true -> batchSize w = 0 ->
    exists d,
      snd (runTask env w t h) = d ++ h /\
      forall c older, d = IterClose c :: older -> consumed d = emitted d.
Proof.
  intros env w t h Hs Hz.
  destruct (runTask_taskRun env w t h) as (d & E & R).
  exists d. split; [exact E | ].
  eapply taskRun_flushed; eassumption.
Qed.

Lemma zero_batch_flushes_all_witness :
  exists d,
    snd (runTask (exampleEnv 100 20 [inside 10; boundary 10; inside 10] never)
                 (exampleWorker true 0) exampleTask []) = d ++ [] /\
    forall c older, d = IterClose c :: older -> consumed d = emitted d.
Proof.
  apply (zero_batch_flushes_all
           (exampleEnv 100 20 [inside 10; boundary 10; inside 10] never)
           (exampleWorker true 0) exampleTask []); reflexivity.
Defined.

(** ** Flushed before published (C1) *)

Lemma yielded_cons c h :
  yielded (c :: h)
  = yielded h ++ match c with
                 | IterNext (Some (sorter.ItEvent e pos)) => [(e, pos)]
                 | _ => []
                 end.
Proof. unfold yielded. now rewrite proj_cons. Qed.

Lemma yielded_app d h : yielded (d ++ h) = yielded h ++ yielded d.
Proof. unfold yielded. apply proj_app. Qed.

Lemma consumed_yielded d : consumed d = map fst (yielded d).
Proof.
  induction d as [| c d IH]; [reflexivity | ].
  rewrite consumed_cons, yielded_cons, map_app, IH.
  destruct c as [| | [[e pos | err] |] | | | | | | | | | | |]; reflexivity.
Qed.

Lemma lastNext_yielded d e pos :
  lastNext d = Some (e, pos) -> exists a, yielded d = a ++ [(e, pos)].
Proof.
  induction d as [| c d IH]; [discriminate | ].
  intros L. rewrite yielded_cons.
  destruct c as [| | [[e' pos' | err] |] | | | | | | | | | | |]; simpl in L;
    try (destruct (IH L) as [a ->]; exists a; now rewrite app_nil_r).
  inversion L; subst. now exists (yielded d).
Qed.

Lemma orderedFrom_after env a e pos b :
  orderedFrom env (a ++ (e, pos) :: b) -> Valid env pos = true ->
  Forall (fun p => model.CRTs e < model.CRTs (fst p)) b.
Proof.
  induction a as [| [e' pos'] a IH]; simpl; intros [O1 O2] V; auto.
Qed.

(** The events read before a publication at the end of a transaction are,
    when the cursor yields transactions in commit order, all the events the
    task reads that the resolved timestamp covers. *)
Lemma covered_before env d post sink rts res older e pos :
  d = post ++ SinkUpdateResolvedTs sink rts res :: older ->
  lastNext older = Some (e, pos) -> Valid env pos = true ->
  model.Ts_ rts = model.CRTs e ->
  commitOrdered env d ->
  forall e', In e' (consumed d) -> model.CRTs e' <= model.Ts_ rts ->
             In e' (consumed older).
Proof.
  intros -> L V Ets O e' He' Hle.
  unfold commitOrdered in O.
  change (post ++ SinkUpdateResolvedTs sink rts res :: older)
    with (post ++ [SinkUpdateResolvedTs sink rts res] ++ older) in O, He'.
  rewrite !yielded_app in O. rewrite !consumed_yielded, !yielded_app in He'.
  change (yielded [SinkUpdateResolvedTs sink rts res]) with
    (@nil (model.PolymorphicEvent * sorter.Position)) in O, He'.
  rewrite app_nil_r in O, He'.
  destruct (lastNext_yielded _ _ _ L) as [a Ea].
  rewrite consumed_yielded.
  rewrite map_app in He'. apply in_app_or in He'. destruct He' as [He' | He'];
    [exact He' | exfalso].
  rewrite Ea, <- app_assoc in O. simpl in O.
  pose proof (orderedFrom_after _ _ _ _ _ O V) as F.
  rewrite Forall_forall in F.
  apply in_map_iff in He'. destruct He' as ([e'' pos''] & E & Hin).
  simpl in E. subst e''. specialize (F _ Hin). simpl in F. lia.
Qed.

Lemma publishedAtBoundaries_split env d :
  publishedAtBoundaries env d ->
  forall post sink rts res older,
    d = post ++ SinkUpdateResolvedTs sink rts res :: older ->
    exists e pos, lastNext older = Some (e, pos) /\ Valid env pos = true.
Proof.
  intros P post. revert d P.
  induction post as [| c post IH]; intros d P sink rts res older ->.
  - apply P.
  - apply (IH (post ++ SinkUpdateResolvedTs sink rts res :: older)) with sink rts res;
      [ | reflexivity ].
    destruct c; simpl in P; tauto.
Qed.

Section Boundaries.

Variable env : Env.
Variable w : workerImpl.
Variable t : tableSinkTask.
Hypothesis at_boundaries : flushesAtBoundaries w.

(** The latest event read in [hh] is [e], the end of a transaction, and
    [hh] published at boundaries. *)
Let atEnd (e : model.PolymorphicEvent) (pos : sorter.Position) (hh : History) : Prop :=
  lastNext hh = Some (e, pos) /\ Valid env pos = true /\ publishedAtBoundaries env hh.

Lemma atEnd_calls e pos d hh :
  Forall inBody d -> Forall unpublished d -> atEnd e pos hh -> atEnd e pos (d ++ hh).
Proof.
  intros Fi Fu (L & V & P). split; [ | split; [exact V | ] ].
  - now rewrite lastNext_inBody.
  - clear Fi. induction Fu as [| c d Hc Fu IH]; [exact P | ].
    simpl. destruct c; simpl in Hc; try contradiction; exact IH.
Qed.

Lemma atEnd_publish e pos ts size r d hh :
  publishRun w t ts size r d -> atEnd e pos hh -> atEnd e pos (d ++ hh).
Proof.
  intros R A. inv R.
  assert (A1 : atEnd e pos ((Record_ (tableID t) rts size :: allocEntries w t rts) ++ hh)).
  { apply atEnd_calls; [ | | exact A ];
      unfold allocEntries; destruct (splitTxn w); repeat constructor. }
  destruct A1 as (L & V & P). simpl in L, P |- *.
  split; [exact L | ]. split; [exact V | ].
  simpl. split; [ | exact P ]. exists e, pos. split; assumption.
Qed.

Lemma atEnd_large e pos ts lts r d hh :
  largeRun w t ts lts r d -> atEnd e pos hh -> atEnd e pos (d ++ hh).
Proof. intros R A. inv R; eauto using atEnd_publish. Qed.

Lemma atEnd_flush e pos evs r d hh :
  flushRun t evs r d -> atEnd e pos hh -> atEnd e pos (d ++ hh).
Proof.
  intros R A.
  assert (Fv : forall vs, Forall isVerify vs -> Forall inBody vs /\ Forall unpublished vs).
  { intros vs Fv. split; (eapply Forall_impl; [ | exact Fv ]); intros []; simpl; tauto. }
  inv R; destruct (Fv vs) as [F1 F2]; try assumption;
    apply (atEnd_calls e pos (_ :: vs)); try assumption;
    constructor; try exact I; assumption.
Qed.

Lemma boundaryRun_atEnd e pos l r d hh :
  boundaryRun w t e pos l r d -> atEnd e pos hh -> atEnd e pos (d ++ hh).
Proof.
  intros R A.
  assert (A0 : atEnd e pos (resetEntries w t ++ hh)).
  { apply atEnd_calls; [ | | exact A ];
      unfold resetEntries; destruct (splitTxn w); repeat constructor. }
  assert (Ex : forall b x, atEnd e pos x -> atEnd e pos (IsExceed b :: x)).
  { intros b x Ax. apply (atEnd_calls e pos [IsExceed b]); [ | | exact Ax ];
      repeat constructor; destruct b; exact I. }
  inversion R as [err dF F Er Ed | size dF err dL F G Er Ed | size dF lts dL F G Er Ed
                  | size dF lts dL dP F G Pb Er Ed | size dF lts dL err dP F G Pb Er Ed];
    subst; simpl; rewrite <- ?app_assoc; simpl; rewrite <- ?app_assoc;
    pose proof (atEnd_flush _ _ _ _ _ _ F A0) as A1;
    try pose proof (atEnd_large _ _ _ _ _ _ _ G A1) as A2.
  - exact A1.
  - exact A2.
  - now apply Ex.
  - apply (atEnd_publish _ _ _ _ _ _ _ Pb). now apply Ex.
  - apply (atEnd_publish _ _ _ _ _ _ _ Pb). now apply Ex.
Qed.

Lemma bodyRun_published e pos l b d h :
  bodyRun env w t e pos l b d ->
  batchCount l = 0 ->
  publishedAtBoundaries env h ->
  publishedAtBoundaries env (d ++ IterNext (Some (sorter.ItEvent e pos)) :: h).
Proof.
  intros R Hc P.
  assert (Q : forall k,
            publishedAtBoundaries env
              (repeat (ForceAcquire (defaultMemoryUsage env)) k
                 ++ IterNext (Some (sorter.ItEvent e pos)) :: h)).
  { intros k. induction k as [| k IH]; [exact P | exact IH]. }
  assert (A : forall k, Valid env pos = true ->
            atEnd e pos (repeat (ForceAcquire (defaultMemoryUsage env)) k
                           ++ IterNext (Some (sorter.ItEvent e pos)) :: h)).
  { intros k V. split; [ | split; [exact V | apply Q] ].
    rewrite lastNext_inBody; [reflexivity | apply Forall_repeat; exact I]. }
  inversion R as [d0 C Eb Ed | l1 d0 l2 dS C V S Eb Ed | l1 d0 err dS C V S Eb Ed
                  | l1 d0 err dB C V Bd Eb Ed | l1 d0 l2 dB C V Bd Eb Ed
                  | l1 d0 l2 dB l3 dS C V Bd S Eb Ed
                  | l1 d0 l2 dB err dS C V Bd S Eb Ed];
    subst; rewrite <- ?app_assoc; inv C; simpl in *;
    try (match goal with
         | S : batchRun _ _ _ ?x (Ok _) _ |- _ =>
             destruct (batchRun_idle _ _ _ x _ _ at_boundaries Hc S) as [_ ->]
         | S : batchRun _ _ _ ?x (Err _) _ |- _ =>
             destruct (batchRun_idle _ _ _ x _ _ at_boundaries Hc S) as [X _];
             discriminate X
         end; simpl; apply Q);
    try apply Q.
  - apply (boundaryRun_atEnd _ _ _ _ _ _ Bd (A _ V)).
  - apply (boundaryRun_atEnd _ _ _ _ _ _ Bd (A _ V)).
  - pose proof (boundaryRun_events _ _ _ _ _ _ _ _ Bd) as [_ Ec]. simpl in Ec.
    rewrite Hc in Ec.
    destruct (batchRun_idle _ _ _ _ _ _ at_boundaries Ec S) as [_ ->]. simpl.
    apply (boundaryRun_atEnd _ _ _ _ _ _ Bd (A _ V)).
  - pose proof (boundaryRun_events _ _ _ _ _ _ _ _ Bd) as [_ Ec]. simpl in Ec.
    rewrite Hc in Ec.
    destruct (batchRun_idle _ _ _ _ _ _ at_boundaries Ec S) as [X _]. discriminate X.
Qed.

Lemma loopRun_published items l r d :
  loopRun env w t items l r d ->
  forall h, batchCount l = 0 -> events l = sinceBoundary env h ->
    publishedAtBoundaries env h -> publishedAtBoundaries env (d ++ h).
Proof.
  induction 1 as [l | err rest l | e pos rest l l1 d B | e pos rest l err d B
                  | e pos rest l d B | e pos rest l l1 d r d' B R IH];
    intros h Hc He P; rewrite <- ?app_assoc; simpl;
    try (eapply bodyRun_published; eassumption); try exact P.
  destruct (bodyRun_tail _ _ _ _ _ _ _ _ h at_boundaries B Hc He l1 (or_introl eq_refl))
    as [Hc1 He1].
  apply IH; [exact Hc1 | exact He1 | ].
  eapply bodyRun_published; eassumption.
Qed.

Lemma taskRun_published B items r d :
  taskRun env w t B items r d -> publishedAtBoundaries env d.
Proof.
  intros R.
  inversion R as [l dl c Lp | l dl c Lp | err dl Lp | dl Lp]; subst; simpl;
    apply (loopRun_published _ _ _ _ Lp (openEntries t B)); try reflexivity; exact I.
Qed.

End Boundaries.

(** C1, as amended: whenever a task publishes a resolved timestamp, the
    events its cursor yielded before are, in their order, the events it
    flushed to the sink before, so the pending batch holds no event, and the
    resolved timestamp has the commit timestamp of the latest event read.
    When the worker flushes only at transaction boundaries (it does not
    split transactions, or its batch size is at least 1) that event ends a
    transaction; and when, moreover, the cursor yields the transactions in
    the order of their commit timestamps, every event the task reads,
    before the publication or after it, whose commit timestamp the resolved
    timestamp covers was flushed before the publication. *)
Theorem flushed_before_published env w t h :
  exists d,
    snd (runTask env w t h) = d ++ h /\
    forall post sink rts res older,
      d = post ++ SinkUpdateResolvedTs sink rts res :: older ->
      consumed older = emitted older /\
      publishedFor env w rts older /\
      (flushesAtBoundaries w ->
       (exists e pos,
          lastNext older = Some (e, pos) /\ Valid env pos = true /\
          model.Ts_ rts = model.CRTs e) /\
       (commitOrdered env d ->
        forall e, In e (consumed d) -> model.CRTs e <= model.Ts_ rts ->
                  In e (emitted older))).
Proof.
  destruct (runTask_taskRun env w t h) as (d & E & R).
  exists d. split; [exact E | ].
  intros post sink rts res older Ed.
  destruct (publishOK_split env w d (taskRun_publishOK _ _ _ _ _ _ _ R)
              _ _ _ _ _ Ed) as [S F].
  split; [exact S | ]. split; [exact F | ]. intros Hw.
  pose proof (taskRun_published _ _ _ Hw _ _ _ _ R) as P.
  destruct (publishedAtBoundaries_split _ _ P _ _ _ _ _ Ed) as (e & pos & L & V).
  assert (Ets : model.Ts_ rts = model.CRTs e).
  { destruct F as (e' & pos' & L' & Ets & _). rewrite L in L'.
    inversion L'; subst. exact Ets. }
  split; [exists e, pos; auto | ].
  intros O e' He' Hle. rewrite <- S.
  eapply covered_before; eassumption.
Qed.

(** The calls of a computed history up to its latest publication. *)
Ltac at_publication hh acc :=
  lazymatch hh with
  | SinkUpdateResolvedTs ?s ?r ?x :: ?o =>
      let post := eval cbv [rev app] in (rev acc) in
      exists post, s, r, x, o
  | ?c :: ?rest => at_publication rest (c :: acc)
  end.

Lemma flushed_before_published_witness :
  exists d post sink rts res older,
    snd (runTask (exampleEnv 300000000 20
                    [inside 10; boundary 268435456; laterBoundary 10] never)
                 (exampleWorker false 2) exampleTask []) = d ++ [] /\
    d = post ++ SinkUpdateResolvedTs sink rts res :: older /\
    flushesAtBoundaries (exampleWorker false 2) /\
    commitOrdered (exampleEnv 300000000 20
                     [inside 10; boundary 268435456; laterBoundary 10] never) d /\
    consumed older = emitted older /\
    model.Ts_ rts = 10 /\
    In (laterEvent 10) (consumed d) /\
    forall e, In e (consumed d) -> model.CRTs e <= model.Ts_ rts ->
              In e (emitted older).
Proof.
  destruct (flushed_before_published
              (exampleEnv 300000000 20
                 [inside 10; boundary 268435456; laterBoundary 10] never)
              (exampleWorker false 2) exampleTask []) as (d & E & P).
  pose proof E as E'. rewrite app_nil_r in E'. vm_compute in E'. subst d.
  assert (Hw : flushesAtBoundaries (exampleWorker false 2)) by (left; reflexivity).
  match type of E with
  | _ = ?hh ++ [] =>
      assert (O : commitOrdered
                    (exampleEnv 300000000 20
                       [inside 10; boundary 268435456; laterBoundary 10] never) hh)
  end.
  { vm_compute. repeat split; try (intros X; discriminate X); intros _; repeat constructor. }
  match type of E with
  | _ = ?hh ++ [] => exists hh; at_publication hh (@nil Call)
  end.
  match goal with
  | |- _ /\ ?hh = ?post ++ SinkUpdateResolvedTs ?s ?r ?x :: ?o /\ _ =>
      destruct (P post s r x o eq_refl) as (S & _ & I)
  end.
  destruct (I Hw) as [_ C].
  split; [exact E | ]. split; [reflexivity | ]. split; [exact Hw | ].
  split; [exact O | ]. split; [exact S | ]. split; [reflexivity | ].
  split; [vm_compute; tauto | exact (C O)].
Defined.

(** C1 as stated fails.  A worker that splits transactions with a batch
    size of 0 reads the first event of a transaction, 256 MiB large, flushes
    it and publishes a resolved timestamp with the commit timestamp of the
    transaction, in batch mode; the second event of the transaction is read
    and flushed after that.  And a worker that does not split, given by its
    cursor two transactions with the same commit timestamp, publishes that
    timestamp after the first, before the event of the second is read. *)
Lemma resolved_ts_published_early :
  (let h := snd (runTask (exampleEnv 300000000 20
                            [inside 268435456; boundary 10] never)
                         (exampleWorker true 0) exampleTask []) in
   model.StartTs (exampleEvent 10) = model.StartTs (exampleEvent 268435456) /\
   model.CRTs (exampleEvent 10) = model.CRTs (exampleEvent 268435456) /\
   In (exampleEvent 268435456) (consumed h) /\
   publishedBeforeFlushed h (exampleEvent 10)) /\
  (let h := snd (runTask (exampleEnv 300000000 20
                            [twinBoundary 268435456; boundary 10] never)
                         (exampleWorker false 2) exampleTask []) in
   In (twinEvent 268435456) (consumed h) /\
   publishedBeforeFlushed h (exampleEvent 10)).
Proof.
  split; intros h; unfold publishedBeforeFlushed.
  - split; [reflexivity | ]. split; [reflexivity | ].
    split; [vm_compute; tauto | ].
    let hh := eval vm_compute in h in at_publication hh (@nil Call).
    split; [vm_compute; reflexivity | ]. split; [vm_compute; tauto | ].
    split; [vm_compute; discriminate | ].
    vm_compute. intros [X | []]. discriminate X.
  - split; [vm_compute; tauto | ].
    let hh := eval vm_compute in h in at_publication hh (@nil Call).
    split; [vm_compute; reflexivity | ]. split; [vm_compute; tauto | ].
    split; [vm_compute; discriminate | ].
    vm_compute. intros [X | []]. discriminate X.
Qed.


(** ** The package [conn]: a random server identifier *)

Lemma hasID_In serverIDs id : conn.hasID serverIDs id = true <-> In id serverIDs.
Proof.
  unfold conn.hasID. rewrite existsb_exists. split.
  - intros (x & Hx & E). apply Z.eqb_eq in E. now subst.
  - intros H. exists id. split; [exact H | apply Z.eqb_refl].
Qed.

Lemma serverID_exact z :
  0 <= z < 100000 ->
  conn.wrapU32 (conn.wrapU32 conn.defaultBaseServerID + conn.wrapU32 z)
  = conn.defaultBaseServerID + z.
Proof.
  intros Hz. unfold conn.wrapU32.
  change conn.defaultBaseServerID with 429496729.
  rewrite (Z.mod_small 429496729), (Z.mod_small z), Z.mod_small; lia.
Qed.

Lemma tryServerIDs_found serverIDs draw : forall n i id,
  (forall j, 0 <= draw j < 100000) ->
  conn.tryServerIDs serverIDs draw i n = Some id ->
  exists k, (k < n)%nat /\
    id = conn.defaultBaseServerID + draw (i + k)%nat /\
    ~ In id serverIDs /\
    forall j, (j < k)%nat ->
      In (conn.defaultBaseServerID + draw (i + j)%nat) serverIDs.
Proof.
  induction n as [| n IH]; intros i id Hd T; [discriminate | ].
  cbn [conn.tryServerIDs] in T. rewrite (serverID_exact _ (Hd i)) in T.
  destruct (conn.hasID serverIDs (conn.defaultBaseServerID + draw i)) eqn:U.
  - destruct (IH (S i) id Hd T) as (k & Hk & E & N & A).
    exists (S k). split; [lia | ].
    replace (i + S k)%nat with (S i + k)%nat by lia. split; [exact E | ].
    split; [exact N | ]. intros j Hj. destruct j as [| j].
    + rewrite Nat.add_0_r. now apply hasID_In.
    + replace (i + S j)%nat with (S i + j)%nat by lia. apply A. lia.
  - assert (T' : conn.defaultBaseServerID + draw i = id) by congruence.
    subst id. exists 0%nat. rewrite Nat.add_0_r.
    split; [apply Nat.lt_0_succ | ]. split; [reflexivity | ]. split.
    + intros H. apply hasID_In in H. rewrite H in U. discriminate U.
    + intros j Hj. exfalso. inversion Hj.
Qed.

Lemma tryServerIDs_none serverIDs draw : forall n i,
  (forall j, 0 <= draw j < 100000) ->
  conn.tryServerIDs serverIDs draw i n = None ->
  forall j, (j < n)%nat -> In (conn.defaultBaseServerID + draw (i + j)%nat) serverIDs.
Proof.
  induction n as [| n IH]; intros i Hd T j Hj; [lia | ].
  cbn [conn.tryServerIDs] in T. rewrite (serverID_exact _ (Hd i)) in T.
  destruct (conn.hasID serverIDs (conn.defaultBaseServerID + draw i)) eqn:U;
    [ | discriminate ].
  destruct j as [| j].
  - rewrite Nat.add_0_r. now apply hasID_In.
  - replace (i + S j)%nat with (S i + j)%nat by lia. apply (IH (S i) Hd T). lia.
Qed.

(** X14: When [rand.Intn(100000)] answers within its range, a server identifier
    [GetRandomServerID] returns without an error is not the identifier of
    the master nor of a slave; it is [defaultBaseServerID] plus the first
    draw that gives an identifier not in use, so it lies between 429496729
    and 429596728 and is not the 0 returned with an error. *)
Theorem random_server_id_unused slaves master draw id :
  (forall j, 0 <= draw j < 100000) ->
  conn.GetRandomServerID (inr slaves) (inr master) draw = (id, None) ->
  id <> master /\ ~ In id slaves /\
  429496729 <= id <= 429596728 /\
  exists k, Z.of_nat k < 99999 /\
    id = conn.defaultBaseServerID + draw k /\
    forall j, (j < k)%nat ->
      In (conn.defaultBaseServerID + draw j) (master :: slaves).
Proof.
  intros Hd G. unfold conn.GetRandomServerID in G. cbn [conn.GetAllServerID] in G.
  destruct (conn.tryServerIDs (master :: slaves) draw 0 (Z.to_nat 99999)) as [x | ] eqn:T;
    [ | discriminate ].
  assert (G' : x = id) by congruence. subst x. clear G.
  destruct (tryServerIDs_found _ _ _ _ _ Hd T) as (k & Hk & E & N & A).
  cbn [Nat.add] in E, A.
  split; [intros ->; apply N; now left | ].
  split; [intros H; apply N; now right | ].
  split.
  - rewrite E. change conn.defaultBaseServerID with 429496729.
    specialize (Hd k). lia.
  - exists k. split; [lia | ]. split; [exact E | exact A].
Qed.

Lemma random_server_id_unused_witness :
  429496736 <> 429496735 /\ ~ In 429496736 [429496734] /\
  429496729 <= 429496736 <= 429596728 /\
  exists k, Z.of_nat k < 99999 /\
    429496736 = conn.defaultBaseServerID + (5 + Z.of_nat (Nat.min k 2)) /\
    forall j, (j < k)%nat ->
      In (conn.defaultBaseServerID + (5 + Z.of_nat (Nat.min j 2)))
         [429496735; 429496734].
Proof.
  apply (random_server_id_unused [429496734] 429496735
           (fun j => 5 + Z.of_nat (Nat.min j 2))).
  - intros j. lia.
  - vm_compute. reflexivity.
Defined.

(** X15: [GetRandomServerID] returns an identifier whenever one of the first
    99999 draws gives an identifier that is not in use: with the databases
    answering, it fails only when every one of these draws hits the master
    or a slave, and then it returns 0 with the error. *)
Theorem random_server_id_found slaves master draw k :
  (forall j, 0 <= draw j < 100000) ->
  Z.of_nat k < 99999 ->
  ~ In (conn.defaultBaseServerID + draw k) (master :: slaves) ->
  exists id, conn.GetRandomServerID (inr slaves) (inr master) draw = (id, None).
Proof.
  intros Hd Hk N. unfold conn.GetRandomServerID. cbn [conn.GetAllServerID].
  destruct (conn.tryServerIDs (master :: slaves) draw 0 (Z.to_nat 99999)) as [x | ] eqn:T.
  - now exists x.
  - exfalso. apply N.
    apply (tryServerIDs_none _ _ _ _ Hd T k). lia.
Qed.

Lemma random_server_id_found_witness :
  exists id,
    conn.GetRandomServerID (inr [429496734]) (inr 429496735)
      (fun j => 5 + Z.of_nat (Nat.min j 2)) = (id, None).
Proof.
  apply (random_server_id_found [429496734] 429496735
           (fun j => 5 + Z.of_nat (Nat.min j 2)) 2%nat).
  - intros j. lia.
  - lia.
  - vm_compute. intros [H | [H | []]]; discriminate H.
Defined.


(** ** The package [conn]: a statement on one row *)

Section OneRow.

Local Open Scope string_scope.

Let NL : string := String "010"%char EmptyString.

Lemma prefix_empty s : String.prefix EmptyString s = true.
Proof. destruct s; reflexivity. Qed.

Lemma prefix_char a c rest :
  String.prefix (String a EmptyString) (String c rest) = if ascii_dec a c then true else false.
Proof. cbn [String.prefix]. destruct (ascii_dec a c); [apply prefix_empty | reflexivity]. Qed.

Lemma Contains_char a c s :
  strings.Contains (String c s) (String a EmptyString) = false <->
  a <> c /\ strings.Contains s (String a EmptyString) = false.
Proof.
  cbn [strings.Contains]. rewrite prefix_char.
  destruct (ascii_dec a c) as [E | N]; simpl; split.
  - discriminate.
  - intros [N _]. contradiction.
  - intros H. split; assumption.
  - intros [_ H]. exact H.
Qed.

Lemma string_length_append a b :
  String.length (a ++ b) = (String.length a + String.length b)%nat.
Proof. induction a as [| c a IH]; simpl; [reflexivity | now rewrite IH]. Qed.

Lemma removes_newlines s :
  strings.Contains (strings.replaceFrom NL EmptyString 0 s) NL = false /\
  (String.length (strings.replaceFrom NL EmptyString 0 s) <= String.length s)%nat.
Proof.
  induction s as [| c s [IH1 IH2]]; [split; [reflexivity | apply Nat.le_refl] | ].
  unfold NL in *. cbn [strings.replaceFrom]. rewrite prefix_char.
  change (String.length (String "010"%char EmptyString) - 1)%nat with 0%nat.
  destruct (ascii_dec "010"%char c) as [E | N].
  - cbn [String.append]. split; [exact IH1 | ]. simpl. lia.
  - split; [ | simpl; lia ]. apply Contains_char. split; assumption.
Qed.

Lemma keeps_no_newline s : forall skip,
  strings.Contains s NL = false ->
  strings.Contains (strings.replaceFrom "  " " " skip s) NL = false.
Proof.
  unfold NL. induction s as [| c s IH]; intros skip H; [exact H | ].
  apply Contains_char in H. destruct H as [N H].
  cbn [strings.replaceFrom]. destruct skip as [| skip]; [ | now apply IH ].
  destruct (String.prefix "  " (String c s)).
  - change (String.length "  " - 1)%nat with 1%nat. cbn [String.append].
    apply Contains_char. split; [discriminate | now apply IH].
  - apply Contains_char. split; [exact N | now apply IH].
Qed.

Lemma halving_length s :
  (String.length (strings.replaceFrom "  " " " 0 s) <= String.length s)%nat /\
  (String.length (strings.replaceFrom "  " " " 1 s) <= pred (String.length s))%nat.
Proof.
  induction s as [| c s [IH0 IH1]]; [split; apply Nat.le_refl | ].
  split; cbn [strings.replaceFrom]; [ | simpl; exact IH0 ].
  destruct (String.prefix "  " (String c s)) eqn:P.
  - change (String.length "  " - 1)%nat with 1%nat. cbn [String.append].
    destruct s as [| c' s];
      [cbn [String.prefix] in P; destruct (ascii_dec " " c); discriminate P | ].
    simpl in IH1 |- *. lia.
  - simpl. lia.
Qed.

Lemma halving_shrinks s :
  strings.Contains s "  " = true ->
  (String.length (strings.replaceFrom "  " " " 0 s) < String.length s)%nat.
Proof.
  induction s as [| c s IH]; [discriminate | ].
  cbn [strings.Contains strings.replaceFrom].
  destruct (String.prefix "  " (String c s)) eqn:P; intros H.
  - change (String.length "  " - 1)%nat with 1%nat. cbn [String.append].
    destruct s as [| c' s];
      [cbn [String.prefix] in P; destruct (ascii_dec " " c); discriminate P | ].
    pose proof (proj2 (halving_length (String c' s))) as L.
    simpl in L |- *. lia.
  - simpl in H. specialize (IH H). simpl. lia.
Qed.

Lemma no_newline_same s :
  strings.Contains s NL = false -> strings.replaceFrom NL EmptyString 0 s = s.
Proof.
  unfold NL. induction s as [| c s IH]; intros H; [reflexivity | ].
  apply Contains_char in H. destruct H as [N H].
  cbn [strings.replaceFrom]. rewrite prefix_char.
  destruct (ascii_dec "010"%char c) as [E | _]; [contradiction | ].
  now rewrite IH.
Qed.

Lemma no_double_same s :
  strings.Contains s "  " = false -> strings.replaceFrom "  " " " 0 s = s.
Proof.
  induction s as [| c s IH]; intros H; [reflexivity | ].
  cbn [strings.Contains] in H. apply orb_false_iff in H. destruct H as [P H].
  cbn [strings.replaceFrom]. rewrite P. now rewrite IH.
Qed.

Lemma spaces_no_newline n : strings.Contains (spaces n) NL = false.
Proof.
  unfold NL. induction n as [| n IH]; [reflexivity | ].
  cbn [spaces]. apply Contains_char. split; [discriminate | exact IH].
Qed.

Lemma spaces_halved n :
  strings.replaceFrom "  " " " 0 (spaces n) = spaces (Nat.div2 (S n)) /\
  strings.replaceFrom "  " " " 0 (spaces (S n)) = spaces (Nat.div2 (S (S n))).
Proof.
  induction n as [| n [IH0 IH1]]; [split; reflexivity | ].
  split; [exact IH1 | ].
  cbn [spaces strings.replaceFrom String.prefix].
  destruct (ascii_dec " " " ") as [_ | N]; [ | contradiction N; reflexivity ].
  rewrite prefix_empty.
  change (String.length "  " - 1)%nat with 1%nat. cbn [String.append].
  fold (spaces n). rewrite IH0. reflexivity.
Qed.

End OneRow.

(** X16: What [CreateTableSQLToOneRow] returns holds no newline, and is not
    longer than the statement it was given. *)
Theorem one_row_has_no_newline sql :
  strings.Contains (conn.CreateTableSQLToOneRow sql) (String "010"%char EmptyString) = false /\
  (String.length (conn.CreateTableSQLToOneRow sql) <= String.length sql)%nat.
Proof.
  unfold conn.CreateTableSQLToOneRow, strings.ReplaceAll.
  destruct (removes_newlines sql) as [C L]. split.
  - apply keeps_no_newline. exact C.
  - eapply Nat.le_trans; [apply halving_length | exact L].
Qed.

(** X17: [CreateTableSQLToOneRow] does not reduce a run of spaces to one space:
    it halves the run, rounding up.  Three spaces become two, and a second
    call would change the result again. *)
Theorem one_row_halves_spaces n :
  conn.CreateTableSQLToOneRow (spaces n) = spaces (Nat.div2 (S n)).
Proof.
  unfold conn.CreateTableSQLToOneRow, strings.ReplaceAll.
  rewrite (no_newline_same _ (spaces_no_newline n)).
  apply spaces_halved.
Qed.

(** X18: [CreateTableSQLToOneRow] returns the statement it was given exactly when
    that statement holds no newline and no two spaces in a row. *)
Theorem one_row_fixed_point sql :
  conn.CreateTableSQLToOneRow sql = sql <->
  strings.Contains sql (String "010"%char EmptyString) = false /\
  strings.Contains sql "  "%string = false.
Proof.
  split.
  - intros E.
    assert (N : strings.Contains sql (String "010"%char EmptyString) = false).
    { rewrite <- E. unfold conn.CreateTableSQLToOneRow, strings.ReplaceAll.
      apply keeps_no_newline, removes_newlines. }
    split; [exact N | ].
    destruct (strings.Contains sql "  "%string) eqn:D; [ | reflexivity ].
    exfalso. unfold conn.CreateTableSQLToOneRow, strings.ReplaceAll in E.
    rewrite (no_newline_same _ N) in E.
    pose proof (halving_shrinks _ D) as L. rewrite E in L. lia.
  - intros [N D]. unfold conn.CreateTableSQLToOneRow, strings.ReplaceAll.
    rewrite (no_newline_same _ N). apply no_double_same. exact D.
Qed.


(** ** The package [conn]: the version of TiDB *)

Section Components.

Local Open Scope string_scope.

Lemma splitFrom_whole p :
  strings.Contains p "-" = false -> strings.splitFrom "-" 0 p = (p, []).
Proof.
  induction p as [| c p IH]; intros H; [reflexivity | ].
  apply Contains_char in H. destruct H as [N H].
  cbn [strings.splitFrom]. rewrite prefix_char.
  destruct (ascii_dec "-" c) as [E | _]; [contradiction | ].
  now rewrite (IH H).
Qed.

Lemma splitFrom_piece p rest :
  strings.Contains p "-" = false ->
  strings.splitFrom "-" 0 (p ++ String "-" rest)
  = (p, strings.Split rest "-").
Proof.
  induction p as [| c p IH]; intros H.
  - cbn [String.append strings.splitFrom]. rewrite prefix_char.
    destruct (ascii_dec "-" "-") as [_ | N]; [ | contradiction N; reflexivity ].
    reflexivity.
  - apply Contains_char in H. destruct H as [N H].
    cbn [String.append strings.splitFrom]. rewrite prefix_char.
    destruct (ascii_dec "-" c) as [E | _]; [contradiction | ].
    now rewrite (IH H).
Qed.

Lemma Split_Join comps :
  comps <> [] ->
  Forall (fun c => strings.Contains c "-" = false) comps ->
  strings.Split (strings.Join comps "-") "-" = comps.
Proof.
  induction comps as [| p comps IH]; intros Hne F; [contradiction | ].
  inversion F as [| ? ? Hp F']; subst.
  destruct comps as [| q comps].
  - unfold strings.Split, strings.Join. cbn [String.concat].
    now rewrite (splitFrom_whole p Hp).
  - assert (J : strings.Join (p :: q :: comps) "-"
                = p ++ String "-" (strings.Join (q :: comps) "-")) by reflexivity.
    rewrite J. unfold strings.Split at 1.
    rewrite (splitFrom_piece p _ Hp). cbn [fst snd]. f_equal.
    apply IH; [discriminate | exact F'].
Qed.

Lemma substring_whole s : substring 0 (String.length s) s = s.
Proof. induction s as [| c s IH]; simpl; [reflexivity | now rewrite IH]. Qed.

Lemma substring_tail v suf :
  substring (String.length v) (String.length suf) (v ++ suf) = suf.
Proof. induction v as [| c v IH]; simpl; [apply substring_whole | exact IH]. Qed.

Lemma substring_head v suf : substring 0 (String.length v) (v ++ suf) = v.
Proof.
  induction v as [| c v IH]; simpl; [destruct suf; reflexivity | now rewrite IH].
Qed.

Lemma TrimSuffix_append v suf : strings.TrimSuffix (v ++ suf) suf = v.
Proof.
  unfold strings.TrimSuffix, strings.HasSuffix.
  rewrite string_length_append.
  replace (String.length v + String.length suf - String.length suf)%nat
    with (String.length v) by lia.
  rewrite substring_tail, String.eqb_refl, substring_head.
  replace (String.length suf <=? String.length v + String.length suf)%nat with true;
    [reflexivity | ].
  symmetry. apply Nat.leb_le. lia.
Qed.

End Components.

(** X19: [ExtractTiDBVersion] on a version made of the components [comps], none
    of which holds a "-", joined by "-", and not ending in "-dirty": with
    3 or 4 components it parses the components from the third on; with 5 or
    6 it drops the last two as well; with any other number of components it
    returns the error naming the version, and [semver.NewVersion] is not
    called.  A leading "v" of what is parsed is dropped. *)
Theorem extract_by_components Version NewVersion comps :
  comps <> [] ->
  Forall (fun c => strings.Contains c "-"%string = false) comps ->
  strings.HasSuffix (strings.Join comps "-"%string) "-dirty"%string = false ->
  conn.ExtractTiDBVersion Version NewVersion (strings.Join comps "-"%string)
  = match List.length comps with
    | 3%nat | 4%nat =>
        NewVersion (strings.TrimPrefix (strings.Join (skipn 2 comps) "-"%string) "v"%string)
    | 5%nat | 6%nat =>
        NewVersion (strings.TrimPrefix
                      (strings.Join (firstn (List.length comps - 4) (skipn 2 comps))
                                    "-"%string)
                      "v"%string)
    | _ => inl (String.append "not a valid TiDB version: "%string
                              (strings.Join comps "-"%string))
    end.
Proof.
  intros Hne F Hs. unfold conn.ExtractTiDBVersion.
  unfold strings.TrimSuffix. rewrite Hs. rewrite (Split_Join comps Hne F).
  destruct comps as [| c1 [| c2 [| c3 [| c4 [| c5 [| c6 [| c7 comps]]]]]]];
    reflexivity.
Qed.

Lemma extract_by_components_witness :
  conn.ExtractTiDBVersion string (fun s => inr s)
    (strings.Join ["5.7.25"; "TiDB"; "v3.0.0"; "beta"; "211"; "g09beefbe0"]%string
                  "-"%string)
  = inr "3.0.0-beta"%string.
Proof.
  apply (extract_by_components string (fun s => inr s)
           ["5.7.25"; "TiDB"; "v3.0.0"; "beta"; "211"; "g09beefbe0"]%string).
  - discriminate.
  - repeat constructor.
  - reflexivity.
Defined.

(** X20: A "-dirty" at the end of the version does not change what
    [ExtractTiDBVersion] returns, the text of the error for a version with a
    wrong number of components apart: only one "-dirty" is taken off. *)
Theorem dirty_suffix_ignored Version NewVersion v :
  strings.HasSuffix v "-dirty"%string = false ->
  conn.ExtractTiDBVersion Version NewVersion (String.append v "-dirty"%string)
  = conn.ExtractTiDBVersion Version NewVersion v
  \/
  (conn.ExtractTiDBVersion Version NewVersion (String.append v "-dirty"%string)
   = inl (String.append "not a valid TiDB version: "%string
                        (String.append v "-dirty"%string)) /\
   conn.ExtractTiDBVersion Version NewVersion v
   = inl (String.append "not a valid TiDB version: "%string v)).
Proof.
  intros Hs. unfold conn.ExtractTiDBVersion.
  rewrite TrimSuffix_append.
  assert (T : strings.TrimSuffix v "-dirty"%string = v).
  { unfold strings.TrimSuffix. now rewrite Hs. }
  rewrite T.
  destruct (strings.Split v "-"%string)
    as [| c1 [| c2 [| c3 [| c4 [| c5 [| c6 [| c7 comps]]]]]]];
    cbn [List.length]; try (left; reflexivity); right; split; reflexivity.
Qed.

Lemma dirty_suffix_ignored_witness :
  conn.ExtractTiDBVersion string (fun s => inr s) "5.7.25-TiDB-v3.0.0-dirty"%string
  = inr "3.0.0"%string.
Proof.
  destruct (dirty_suffix_ignored string (fun s => inr s) "5.7.25-TiDB-v3.0.0"%string)
    as [E | [E _]].
  - reflexivity.
  - exact E.
  - discriminate E.
Defined.

